(** * VX-REALITYCORE: the program-space search engine

    A shallow embedding of [vx_agi/synthesis_engine.py],
    [vx_agi/genetic_operators.py] and [vx_agi/meta_learner.py], and the
    properties of the enumerative synthesizer, the genetic engine and the
    meta-strategy selector that are checked against it.

    Conventions of the embedding.
    - A Python call that raises is [None]; a call that returns [v] is
      [Some v].
    - A [dict] is an association list in insertion order (Python dicts
      iterate in insertion order, and the code relies on it).
    - Python [float]s are represented by the rational they denote ([Q]);
      rounding, infinities and NaN are outside the model.
    - The module [random] is an explicit source of raw draws that is threaded
      through the code; [time.time()] differences are an argument. *)

From Stdlib Require Import String Ascii DecimalString ZArith QArith Bool Arith Lia
  List.
Import ListNotations.

Set Warnings "-register-all".

Local Open Scope string_scope.
Local Open Scope list_scope.
Local Open Scope Z_scope.

(** ** Option as the exception monad *)

Definition obind {A B : Type} (m : option A) (k : A -> option B) : option B :=
  match m with
  | Some x => k x
  | None => None
  end.

Notation "x <- m ;; k" := (obind m (fun x => k))
  (at level 61, m at next level, right associativity).

(** [[f(x) for x in xs]]: left to right, the first exception aborts. *)
Fixpoint mapM {A B : Type} (f : A -> option B) (xs : list A) : option (list B) :=
  match xs with
  | [] => Some []
  | x :: rest =>
      y <- f x ;;
      ys <- mapM f rest ;;
      Some (y :: ys)
  end.

(** ** Python values *)

Module Py.

(** The values the primitives work on.  The last three constructors are the
    function objects the primitives [const], [compose] and [fix] return. *)
Inductive value : Type :=
| VNone
| VBool (b : bool)
| VInt (z : Z)
| VFloat (q : Q)
| VList (xs : list value)
| VConstFn (x : value)
| VComposeFn (f g : value)
| VFixFn (f : value).

(** [bool] is a subclass of [int]. *)
Definition as_int (v : value) : option Z :=
  match v with
  | VBool b => Some (if b then 1 else 0)
  | VInt z => Some z
  | _ => None
  end.

Definition as_num (v : value) : option Q :=
  match v with
  | VFloat q => Some q
  | _ => z <- as_int v ;; Some (inject_Z z)
  end.

(** [bool(v)] *)
Definition truthy (v : value) : bool :=
  match v with
  | VNone => false
  | VBool b => b
  | VInt z => negb (z =? 0)
  | VFloat q => negb (Qeq_bool q 0)
  | VList xs => match xs with [] => false | _ => true end
  | _ => true
  end.

(** [a == b].  Numbers compare by value across [bool], [int] and [float];
    lists compare element-wise.  Function objects compare by identity, which
    the model does not track: two function values are taken to be distinct
    objects. *)
Fixpoint py_eq (a b : value) : bool :=
  match a, b with
  | VNone, VNone => true
  | VList xs, VList ys =>
      (fix go (xs ys : list value) : bool :=
         match xs, ys with
         | [], [] => true
         | x :: xs', y :: ys' => py_eq x y && go xs' ys'
         | _, _ => false
         end) xs ys
  | _, _ =>
      match as_num a, as_num b with
      | Some p, Some q => Qeq_bool p q
      | _, _ => false
      end
  end.

(** [a < b]: numbers by value, lists lexicographically (the first position
    where the elements differ decides, otherwise the lengths); anything else
    raises [TypeError]. *)
Fixpoint py_lt (a b : value) : option bool :=
  match a, b with
  | VList xs, VList ys =>
      (fix go (xs ys : list value) : option bool :=
         match xs, ys with
         | [], [] => Some false
         | [], _ :: _ => Some true
         | _ :: _, [] => Some false
         | x :: xs', y :: ys' => if py_eq x y then go xs' ys' else py_lt x y
         end) xs ys
  | VList _, _ => None
  | _, VList _ => None
  | _, _ =>
      match as_num a, as_num b with
      | Some p, Some q => Some (negb (Qle_bool q p))
      | _, _ => None
      end
  end.

(** The loop of [fix_fn] inside [_fixed_point], with the number of calls of
    [f] made so far as a ghost counter:
    [[
      result = x
      for _ in range(max_iter):
          new_result = f(result)
          if new_result == result:
              return result
          result = new_result
      return result
    ]] *)
Fixpoint fix_loop {V : Type} (eqv : V -> V -> bool) (f : V -> option V)
    (iters : nat) (calls : nat) (result : V) : nat * option V :=
  match iters with
  | O => (calls, Some result)
  | S k =>
      match f result with
      | None => (S calls, None)
      | Some new_result =>
          if eqv new_result result then (S calls, Some result)
          else fix_loop eqv f k (S calls) new_result
      end
  end.

Definition max_iter : nat := 100.

(** [_fixed_point(f)(x)]: the number of calls of [f] and the outcome. *)
Definition fixed_point_run {V : Type} (eqv : V -> V -> bool) (f : V -> option V)
    (x : V) : nat * option V :=
  fix_loop eqv f max_iter 0 x.

Definition fixed_point {V : Type} (eqv : V -> V -> bool) (f : V -> option V)
    (x : V) : option V :=
  snd (fixed_point_run eqv f x).

(** Calling a value [f] on positional arguments [args]: only the three kinds of function objects are
    callable, each with exactly one positional argument. *)
Fixpoint call (f : value) (args : list value) : option value :=
  match f with
  | VConstFn x =>
      match args with
      | [_] => Some x
      | _ => None
      end
  | VComposeFn f1 g =>
      match args with
      | [x] => y <- call g [x] ;; call f1 [y]
      | _ => None
      end
  | VFixFn f1 =>
      match args with
      | [x] => fixed_point py_eq (fun r => call f1 [r]) x
      | _ => None
      end
  | _ => None
  end.

End Py.

Import Py.

(** ** Program trees

    The tuples [('primitive', name)], [('var', i)], [('const', v)] and
    [('apply', op, children)] shared by the synthesizer and the genetic
    engine. *)
Inductive ast : Type :=
| Primitive (name : string)
| Var (i : nat)
| Const (v : value)
| Apply (op : string) (children : list ast).

(** A compiled program or a primitive: called on positional arguments, it
    returns a value or raises. *)
Definition callable : Type := list value -> option value.

(** ** Dictionaries in insertion order *)

Definition dict (A : Type) : Type := list (string * A).

Fixpoint lookup {A : Type} (k : string) (d : dict A) : option A :=
  match d with
  | [] => None
  | (k', v) :: rest => if String.eqb k k' then Some v else lookup k rest
  end.

Definition keys {A : Type} (d : dict A) : list string := map fst d.

(** [d[k] = v]: an existing key keeps its position, a new key goes last. *)
Fixpoint dict_set {A : Type} (k : string) (v : A) (d : dict A) : dict A :=
  match d with
  | [] => [(k, v)]
  | (k', v') :: rest =>
      if String.eqb k k' then (k, v) :: rest else (k', v') :: dict_set k v rest
  end.

Definition in_list (s : string) (l : list string) : bool :=
  existsb (String.eqb s) l.

Definition string_of_nat (n : nat) : string :=
  NilEmpty.string_of_uint (Nat.to_uint n).

(** ** The enumerative synthesizer ([synthesis_engine.py]) *)

Module Synth.

Definition lambda1 (f : value -> option value) : callable :=
  fun args => match args with [x] => f x | _ => None end.

Definition lambda2 (f : value -> value -> option value) : callable :=
  fun args => match args with [x; y] => f x y | _ => None end.

Definition lambda3 (f : value -> value -> value -> option value) : callable :=
  fun args => match args with [x; y; z] => f x y z | _ => None end.

(** [x + y]: integers, floats, or two lists. *)
Definition py_add (x y : value) : option value :=
  match x, y with
  | VList a, VList b => Some (VList (a ++ b))
  | _, _ =>
      match as_int x, as_int y with
      | Some a, Some b => Some (VInt (a + b))
      | _, _ =>
          match as_num x, as_num y with
          | Some p, Some q => Some (VFloat (p + q))
          | _, _ => None
          end
      end
  end.

Definition py_sub (x y : value) : option value :=
  match as_int x, as_int y with
  | Some a, Some b => Some (VInt (a - b))
  | _, _ =>
      match as_num x, as_num y with
      | Some p, Some q => Some (VFloat (p - q))
      | _, _ => None
      end
  end.

Definition repeat_list (a : list value) (n : Z) : list value :=
  List.concat (repeat a (Z.to_nat n)).

(** [x * y]: numbers, or a list repeated an integer number of times. *)
Definition py_mul (x y : value) : option value :=
  match x, y with
  | VList a, _ => n <- as_int y ;; Some (VList (repeat_list a n))
  | _, VList b => n <- as_int x ;; Some (VList (repeat_list b n))
  | _, _ =>
      match as_int x, as_int y with
      | Some a, Some b => Some (VInt (a * b))
      | _, _ =>
          match as_num x, as_num y with
          | Some p, Some q => Some (VFloat (p * q))
          | _, _ => None
          end
      end
  end.

(** [x / y]: true division, always a float.  In keeping with the convention
    on floats the quotient is the exact rational: Python rounds it to the
    nearest double, and raises [OverflowError] when an [int] operand or the
    quotient of two [int]s is beyond the range of a float; neither is
    modelled, and no property below speaks about the value of a quotient. *)
Definition py_truediv (x y : value) : option value :=
  match as_num x, as_num y with
  | Some p, Some q => if Qeq_bool q 0 then None else Some (VFloat (p / q))
  | _, _ => None
  end.

Definition py_gt (x y : value) : option bool := py_lt y x.

(** [list(map(f, xs))] *)
Definition py_map (f : value) (xs : list value) : option (list value) :=
  mapM (fun x => call f [x]) xs.

(** [list(filter(f, xs))]; [filter(None, xs)] keeps the true elements. *)
Fixpoint py_filter (f : value) (xs : list value) : option (list value) :=
  match xs with
  | [] => Some []
  | x :: rest =>
      keep <- match f with
              | VNone => Some (truthy x)
              | _ => r <- call f [x] ;; Some (truthy r)
              end ;;
      ys <- py_filter f rest ;;
      Some (if keep then x :: ys else ys)
  end.

Fixpoint reduce_loop (f : value) (xs : list value) (result : value) : option value :=
  match xs with
  | [] => Some result
  | x :: rest => r <- call f [result; x] ;; reduce_loop f rest r
  end.

(** [_safe_reduce]: any exception, also iterating a non-list, gives [init]. *)
Definition safe_reduce (f xs init : value) : value :=
  match xs with
  | VList l =>
      match reduce_loop f l init with
      | Some r => r
      | None => init
      end
  | _ => init
  end.

(** [_initialize_primitives]: the table of base primitives, in the order of
    the dictionary literal. *)
Definition initialize_primitives : dict callable :=
  [ ("add", lambda2 py_add);
    ("sub", lambda2 py_sub);
    ("mul", lambda2 py_mul);
    ("div", lambda2 (fun x y =>
        if negb (py_eq y (VInt 0)) then py_truediv x y else Some (VInt 0)));
    ("and", lambda2 (fun x y => Some (if truthy x then y else x)));
    ("or", lambda2 (fun x y => Some (if truthy x then x else y)));
    ("not", lambda1 (fun x => Some (VBool (negb (truthy x)))));
    ("eq", lambda2 (fun x y => Some (VBool (py_eq x y))));
    ("gt", lambda2 (fun x y => b <- py_gt x y ;; Some (VBool b)));
    ("lt", lambda2 (fun x y => b <- py_lt x y ;; Some (VBool b)));
    ("if", lambda3 (fun cond then_val else_val =>
        Some (if truthy cond then then_val else else_val)));
    ("identity", lambda1 (fun x => Some x));
    ("const", lambda1 (fun x => Some (VConstFn x)));
    ("compose", lambda2 (fun f g => Some (VComposeFn f g)));
    ("map", lambda2 (fun f xs =>
        match xs with
        | VList l => r <- py_map f l ;; Some (VList r)
        | _ => Some xs
        end));
    ("filter", lambda2 (fun f xs =>
        match xs with
        | VList l => r <- py_filter f l ;; Some (VList r)
        | _ => Some xs
        end));
    ("reduce", lambda3 (fun f xs init => Some (safe_reduce f xs init)));
    ("head", lambda1 (fun xs =>
        match xs with
        | VList (x :: _) => Some x
        | _ => Some VNone
        end));
    ("tail", lambda1 (fun xs =>
        match xs with
        | VList (_ :: rest) => Some (VList rest)
        | _ => Some (VList [])
        end));
    ("cons", lambda2 (fun x xs =>
        Some (VList (x :: match xs with VList l => l | _ => [] end))));
    ("fix", lambda1 (fun f => Some (VFixFn f))) ].

Record IOExample : Type := {
  inputs : list value;
  output : value
}.

Record SynthesizedProgram : Type := {
  code : string;
  function : callable;
  cost : nat;
  examples_satisfied : nat;
  generalizes : bool
}.

Record ProgramSynthesizer : Type := {
  max_program_size : Z;
  primitive_ops : dict callable;
  learned_programs : list SynthesizedProgram
}.

(** [ProgramSynthesizer(max_program_size)] *)
Definition init (max_size : Z) : ProgramSynthesizer :=
  {| max_program_size := max_size;
     primitive_ops := initialize_primitives;
     learned_programs := [] |}.

(** [_get_arity] *)
Definition get_arity (op_name : string) : nat :=
  if in_list op_name
       ["add"; "sub"; "mul"; "div"; "and"; "or"; "eq"; "gt"; "lt"; "cons"; "compose"]
  then 2%nat
  else if in_list op_name ["not"; "identity"; "head"; "tail"; "const"] then 1%nat
  else if in_list op_name ["if"; "reduce"] then 3%nat
  else if in_list op_name ["map"; "filter"] then 2%nat
  else 1%nat.

(** [_partitions(n, k)]: the ordered ways to write [n] as [k] positive
    parts; nothing is yielded for [k = 0]. *)
Fixpoint partitions (n k : nat) : list (list nat) :=
  match k with
  | O => []
  | S k' =>
      match k' with
      | O => [[n]]
      | S _ =>
          flat_map (fun i => map (cons i) (partitions (n - i) k'))
                   (seq 1 (n - 1))
      end
  end.

(** [itertools.product]: the rightmost position varies fastest. *)
Fixpoint product {A : Type} (ls : list (list A)) : list (list A) :=
  match ls with
  | [] => [[]]
  | l :: rest => flat_map (fun x => map (cons x) (product rest)) l
  end.

(** [_enumerate_programs(size)] as the list of the trees the generator
    yields, in order.  The recursion is on sizes strictly below [size];
    [fuel] bounds its depth. *)
Fixpoint enumerate_fuel (ops : dict callable) (fuel size : nat) : list ast :=
  match fuel with
  | O => []
  | S fuel' =>
      if (size =? 1)%nat then
        map Primitive (keys ops) ++ map Var (seq 0 3)
      else
        flat_map (fun op_name =>
          flat_map (fun subprogram_sizes =>
            map (Apply op_name)
                (product (map (enumerate_fuel ops fuel') subprogram_sizes)))
            (partitions (size - 1) (get_arity op_name)))
          (keys ops)
  end.

Definition enumerate_programs (ops : dict callable) (size : nat) : list ast :=
  enumerate_fuel ops size size.

(** [_compile_ast] *)
Fixpoint compile_ast (ops : dict callable) (a : ast) : option callable :=
  match a with
  | Primitive op_name => lookup op_name ops
  | Const const_val => Some (fun _ => Some const_val)
  | Var var_idx => Some (fun args => Some (nth var_idx args VNone))
  | Apply op_name subprograms =>
      op_func <- lookup op_name ops ;;
      compiled_subs <- mapM (compile_ast ops) subprograms ;;
      Some (fun args =>
              sub_results <- mapM (fun sub : callable => sub args) compiled_subs ;;
              op_func sub_results)
  end.

(** Compiling a tree and calling it on [args]. *)
Definition run_ast (ops : dict callable) (a : ast) (args : list value) : option value :=
  func <- compile_ast ops a ;; func args.

Definition join (sep : string) (parts : list string) : string :=
  match parts with
  | [] => ""
  | p :: rest => fold_left (fun acc s => (acc ++ sep ++ s)%string) rest p
  end.

(** [_ast_to_code] *)
Fixpoint ast_to_code (a : ast) : string :=
  match a with
  | Primitive name => name
  | Var i => ("arg" ++ string_of_nat i)%string
  | Apply op_name subprograms =>
      (op_name ++ "(" ++ join ", " (map ast_to_code subprograms) ++ ")")%string
  | Const _ => "unknown"
  end.

(** The train/test split at the head of [synthesize]. *)
Definition split_examples (examples : list IOExample)
    : list IOExample * list IOExample :=
  if (length examples <? 2)%nat then (examples, [])
  else
    let split := (length examples * 2 / 3)%nat in
    (firstn split examples, skipn split examples).

(** The loop over the training examples: a match counts, a mismatch goes on
    to the next example, an exception leaves the loop. *)
Fixpoint count_satisfied (func : callable) (train_examples : list IOExample)
    (satisfied : nat) : nat :=
  match train_examples with
  | [] => satisfied
  | example :: rest =>
      match func (inputs example) with
      | None => satisfied
      | Some result =>
          count_satisfied func rest
            (if py_eq result (output example) then S satisfied else satisfied)
      end
  end.

(** The loop over the held-out examples. *)
Fixpoint check_generalizes (func : callable) (test_examples : list IOExample) : bool :=
  match test_examples with
  | [] => true
  | example :: rest =>
      match func (inputs example) with
      | None => false
      | Some result =>
          if negb (py_eq result (output example)) then false
          else check_generalizes func rest
      end
  end.

(** The body of the candidate loop: [None] when the candidate does not
    compile or does not match every training example. *)
Definition check_candidate (ops : dict callable)
    (train_examples test_examples : list IOExample) (size : nat)
    (program_ast : ast) : option SynthesizedProgram :=
  match compile_ast ops program_ast with
  | None => None
  | Some func =>
      let satisfied := count_satisfied func train_examples 0 in
      if (satisfied =? length train_examples)%nat then
        Some {| code := ast_to_code program_ast;
                function := func;
                cost := size;
                examples_satisfied := satisfied;
                generalizes := check_generalizes func test_examples |}
      else None
  end.

(** The candidate loop of one size, started with [programs_checked].  The
    first component is the list of the candidates that were checked (those
    for which [programs_checked += 1] ran), a ghost log. *)
Fixpoint scan_size (check : ast -> option SynthesizedProgram)
    (timeout_programs : Z) (candidates : list ast) (programs_checked : nat)
    : list ast * option SynthesizedProgram :=
  match candidates with
  | [] => ([], None)
  | program_ast :: rest =>
      if Z.of_nat programs_checked >=? timeout_programs then ([], None)
      else
        match check program_ast with
        | Some synthesized => ([program_ast], Some synthesized)
        | None =>
            let (log, r) :=
              scan_size check timeout_programs rest (S programs_checked) in
            (program_ast :: log, r)
        end
  end.

(** The loop over the sizes; every size starts with [programs_checked = 0]. *)
Fixpoint synthesize_sizes (ops : dict callable)
    (train_examples test_examples : list IOExample) (timeout_programs : Z)
    (sizes : list nat) : list ast * option SynthesizedProgram :=
  match sizes with
  | [] => ([], None)
  | size :: rest =>
      match scan_size (check_candidate ops train_examples test_examples size)
                      timeout_programs (enumerate_programs ops size) 0 with
      | (log, Some synthesized) => (log, Some synthesized)
      | (log, None) =>
          let (log', r) :=
            synthesize_sizes ops train_examples test_examples timeout_programs rest in
          (log ++ log', r)
      end
  end.

(** [synthesize] with the ghost log of the candidates checked. *)
Definition synthesize_trace (self : ProgramSynthesizer)
    (examples : list IOExample) (timeout_programs : Z)
    : list ast * option SynthesizedProgram :=
  let (train_examples, test_examples) := split_examples examples in
  synthesize_sizes (primitive_ops self) train_examples test_examples
    timeout_programs (seq 1 (Z.to_nat (max_program_size self))).

(** What [synthesize] returns. *)
Definition synthesize (self : ProgramSynthesizer) (examples : list IOExample)
    (timeout_programs : Z) : option SynthesizedProgram :=
  snd (synthesize_trace self examples timeout_programs).

(** The candidates [synthesize] checked, in order. *)
Definition programs_checked_by (self : ProgramSynthesizer)
    (examples : list IOExample) (timeout_programs : Z) : list ast :=
  fst (synthesize_trace self examples timeout_programs).

(** The synthesizer after the call: a program that is returned is also
    appended to [learned_programs]. *)
Definition synthesize_state (self : ProgramSynthesizer)
    (examples : list IOExample) (timeout_programs : Z) : ProgramSynthesizer :=
  match synthesize self examples timeout_programs with
  | Some synthesized =>
      {| max_program_size := max_program_size self;
         primitive_ops := primitive_ops self;
         learned_programs := learned_programs self ++ [synthesized] |}
  | None => self
  end.

(** [add_learned_as_primitive] *)
Definition add_learned_as_primitive (self : ProgramSynthesizer)
    (program : SynthesizedProgram) (name : string) : ProgramSynthesizer :=
  {| max_program_size := max_program_size self;
     primitive_ops := dict_set name (function program) (primitive_ops self);
     learned_programs := learned_programs self |}.

End Synth.

(** ** The module [random]

    A source of raw draws, consumed one per call.  [random.random()] is the
    draw reduced to a multiple of [2^-53] in [[0, 1)], which is what the
    Mersenne Twister generator of Python returns. *)

Definition rng : Type := nat -> N.

Definition Rand (A : Type) : Type := rng -> A * rng.

Definition rret {A : Type} (x : A) : Rand A := fun r => (x, r).

Definition rbind {A B : Type} (m : Rand A) (k : A -> Rand B) : Rand B :=
  fun r => let (x, r') := m r in k x r'.

Notation "x <~ m ;; k" := (rbind m (fun x => k))
  (at level 61, m at next level, right associativity).

Definition draw : Rand N := fun r => (r O, fun i => r (S i)).

Definition rng_of_list (l : list N) : rng := fun i => nth i l 0%N.

Definition random_random : Rand Q :=
  n <~ draw ;;
  rret (Z.of_N (n mod 9007199254740992) # 9007199254740992).

(** [random.randint(a, b)] for [a <= b]. *)
Definition randint (a b : nat) : Rand nat :=
  n <~ draw ;; rret (a + N.to_nat (n mod N.of_nat (b - a + 1)))%nat.

(** The index [random.choice] picks in a sequence of [len] elements. *)
Definition choice_index (len : nat) : Rand nat :=
  n <~ draw ;; rret (N.to_nat (n mod N.of_nat len)).

(** [random.choice(xs)] for a non-empty [xs]. *)
Definition choice {A : Type} (xs : list A) (default : A) : Rand A :=
  i <~ choice_index (List.length xs) ;; rret (nth i xs default).

Fixpoint remove_nth {A : Type} (i : nat) (xs : list A) : list A :=
  match xs, i with
  | [], _ => []
  | _ :: rest, O => rest
  | x :: rest, S j => x :: remove_nth j rest
  end.

Fixpoint sample_loop {A : Type} (k : nat) (pool : list A) : Rand (list A) :=
  match k with
  | O => rret []
  | S k' =>
      match pool with
      | [] => rret []
      | x :: _ =>
          i <~ choice_index (List.length pool) ;;
          rest <~ sample_loop k' (remove_nth i pool) ;;
          rret (nth i pool x :: rest)
      end
  end.

(** [random.sample(population, k)]: [k] elements at distinct positions, in
    the order they are drawn; [ValueError] when [k] exceeds the population. *)
Definition sample {A : Type} (population : list A) (k : nat) : Rand (option (list A)) :=
  if (List.length population <? k)%nat then rret None
  else s <~ sample_loop k population ;; rret (Some s).

Definition Qlt_bool (a b : Q) : bool := negb (Qle_bool b a).

(** ** The genetic engine ([genetic_operators.py]) *)

Module Genetic.

(** [GeneticOperator].  The field [parent_ids] holds [id()] of the parent
    objects, that is memory addresses; it is informational and is left out. *)
Record GeneticOperator : Type := {
  op_ast : ast;
  fitness : Q;
  age : nat;
  mutations : nat
}.

(** [GeneticOperator(ast=a, mutations=m)] *)
Definition new_operator (a : ast) (m : nat) : GeneticOperator :=
  {| op_ast := a; fitness := 0; age := 0; mutations := m |}.

Definition set_fitness (op : GeneticOperator) (f : Q) : GeneticOperator :=
  {| op_ast := op_ast op; fitness := f; age := age op; mutations := mutations op |}.

Definition set_age (op : GeneticOperator) (a : nat) : GeneticOperator :=
  {| op_ast := op_ast op; fitness := fitness op; age := a; mutations := mutations op |}.

Record HistoryEntry : Type := {
  h_generation : nat;
  h_avg_fitness : Q;
  h_max_fitness : Q;
  h_best_ever : Q
}.

Record GeneticEvolution : Type := {
  population_size : nat;
  mutation_rate : Q;
  crossover_rate : Q;
  tournament_size : nat;
  population : list GeneticOperator;
  generation : nat;
  best_ever : option GeneticOperator;
  fitness_history : list HistoryEntry
}.

(** [GeneticEvolution(population_size, mutation_rate, crossover_rate,
    tournament_size)] *)
Definition init (size : nat) (mrate crate : Q) (tsize : nat) : GeneticEvolution :=
  {| population_size := size;
     mutation_rate := mrate;
     crossover_rate := crate;
     tournament_size := tsize;
     population := [];
     generation := 0;
     best_ever := None;
     fitness_history := [] |}.

(** [self.primitives] *)
Definition primitives : list string :=
  [ "add"; "sub"; "mul"; "div";
    "and"; "or"; "not";
    "eq"; "gt"; "lt";
    "if"; "identity";
    "map"; "filter"; "reduce";
    "head"; "tail"; "cons" ].

(** The literals a [const] leaf is drawn from: [[0, 1, 2, True, False]]. *)
Definition constants : list value :=
  [VInt 0; VInt 1; VInt 2; VBool true; VBool false].

(** [_get_arity] *)
Definition get_arity (primitive : string) : nat :=
  if in_list primitive
       ["add"; "sub"; "mul"; "div"; "and"; "or"; "eq"; "gt"; "lt"; "cons"]
  then 2%nat
  else if in_list primitive ["not"; "identity"; "head"; "tail"] then 1%nat
  else if in_list primitive ["if"; "reduce"] then 3%nat
  else if in_list primitive ["map"; "filter"] then 2%nat
  else 1%nat.

Inductive method : Type := Grow | Full.

(** The terminal branch of [_generate_random_ast]. *)
Definition random_terminal : Rand ast :=
  x <~ random_random ;;
  if Qlt_bool x (1 # 2) then i <~ randint 0 2 ;; rret (Var i)
  else c <~ choice constants VNone ;; rret (Const c).

(** [_generate_random_ast(max_depth, method)] *)
Fixpoint generate_random_ast (max_depth : nat) (m : method) : Rand ast :=
  match max_depth with
  | O => random_terminal
  | S depth' =>
      stop <~ match m with
              | Grow => x <~ random_random ;; rret (Qlt_bool x (3 # 10))
              | Full => rret false
              end ;;
      if stop : bool then random_terminal
      else
        primitive <~ choice primitives "add" ;;
        children <~ (fix gen (n : nat) : Rand (list ast) :=
                       match n with
                       | O => rret []
                       | S n' =>
                           c <~ generate_random_ast depth' m ;;
                           cs <~ gen n' ;;
                           rret (c :: cs)
                       end) (get_arity primitive) ;;
        rret (Apply primitive children)
  end.

(** The loop of [initialize_population], from index [i] for [n] more
    individuals. *)
Fixpoint initial_individuals (size max_depth i n : nat) : Rand (list GeneticOperator) :=
  match n with
  | O => rret []
  | S n' =>
      a <~ generate_random_ast max_depth
             (if (i <? size / 2)%nat then Grow else Full) ;;
      rest <~ initial_individuals size max_depth (S i) n' ;;
      rret (new_operator a 0 :: rest)
  end.

Definition set_population (self : GeneticEvolution) (p : list GeneticOperator)
    : GeneticEvolution :=
  {| population_size := population_size self;
     mutation_rate := mutation_rate self;
     crossover_rate := crossover_rate self;
     tournament_size := tournament_size self;
     population := p;
     generation := generation self;
     best_ever := best_ever self;
     fitness_history := fitness_history self |}.

(** [initialize_population(max_depth)] *)
Definition initialize_population (self : GeneticEvolution) (max_depth : nat)
    : Rand GeneticEvolution :=
  p <~ initial_individuals (population_size self) max_depth 0 (population_size self) ;;
  rret (set_population self p).

(** Equality of two tree tuples, [node == target]. *)
Fixpoint ast_eq (a b : ast) : bool :=
  match a, b with
  | Primitive n, Primitive m => String.eqb n m
  | Var i, Var j => (i =? j)%nat
  | Const v, Const w => py_eq v w
  | Apply o cs, Apply o' cs' =>
      String.eqb o o' &&
      (fix go (xs ys : list ast) : bool :=
         match xs, ys with
         | [], [] => true
         | x :: xs', y :: ys' => ast_eq x y && go xs' ys'
         | _, _ => false
         end) cs cs'
  | _, _ => false
  end.

(** [_get_all_subtrees]: the subtrees in pre-order, the root first. *)
Fixpoint get_all_subtrees (a : ast) : list ast :=
  a :: match a with
       | Apply _ children => flat_map get_all_subtrees children
       | _ => []
       end.

(** The inner function [replace_in_ast] of [_replace_subtree]. *)
Fixpoint replace_in_ast (target new_subtree node : ast) : ast :=
  if ast_eq node target then new_subtree
  else
    match node with
    | Apply op children =>
        Apply op (map (replace_in_ast target new_subtree) children)
    | _ => node
    end.

(** [_replace_subtree(ast, index, new_subtree)] *)
Definition replace_subtree (a : ast) (index : nat) (new_subtree : ast) : ast :=
  let subtrees := get_all_subtrees a in
  match nth_error subtrees index with
  | None => a
  | Some target => replace_in_ast target new_subtree a
  end.

(** [_point_mutation] *)
Definition point_mutation (a : ast) : Rand ast :=
  match a with
  | Var _ => i <~ randint 0 2 ;; rret (Var i)
  | Const _ => c <~ choice constants VNone ;; rret (Const c)
  | Apply _ children =>
      new_primitive <~ choice primitives "add" ;;
      rret (Apply new_primitive children)
  | Primitive _ => rret a
  end.

(** One step of the first loop of [evaluate_fitness]: an exception of the
    fitness function counts as fitness [0.0]. *)
Definition evaluate_individual (fitness_function : ast -> option Q)
    (operator : GeneticOperator) : GeneticOperator :=
  set_fitness operator
    match fitness_function (op_ast operator) with
    | Some f => f
    | None => 0
    end.

(** [max(ops, key=lambda op: op.fitness)]: the first individual of maximal
    fitness; [ValueError] on an empty sequence. *)
Definition max_by_fitness (ops : list GeneticOperator) : option GeneticOperator :=
  match ops with
  | [] => None
  | first :: rest =>
      Some (fold_left
              (fun best op => if Qlt_bool (fitness best) (fitness op) then op else best)
              rest first)
  end.

Definition Qsum (l : list Q) : Q := fold_left Qplus l 0%Q.

(** [evaluate_fitness]; [None] when [max] raises on an empty population,
    in which case nothing has been changed. *)
Definition evaluate_fitness (self : GeneticEvolution)
    (fitness_function : ast -> option Q) : option GeneticEvolution :=
  let pop := map (evaluate_individual fitness_function) (population self) in
  match max_by_fitness pop with
  | None => None
  | Some best_current =>
      let best :=
        match best_ever self with
        | None => best_current
        | Some b =>
            if Qlt_bool (fitness b) (fitness best_current) then best_current else b
        end in
      let avg_fitness :=
        (Qsum (map fitness pop) / inject_Z (Z.of_nat (List.length pop)))%Q in
      Some {| population_size := population_size self;
              mutation_rate := mutation_rate self;
              crossover_rate := crossover_rate self;
              tournament_size := tournament_size self;
              population := pop;
              generation := generation self;
              best_ever := Some best;
              fitness_history :=
                fitness_history self ++
                [ {| h_generation := generation self;
                     h_avg_fitness := avg_fitness;
                     h_max_fitness := fitness best_current;
                     h_best_ever := fitness best |} ] |}
  end.

(** [selection]: [None] when [random.sample] or [max] raises. *)
Definition selection (self : GeneticEvolution) : Rand (option GeneticOperator) :=
  tournament <~ sample (population self) (tournament_size self) ;;
  rret (t <- tournament ;; max_by_fitness t).

(** [crossover] *)
Definition crossover (self : GeneticEvolution) (parent1 parent2 : GeneticOperator)
    : Rand (GeneticOperator * GeneticOperator) :=
  x <~ random_random ;;
  if Qlt_bool (crossover_rate self) x then rret (parent1, parent2)
  else
    let ast1 := op_ast parent1 in
    let ast2 := op_ast parent2 in
    let subtrees1 := get_all_subtrees ast1 in
    let subtrees2 := get_all_subtrees ast2 in
    match subtrees1, subtrees2 with
    | [], _ => rret (parent1, parent2)
    | _, [] => rret (parent1, parent2)
    | _, _ =>
        point1 <~ choice_index (List.length subtrees1) ;;
        point2 <~ choice_index (List.length subtrees2) ;;
        let child1_ast := replace_subtree ast1 point1 (nth point2 subtrees2 ast2) in
        let child2_ast := replace_subtree ast2 point2 (nth point1 subtrees1 ast1) in
        rret (new_operator child1_ast 0, new_operator child2_ast 0)
    end.

Inductive mutation_type : Type := Point | Subtree | Hoist.

(** The tree [mutate] builds for a mutation of the given kind. *)
Definition mutate_ast (kind : mutation_type) (a : ast) : Rand ast :=
  match kind with
  | Point => point_mutation a
  | Subtree =>
      let subtrees := get_all_subtrees a in
      match subtrees with
      | [] => rret a
      | _ =>
          point <~ choice_index (List.length subtrees) ;;
          new_subtree <~ generate_random_ast 2 Grow ;;
          rret (replace_subtree a point new_subtree)
      end
  | Hoist =>
      let subtrees := get_all_subtrees a in
      if (1 <? List.length subtrees)%nat then choice (tl subtrees) a
      else rret a
  end.

(** [mutate] *)
Definition mutate (self : GeneticEvolution) (operator : GeneticOperator)
    : Rand GeneticOperator :=
  x <~ random_random ;;
  if Qlt_bool (mutation_rate self) x then rret operator
  else
    kind <~ choice [Point; Subtree; Hoist] Point ;;
    mutated_ast <~ mutate_ast kind (op_ast operator) ;;
    rret (new_operator mutated_ast (mutations operator + 1)).

(** The [while] loop of [evolve_generation]; [remaining] is
    [population_size - len(new_population)].  [None] when a selection
    raises. *)
Fixpoint fill (self : GeneticEvolution) (remaining : nat)
    (new_population : list GeneticOperator) : Rand (option (list GeneticOperator)) :=
  match remaining with
  | O => rret (Some new_population)
  | S k =>
      p1 <~ selection self ;;
      match p1 with
      | None => rret None
      | Some parent1 =>
          p2 <~ selection self ;;
          match p2 with
          | None => rret None
          | Some parent2 =>
              children <~ crossover self parent1 parent2 ;;
              child1 <~ mutate self (fst children) ;;
              child2 <~ mutate self (snd children) ;;
              let child1 := set_age child1 0 in
              let child2 := set_age child2 0 in
              match k with
              | O => rret (Some (new_population ++ [child1]))
              | S k' => fill self k' (new_population ++ [child1; child2])
              end
          end
      end
  end.

Inductive outcome : Type := Completed | Raised.

(** [evolve_generation]: the engine after the call and whether the call
    returned or raised.  The old individuals, whose [age] the method
    increments last, are dropped with the old population. *)
Definition evolve_generation (self : GeneticEvolution)
    (fitness_function : ast -> option Q) : Rand (GeneticEvolution * outcome) :=
  match evaluate_fitness self fitness_function with
  | None => rret (self, Raised)
  | Some self1 =>
      match max_by_fitness (population self1) with
      | None => rret (self1, Raised)
      | Some best =>
          filled <~ fill self1 (population_size self1 - 1) [best] ;;
          match filled with
          | None => rret (self1, Raised)
          | Some new_population =>
              rret ({| population_size := population_size self1;
                       mutation_rate := mutation_rate self1;
                       crossover_rate := crossover_rate self1;
                       tournament_size := tournament_size self1;
                       population := new_population;
                       generation := S (generation self1);
                       best_ever := best_ever self1;
                       fitness_history := fitness_history self1 |}, Completed)
          end
      end
  end.

(** [run_evolution]: the loop stops at the first call that raises. *)
Fixpoint run_evolution (self : GeneticEvolution)
    (fitness_function : ast -> option Q) (generations : nat)
    : Rand (GeneticEvolution * outcome) :=
  match generations with
  | O => rret (self, Completed)
  | S g =>
      step <~ evolve_generation self fitness_function ;;
      match snd step with
      | Raised => rret step
      | Completed => run_evolution (fst step) fitness_function g
      end
  end.

(** The engine states that a caller can reach from [self] by calls of
    [evolve_generation], with any fitness functions and any random draws,
    calls that raised included. *)
Inductive evolves : GeneticEvolution -> GeneticEvolution -> Prop :=
| evolves_refl : forall self, evolves self self
| evolves_step : forall self fitness_function r self' o self'',
    fst (evolve_generation self fitness_function r) = (self', o) ->
    evolves self' self'' ->
    evolves self self''.

(** The invariant of the data model: at every [Apply] node the number of
    children is the arity [_get_arity] gives its operator. *)
Fixpoint well_formed (a : ast) : bool :=
  match a with
  | Apply op children =>
      (List.length children =? get_arity op)%nat && forallb well_formed children
  | _ => true
  end.

End Genetic.

(** ** The meta-strategy selector ([meta_learner.py]) *)

Module Meta.

Import Synth.

(** What a call of a strategy's [synthesize_func] does: it returns a program
    or [None], or it raises an [Exception]. *)
Inductive strategy_result : Type :=
| Returns (result : option SynthesizedProgram)
| Raises (error : string).

Definition synthesize_func_type : Type := list IOExample -> Q -> strategy_result.

Record SynthesisStrategy : Type := {
  name : string;
  synthesize_func : synthesize_func_type;
  success_count : nat;
  failure_count : nat;
  total_time : Q;
  avg_program_size : Q
}.

Record ProblemCharacteristics : Type := {
  num_examples : Z;
  input_types : list string;
  output_type : string;
  example_complexity : Q
}.

Definition string_of_Z (z : Z) : string := NilZero.string_of_int (Z.to_int z).

(** [signature()]: the three fields joined by underscores. *)
Definition signature (pc : ProblemCharacteristics) : string :=
  (string_of_Z (num_examples pc) ++ "_" ++
   string_of_nat (List.length (input_types pc)) ++ "_" ++ output_type pc)%string.

(** An entry of [success_patterns]. *)
Record SuccessRecord : Type := {
  s_strategy : string;
  s_time : Q;
  s_program_size : nat
}.

(** An entry of [problem_history]. *)
Record HistoryRecord : Type := {
  p_problem : ProblemCharacteristics;
  p_strategy : string;
  p_success : bool;
  p_time : Q;
  p_error : option string
}.

Record MetaLearner : Type := {
  strategies : dict SynthesisStrategy;
  problem_history : list HistoryRecord;
  strategy_mapping : dict string;
  success_patterns : dict (list SuccessRecord)
}.

Definition init : MetaLearner :=
  {| strategies := [];
     problem_history := [];
     strategy_mapping := [];
     success_patterns := [] |}.

(** [register_strategy] *)
Definition register_strategy (self : MetaLearner) (n : string)
    (f : synthesize_func_type) : MetaLearner :=
  {| strategies :=
       dict_set n {| name := n; synthesize_func := f; success_count := 0;
                     failure_count := 0; total_time := 0;
                     avg_program_size := 0 |} (strategies self);
     problem_history := problem_history self;
     strategy_mapping := strategy_mapping self;
     success_patterns := success_patterns self |}.

(** [select_strategy]; [None] when [random.choice] raises on an empty list
    of strategies. *)
Definition select_strategy (self : MetaLearner) (problem_chars : ProblemCharacteristics)
    : Rand (option string) :=
  match lookup (signature problem_chars) (strategy_mapping self) with
  | Some s => rret (Some s)
  | None =>
      if in_list "enumerative" (keys (strategies self)) then rret (Some "enumerative")
      else
        match keys (strategies self) with
        | [] => rret None
        | k :: _ => s <~ choice (keys (strategies self)) k ;; rret (Some s)
        end
  end.

(** The dictionary [strategy_times] built by the loop of
    [_update_strategy_mapping]: the times of each strategy, the strategies in
    the order of their first record. *)
Fixpoint group_times (successes : list SuccessRecord) (strategy_times : dict (list Q))
    : dict (list Q) :=
  match successes with
  | [] => strategy_times
  | success :: rest =>
      group_times rest
        (dict_set (s_strategy success)
           (match lookup (s_strategy success) strategy_times with
            | Some times => times ++ [s_time success]
            | None => [s_time success]
            end)
           strategy_times)
  end.

(** [sum(x) / len(x)] *)
Definition mean (times : list Q) : Q :=
  (fold_left Qplus times 0 / inject_Z (Z.of_nat (List.length times)))%Q.

(** [min(items, key=...)]: the first item of minimal key. *)
Definition min_by_mean (items : list (string * list Q)) : option (string * list Q) :=
  match items with
  | [] => None
  | first :: rest =>
      Some (fold_left
              (fun best item =>
                 if Qlt_bool (mean (snd item)) (mean (snd best)) then item else best)
              rest first)
  end.

(** [_update_strategy_mapping].  Reading [success_patterns[signature]], a
    [defaultdict], creates an empty entry for an unknown signature. *)
Definition update_strategy_mapping (self : MetaLearner)
    (problem_chars : ProblemCharacteristics) (successful_strategy : string)
    : MetaLearner :=
  let sig := signature problem_chars in
  match lookup sig (success_patterns self) with
  | None =>
      {| strategies := strategies self;
         problem_history := problem_history self;
         strategy_mapping := strategy_mapping self;
         success_patterns := dict_set sig [] (success_patterns self) |}
  | Some successes =>
      match min_by_mean (group_times successes []) with
      | None => self
      | Some best =>
          {| strategies := strategies self;
             problem_history := problem_history self;
             strategy_mapping := dict_set sig (fst best) (strategy_mapping self);
             success_patterns := success_patterns self |}
      end
  end.

Definition record_attempt (self : MetaLearner) (strategy_name : string)
    (strategy : SynthesisStrategy) (entry : HistoryRecord) : MetaLearner :=
  {| strategies := dict_set strategy_name strategy (strategies self);
     problem_history := problem_history self ++ [entry];
     strategy_mapping := strategy_mapping self;
     success_patterns := success_patterns self |}.

(** The [else] branch and the [except] handler of [attempt_synthesis]. *)
Definition record_failure (self : MetaLearner) (problem_chars : ProblemCharacteristics)
    (strategy_name : string) (strategy : SynthesisStrategy) (elapsed : Q)
    (error : option string) : MetaLearner :=
  record_attempt self strategy_name
    {| name := name strategy;
       synthesize_func := synthesize_func strategy;
       success_count := success_count strategy;
       failure_count := failure_count strategy + 1;
       total_time := total_time strategy + elapsed;
       avg_program_size := avg_program_size strategy |}
    {| p_problem := problem_chars; p_strategy := strategy_name;
       p_success := false; p_time := elapsed; p_error := error |}.

(** The branch of [attempt_synthesis] for a result that is not [None].
    [total_time] and [avg_program_size] are Python floats and are updated
    here in exact rationals: the rounding of the float operations is not
    modelled, nor is the [OverflowError] of adding a cost beyond the range of
    a float, and no property below speaks about the value of
    [avg_program_size] after a success. *)
Definition record_success (self : MetaLearner) (problem_chars : ProblemCharacteristics)
    (strategy_name : string) (strategy : SynthesisStrategy) (elapsed : Q)
    (result : SynthesizedProgram) : MetaLearner :=
  let count := (success_count strategy + 1)%nat in
  let strategy' :=
    {| name := name strategy;
       synthesize_func := synthesize_func strategy;
       success_count := count;
       failure_count := failure_count strategy;
       total_time := total_time strategy + elapsed;
       avg_program_size :=
         (avg_program_size strategy * inject_Z (Z.of_nat (count - 1))
          + inject_Z (Z.of_nat (cost result))) / inject_Z (Z.of_nat count) |} in
  let sig := signature problem_chars in
  let successes :=
    match lookup sig (success_patterns self) with
    | Some l => l
    | None => []
    end in
  let self1 :=
    {| strategies := dict_set strategy_name strategy' (strategies self);
       problem_history := problem_history self;
       strategy_mapping := strategy_mapping self;
       success_patterns :=
         dict_set sig
           (successes ++ [ {| s_strategy := strategy_name; s_time := elapsed;
                              s_program_size := cost result |} ])
           (success_patterns self) |} in
  let self2 := update_strategy_mapping self1 problem_chars strategy_name in
  {| strategies := strategies self2;
     problem_history :=
       problem_history self2 ++
       [ {| p_problem := problem_chars; p_strategy := strategy_name;
            p_success := true; p_time := elapsed; p_error := None |} ];
     strategy_mapping := strategy_mapping self2;
     success_patterns := success_patterns self2 |}.

(** How a call of [attempt_synthesis] ends: it returns, or the exception of
    the strategy selection or of the strategy lookup propagates. *)
Inductive attempt_result : Type :=
| Returned (result : option SynthesizedProgram)
| Propagated.

(** [attempt_synthesis]; [elapsed] is the difference of the two readings of
    [time.time()]. *)
Definition attempt_synthesis (self : MetaLearner)
    (problem_chars : ProblemCharacteristics) (examples : list IOExample)
    (timeout : Q) (elapsed : Q) : Rand (MetaLearner * attempt_result) :=
  selected <~ select_strategy self problem_chars ;;
  match selected with
  | None => rret (self, Propagated)
  | Some strategy_name =>
      match lookup strategy_name (strategies self) with
      | None => rret (self, Propagated)
      | Some strategy =>
          match synthesize_func strategy examples timeout with
          | Returns (Some result) =>
              rret (record_success self problem_chars strategy_name strategy
                      elapsed result, Returned (Some result))
          | Returns None =>
              rret (record_failure self problem_chars strategy_name strategy
                      elapsed None, Returned None)
          | Raises e =>
              rret (record_failure self problem_chars strategy_name strategy
                      elapsed (Some e), Returned None)
          end
      end
  end.

(** The strategies of a list of names in the order of their first
    occurrence. *)
Fixpoint first_occurrences (seen : list string) (l : list string) : list string :=
  match l with
  | [] => []
  | x :: rest =>
      if in_list x seen then first_occurrences seen rest
      else x :: first_occurrences (x :: seen) rest
  end.

(** The strategies that have a success record, in the order of their first
    success. *)
Definition succeeded (successes : list SuccessRecord) : list string :=
  first_occurrences [] (map s_strategy successes).

(** The recorded times of one strategy, oldest first. *)
Definition times_of (s : string) (successes : list SuccessRecord) : list Q :=
  map s_time (filter (fun r => String.eqb (s_strategy r) s) successes).

(** The mean recorded time of a strategy. *)
Definition mean_time (s : string) (successes : list SuccessRecord) : Q :=
  mean (times_of s successes).

End Meta.

(** ** Notions used in the statements *)

Import Synth.

(** The split point the specification names: the ceiling of [2n/3]. *)
Definition ceil_two_thirds (n : nat) : nat := ((2 * n + 2) / 3)%nat.

(** The split point of [synthesize]: every example when there are fewer
    than two, otherwise [len(examples) * 2 // 3]. *)
Definition split_point (n : nat) : nat :=
  if (n <? 2)%nat then n else (n * 2 / 3)%nat.

(** The first element that is not [None]. *)
Fixpoint first_some {A : Type} (l : list (option A)) : option A :=
  match l with
  | [] => None
  | Some x :: _ => Some x
  | None :: rest => first_some rest
  end.

(** The elements of [l] up to and including the first one that [check]
    accepts. *)
Fixpoint checked_prefix {A B : Type} (check : A -> option B) (l : list A) : list A :=
  match l with
  | [] => []
  | c :: rest =>
      c :: match check c with
           | Some _ => []
           | None => checked_prefix check rest
           end
  end.

(** The candidates within the budget, each with its size: for each size of
    [sizes] in turn, the first [timeout_programs] trees of that size. *)
Definition candidates_in_budget (ops : dict callable) (timeout_programs : Z)
    (sizes : list nat) : list (nat * ast) :=
  flat_map (fun size =>
              map (pair size)
                  (firstn (Z.to_nat timeout_programs) (enumerate_programs ops size)))
           sizes.

(** The check of the candidate loop on a candidate paired with its size. *)
Definition check_sized (ops : dict callable) (train test : list IOExample)
    (c : nat * ast) : option SynthesizedProgram :=
  check_candidate ops train test (fst c) (snd c).

(** ** The caller of the engines ([agi_runtime.py]) *)

Module Runtime.

(** [_ast_size]: the number of nodes of a tree. *)
Fixpoint ast_size (a : ast) : nat :=
  match a with
  | Apply _ children => S (list_sum (map ast_size children))
  | _ => 1%nat
  end.

(** The loop of [fitness_func]: an example counts when the program returns
    its output; an exception is passed over. *)
Fixpoint count_matches (func : callable) (examples : list IOExample) : nat :=
  match examples with
  | [] => 0%nat
  | ex :: rest =>
      (match func (inputs ex) with
       | Some result => if py_eq result (output ex) then 1 else 0
       | None => 0
       end + count_matches func rest)%nat
  end.

(** [fitness_func] of [_genetic_synthesize]: the number of examples
    satisfied, [0] for a tree that does not compile. *)
Definition fitness_func (ops : dict callable) (examples : list IOExample)
    (a : ast) : nat :=
  match compile_ast ops a with
  | Some func => count_matches func examples
  | None => 0%nat
  end.

(** [fitness_func] as the fitness function handed to the genetic engine; it
    never raises. *)
Definition fitness_function (ops : dict callable) (examples : list IOExample)
    (a : ast) : option Q :=
  Some (inject_Z (Z.of_nat (fitness_func ops examples a))).

(** [int(x)] of a float: truncation towards zero. *)
Definition py_int (x : Q) : Z := Z.quot (Qnum x) (Zpos (Qden x)).

(** How [_genetic_synthesize] ends. *)
Inductive genetic_result : Type :=
| Result (program : option SynthesizedProgram)
| Raise.

(** The conversion of the best individual at the end of
    [_genetic_synthesize]. *)
Definition to_program (ops : dict callable) (examples : list IOExample)
    (best : Genetic.GeneticOperator) : genetic_result :=
  if Qlt_bool 0 (Genetic.fitness best) then
    match compile_ast ops (Genetic.op_ast best) with
    | None => Raise
    | Some func =>
        Result (Some {| code := ast_to_code (Genetic.op_ast best);
                        function := func;
                        cost := ast_size (Genetic.op_ast best);
                        examples_satisfied := Z.to_nat (py_int (Genetic.fitness best));
                        generalizes :=
                          Qeq_bool (Genetic.fitness best)
                                   (inject_Z (Z.of_nat (List.length examples))) |})
    end
  else Result None.

(** [_genetic_synthesize]: the genetic engine after the call and the
    outcome.  The call raises when [run_evolution] raises, when there is no
    best individual (no generation was run on a fresh engine), and when the
    best tree does not compile. *)
Definition genetic_synthesize (ops : dict callable) (genetic : Genetic.GeneticEvolution)
    (examples : list IOExample) (generations : nat)
    : Rand (Genetic.GeneticEvolution * genetic_result) :=
  g0 <~ Genetic.initialize_population genetic 4 ;;
  run <~ Genetic.run_evolution g0 (fitness_function ops examples) generations ;;
  match snd run with
  | Genetic.Raised => rret (fst run, Raise)
  | Genetic.Completed =>
      match Genetic.best_ever (fst run) with
      | None => rret (fst run, Raise)
      | Some best => rret (fst run, to_program ops examples best)
      end
  end.

End Runtime.

(** ** Further notions used in the statements *)

(** Every operator and primitive name of the tree is a key of the table. *)
Fixpoint names_registered (ops : dict callable) (a : ast) : bool :=
  match a with
  | Primitive name => in_list name (keys ops)
  | Apply op children =>
      in_list op (keys ops) && forallb (names_registered ops) children
  | _ => true
  end.

(** The trees the enumeration can produce: no [Const] node, variables
    [0], [1] and [2], names of the table, and at every [Apply] node as many
    children as [_get_arity] of the synthesizer gives its operator. *)
Fixpoint enumerable (ops : dict callable) (a : ast) : bool :=
  match a with
  | Primitive name => in_list name (keys ops)
  | Var i => (i <? 3)%nat
  | Const _ => false
  | Apply op children =>
      in_list op (keys ops)
      && (List.length children =? Synth.get_arity op)%nat
      && forallb (enumerable ops) children
  end.

(** The program returns the output of the example on its inputs. *)
Definition satisfies (func : callable) (ex : IOExample) : Prop :=
  exists result, func (inputs ex) = Some result /\ py_eq result (output ex) = true.

(** The depth of a tree: a leaf has depth [0]. *)
Fixpoint depth (a : ast) : nat :=
  match a with
  | Apply _ children => S (fold_right Nat.max 0%nat (map depth children))
  | _ => 0%nat
  end.

(** The properties [success_rate] and [avg_time] of [SynthesisStrategy]. *)
Definition success_rate (s : Meta.SynthesisStrategy) : Q :=
  let total := (Meta.success_count s + Meta.failure_count s)%nat in
  if (0 <? total)%nat
  then inject_Z (Z.of_nat (Meta.success_count s)) / inject_Z (Z.of_nat total)
  else 0.

Definition avg_time (s : Meta.SynthesisStrategy) : Q :=
  let total := (Meta.success_count s + Meta.failure_count s)%nat in
  if (0 <? total)%nat
  then Meta.total_time s / inject_Z (Z.of_nat total)
  else 0.

(** The tournament cannot be held: it is larger than the population, or
    empty. *)
Definition selection_fails (self : Genetic.GeneticEvolution) : Prop :=
  (List.length (Genetic.population self) < Genetic.tournament_size self)%nat \/
  Genetic.tournament_size self = 0%nat.

(** The fitness recorded in [best_ever] is the value of the fitness function
    on its tree. *)
Definition best_ever_consistent (ff : ast -> option Q) (self : Genetic.GeneticEvolution) : Prop :=
  forall b, Genetic.best_ever self = Some b ->
    Genetic.fitness b = match ff (Genetic.op_ast b) with Some f => f | None => 0%Q end.

(** The engine is in a state in which every generation can be run. *)
Definition can_evolve (self : Genetic.GeneticEvolution) : Prop :=
  Genetic.population self <> [] /\
  ((Genetic.population_size self <= 1)%nat \/
   ((Genetic.tournament_size self <= List.length (Genetic.population self))%nat /\
    (1 <= Genetic.tournament_size self)%nat)).

(** The selector states a caller can reach from a new [MetaLearner] by
    [register_strategy] and [attempt_synthesis]. *)
Inductive reachable : Meta.MetaLearner -> Prop :=
| reach_init : reachable Meta.init
| reach_register : forall self n f,
    reachable self -> reachable (Meta.register_strategy self n f)
| reach_attempt : forall self problem_chars examples timeout elapsed r,
    reachable self ->
    reachable (fst (fst (Meta.attempt_synthesis self problem_chars examples
                           timeout elapsed r))).

(** Every success record of a signature names the strategy the signature is
    mapped to. *)
Definition single_strategy (self : Meta.MetaLearner) : Prop :=
  forall sig recs rec,
    lookup sig (Meta.success_patterns self) = Some recs ->
    In rec recs ->
    lookup sig (Meta.strategy_mapping self) = Some (Meta.s_strategy rec).

(** * Properties *)

(** ** The bounded fixed-point combinator *)

Section FixedPoint.

Variable V : Type.
Variable eqv : V -> V -> bool.
Variable f : V -> V.

(** The loop started with [n] iterations left, [c] calls made and current
    value [x]: it stops at the first iterate that [f] leaves unchanged, or
    after [n] calls. *)
Lemma fix_loop_total (n c : nat) (x : V) :
  (exists k, (k < n)%nat /\
             eqv (f (Nat.iter k f x)) (Nat.iter k f x) = true /\
             (forall j, (j < k)%nat ->
                        eqv (f (Nat.iter j f x)) (Nat.iter j f x) = false) /\
             fix_loop eqv (fun v => Some (f v)) n c x
             = (c + S k, Some (Nat.iter k f x))%nat)
  \/
  ((forall k, (k < n)%nat ->
              eqv (f (Nat.iter k f x)) (Nat.iter k f x) = false) /\
   fix_loop eqv (fun v => Some (f v)) n c x = (c + n, Some (Nat.iter n f x))%nat).
Proof.
  revert c x. induction n as [|n IH]; intros c x.
  - right. split; [intros k Hk; lia|]. simpl. now rewrite Nat.add_0_r.
  - cbn [fix_loop]. destruct (eqv (f x) x) eqn:E.
    + left. exists 0%nat. simpl. repeat split; try lia; auto.
      now rewrite Nat.add_1_r.
    + destruct (IH (S c) (f x)) as [(k & Hk & Hfix & Hbefore & Hrun) | (Hnone & Hrun)].
      * left. exists (S k). rewrite Hrun, !Nat.iter_succ_r.
        repeat split; try lia; auto.
        -- intros [|j] Hj; [exact E|]. rewrite Nat.iter_succ_r. apply Hbefore. lia.
        -- f_equal. lia.
      * right. rewrite Hrun, Nat.iter_succ_r. split.
        -- intros [|k] Hk; [exact E|]. rewrite Nat.iter_succ_r. apply Hnone. lia.
        -- f_equal. lia.
Qed.

End FixedPoint.

(** With a function that raises, the loop still makes at most [n] calls. *)
Lemma fix_loop_calls_bound (V : Type) (eqv : V -> V -> bool) (f : V -> option V)
    (n c : nat) (x : V) :
  (fst (fix_loop eqv f n c x) <= c + n)%nat.
Proof.
  revert c x. induction n as [|n IH]; intros c x; simpl; [lia|].
  destruct (f x) as [y|]; simpl; [|lia].
  destruct (eqv y x); simpl; [lia|].
  specialize (IH (S c) y). lia.
Qed.

(** The function object the primitive [fix] returns runs this loop with
    Python equality. *)
Lemma call_fix (f x : value) :
  call (VFixFn f) [x] = fixed_point py_eq (fun r => call f [r]) x.
Proof. reflexivity. Qed.

(** C9. For every function [f] and start value [x], [fix(f)(x)] calls [f] at
    most 100 times and always produces a result: the first iterate [y] with
    [f(y) == y] among the first 100 iterates, or else the value after the
    100th call. *)
Theorem fixed_point_bounded (V : Type) (eqv : V -> V -> bool) (f : V -> V) (x : V) :
  let run := fixed_point_run eqv (fun v => Some (f v)) x in
  (fst run <= 100)%nat /\
  ((exists k, (k < 100)%nat /\
              eqv (f (Nat.iter k f x)) (Nat.iter k f x) = true /\
              (forall j, (j < k)%nat ->
                         eqv (f (Nat.iter j f x)) (Nat.iter j f x) = false) /\
              fst run = S k /\
              fixed_point eqv (fun v => Some (f v)) x = Some (Nat.iter k f x))
   \/
   ((forall k, (k < 100)%nat ->
               eqv (f (Nat.iter k f x)) (Nat.iter k f x) = false) /\
    fst run = 100%nat /\
    fixed_point eqv (fun v => Some (f v)) x = Some (Nat.iter 100 f x))).
Proof.
  intros run. subst run. unfold fixed_point, fixed_point_run, max_iter.
  split.
  - apply (fix_loop_calls_bound V eqv (fun v => Some (f v)) 100 0 x).
  - destruct (fix_loop_total V eqv f 100 0 x)
      as [(k & Hk & Hfix & Hbefore & Hrun) | (Hnone & Hrun)].
    + left. exists k. rewrite Hrun. simpl. repeat split; auto.
    + right. rewrite Hrun. simpl. repeat split; auto.
Qed.

(** ** The enumerative synthesizer *)

(** *** The recursion of the enumeration never runs out of fuel *)

Lemma partitions_parts (k n : nat) (p : list nat) (s : nat) :
  (1 <= n)%nat -> In p (partitions n k) -> In s p -> (1 <= s <= n)%nat.
Proof.
  revert n p s. induction k as [|k IH]; intros n p s Hn Hp Hs; [contradiction|].
  cbn [partitions] in Hp. destruct k as [|k'].
  - destruct Hp as [<- | []]. destruct Hs as [<- | []]. lia.
  - apply in_flat_map in Hp. destruct Hp as (i & Hi & Hp).
    apply in_seq in Hi. apply in_map_iff in Hp. destruct Hp as (q & <- & Hq).
    destruct Hs as [<- | Hs]; [lia|].
    assert (1 <= s <= n - i)%nat by (apply (IH (n - i)%nat q s); auto; lia).
    lia.
Qed.

Lemma flat_map_ext_In {A B : Type} (g h : A -> list B) (l : list A) :
  (forall a, In a l -> g a = h a) -> flat_map g l = flat_map h l.
Proof.
  induction l as [|a l IH]; intros H; [reflexivity|].
  simpl. rewrite (H a) by now left. f_equal. apply IH. intros b Hb. apply H. now right.
Qed.

Lemma enumerate_fuel_enough (ops : dict callable) (fuel size : nat) :
  (1 <= size <= fuel)%nat ->
  enumerate_fuel ops fuel size = enumerate_fuel ops size size.
Proof.
  revert fuel. induction size as [size IH] using lt_wf_ind. intros fuel Hf.
  destruct fuel as [|fuel]; [lia|]. destruct size as [|size]; [lia|].
  cbn [enumerate_fuel]. destruct (S size =? 1)%nat eqn:E; [reflexivity|].
  apply Nat.eqb_neq in E.
  apply flat_map_ext. intros op_name. apply flat_map_ext_In. intros sizes Hin.
  f_equal. f_equal. apply map_ext_in. intros s Hs.
  assert (1 <= s <= S size - 1)%nat
    by (apply (partitions_parts (get_arity op_name) _ sizes); auto; lia).
  rewrite (IH s) by lia. symmetry. apply IH; lia.
Qed.

(** *** The train/test split *)

(** C3, as stated, fails: of two examples only the first one is a training
    example, while the ceiling of [4/3] is [2]. *)
Lemma split_not_ceiling :
  let e1 := {| inputs := [VInt 1]; output := VInt 2 |} in
  let e2 := {| inputs := [VInt 2]; output := VInt 3 |} in
  split_examples [e1; e2] = ([e1], [e2]) /\
  fst (split_examples [e1; e2]) <> firstn (ceil_two_thirds 2) [e1; e2].
Proof.
  split; [reflexivity|]. cbv. discriminate.
Qed.

(** C3, amended. For every example list of length [n], [synthesize] trains
    on the first [k] examples and holds the others out, where [k = n] when
    [n < 2] (nothing is held out) and otherwise [k] is the floor of [2n/3]. *)
Theorem split_floor (self : ProgramSynthesizer) (examples : list IOExample)
    (timeout_programs : Z) :
  let n := List.length examples in
  let k := split_point n in
  split_examples examples = (firstn k examples, skipn k examples) /\
  synthesize_trace self examples timeout_programs
  = synthesize_sizes (primitive_ops self) (firstn k examples) (skipn k examples)
      timeout_programs (seq 1 (Z.to_nat (max_program_size self))) /\
  firstn k examples ++ skipn k examples = examples /\
  List.length (firstn k examples) = k /\
  ((n < 2)%nat /\ k = n /\ skipn k examples = []
   \/ (2 <= n)%nat /\ (3 * k <= 2 * n < 3 * k + 3)%nat).
Proof.
  intros n k.
  assert (Hsplit : split_examples examples = (firstn k examples, skipn k examples)).
  { unfold split_examples, k, split_point. fold n.
    destruct (n <? 2)%nat eqn:E; [|reflexivity].
    unfold n. now rewrite firstn_all, skipn_all. }
  assert (Hk : (k <= n)%nat).
  { unfold k, split_point. destruct (n <? 2)%nat; [lia|].
    apply Nat.Div0.div_le_upper_bound. lia. }
  split; [exact Hsplit|]. split.
  { unfold synthesize_trace. now rewrite Hsplit. }
  split; [apply firstn_skipn|]. split.
  { apply firstn_length_le. exact Hk. }
  unfold k, split_point. destruct (n <? 2)%nat eqn:E.
  - left. apply Nat.ltb_lt in E. repeat split; auto. apply skipn_all.
  - right. apply Nat.ltb_ge in E. split; [exact E|].
    pose proof (Nat.div_mod_eq (n * 2) 3).
    pose proof (Nat.mod_upper_bound (n * 2) 3). lia.
Qed.

(** *** An empty example list *)

Lemma enumerate_size_one (ops : dict callable) :
  enumerate_programs ops 1 = map Primitive (keys ops) ++ [Var 0; Var 1; Var 2].
Proof. reflexivity. Qed.

Lemma first_candidate_compiles (ops : dict callable) :
  exists first rest func,
    enumerate_programs ops 1 = first :: rest /\
    compile_ast ops first = Some func.
Proof.
  rewrite enumerate_size_one. destruct ops as [|[k v] ops].
  - exists (Var 0), [Var 1; Var 2]. eexists. split; reflexivity.
  - exists (Primitive k). eexists. exists v. split; [reflexivity|].
    simpl. now rewrite String.eqb_refl.
Qed.

(** C10. With an empty example list, a positive budget and a positive
    maximal size, [synthesize] does not return [None]: it checks one
    candidate, the first tree of size 1, and returns it with
    [examples_satisfied = 0] and [generalizes = True]. *)
Theorem synthesize_no_examples (self : ProgramSynthesizer) (timeout_programs : Z) :
  1 <= max_program_size self ->
  1 <= timeout_programs ->
  exists first func,
    hd_error (enumerate_programs (primitive_ops self) 1) = Some first /\
    compile_ast (primitive_ops self) first = Some func /\
    programs_checked_by self [] timeout_programs = [first] /\
    synthesize self [] timeout_programs
    = Some {| code := ast_to_code first;
              function := func;
              cost := 1;
              examples_satisfied := 0;
              generalizes := true |}.
Proof.
  intros Hsize Hbudget.
  destruct (first_candidate_compiles (primitive_ops self))
    as (first & rest & func & Henum & Hcomp).
  exists first, func.
  assert (Hseq : seq 1 (Z.to_nat (max_program_size self))
                 = 1%nat :: seq 2 (Z.to_nat (max_program_size self) - 1)).
  { destruct (Z.to_nat (max_program_size self)) as [|m] eqn:E; [lia|].
    simpl. now rewrite Nat.sub_0_r. }
  assert (Hgo : (0 >=? timeout_programs) = false) by (rewrite Z.geb_leb; apply Z.leb_gt; lia).
  assert (Htrace : synthesize_trace self [] timeout_programs
                   = ([first],
                      Some {| code := ast_to_code first; function := func;
                              cost := 1; examples_satisfied := 0;
                              generalizes := true |})).
  { unfold synthesize_trace. cbn [split_examples List.length Nat.ltb Nat.leb].
    rewrite Hseq. cbn [synthesize_sizes]. rewrite Henum. cbn [scan_size Z.of_nat].
    rewrite Hgo. unfold check_candidate. rewrite Hcomp. reflexivity. }
  rewrite Henum. unfold programs_checked_by, synthesize. rewrite Htrace.
  repeat split; auto.
Qed.

(** A base synthesizer of maximal size 10 and the default budget. *)
Lemma synthesize_no_examples_witness :
  exists first func,
    hd_error (enumerate_programs (primitive_ops (Synth.init 10)) 1) = Some first /\
    compile_ast (primitive_ops (Synth.init 10)) first = Some func /\
    programs_checked_by (Synth.init 10) [] 10000 = [first] /\
    synthesize (Synth.init 10) [] 10000
    = Some {| code := ast_to_code first;
              function := func;
              cost := 1;
              examples_satisfied := 0;
              generalizes := true |}.
Proof.
  apply (synthesize_no_examples (Synth.init 10) 10000); simpl; lia.
Defined.

(** *** The candidate budget *)

Lemma first_some_app {A : Type} (l1 l2 : list (option A)) :
  first_some (l1 ++ l2)
  = match first_some l1 with Some x => Some x | None => first_some l2 end.
Proof.
  induction l1 as [|[x|] l1 IH]; simpl; auto.
Qed.

Lemma checked_prefix_app {A B : Type} (check : A -> option B) (l1 l2 : list A) :
  checked_prefix check (l1 ++ l2)
  = match first_some (map check l1) with
    | Some _ => checked_prefix check l1
    | None => checked_prefix check l1 ++ checked_prefix check l2
    end.
Proof.
  induction l1 as [|c l1 IH]; simpl; [reflexivity|].
  destruct (check c); [reflexivity|]. rewrite IH.
  destruct (first_some (map check l1)); reflexivity.
Qed.

Lemma checked_prefix_map {A B C : Type} (g : A -> B) (check : B -> option C)
    (l : list A) :
  checked_prefix check (map g l) = map g (checked_prefix (fun a => check (g a)) l).
Proof.
  induction l as [|a l IH]; simpl; [reflexivity|].
  destruct (check (g a)); simpl; [reflexivity|]. now rewrite IH.
Qed.

(** The candidate loop of one size checks the candidates among the first
    [timeout_programs - programs_checked] up to the first that passes. *)
Lemma scan_size_firstn (check : ast -> option SynthesizedProgram) (t : Z)
    (cands : list ast) (c : nat) :
  scan_size check t cands c
  = (checked_prefix check (firstn (Z.to_nat t - c) cands),
     first_some (map check (firstn (Z.to_nat t - c) cands))).
Proof.
  revert c. induction cands as [|a cands IH]; intros c.
  - simpl. now rewrite firstn_nil.
  - cbn [scan_size]. destruct (Z.of_nat c >=? t) eqn:E.
    + apply Z.geb_le in E. replace (Z.to_nat t - c)%nat with 0%nat by lia. reflexivity.
    + rewrite Z.geb_leb in E. apply Z.leb_gt in E.
      replace (Z.to_nat t - c)%nat with (S (Z.to_nat t - S c)) by lia.
      cbn [firstn map first_some checked_prefix].
      destruct (check a); [reflexivity|]. now rewrite IH.
Qed.

Lemma synthesize_sizes_per_size (ops : dict callable) (train test : list IOExample)
    (t : Z) (sizes : list nat) :
  synthesize_sizes ops train test t sizes
  = (map snd (checked_prefix (check_sized ops train test)
                             (candidates_in_budget ops t sizes)),
     first_some (map (check_sized ops train test)
                     (candidates_in_budget ops t sizes))).
Proof.
  induction sizes as [|size sizes IH]; [reflexivity|].
  cbn [synthesize_sizes candidates_in_budget flat_map].
  fold (candidates_in_budget ops t sizes).
  rewrite scan_size_firstn, Nat.sub_0_r, IH.
  rewrite checked_prefix_app, map_app, first_some_app, !map_map, checked_prefix_map.
  change (fun x : ast => check_sized ops train test (size, x))
    with (check_candidate ops train test size).
  destruct (first_some (map (check_candidate ops train test size)
                            (firstn (Z.to_nat t) (enumerate_programs ops size)))).
  - rewrite map_map. cbn [snd]. now rewrite map_id.
  - rewrite map_app, map_map. cbn [snd]. now rewrite map_id.
Qed.

(** C1, as stated, fails: with a budget of one candidate the base
    synthesizer of maximal size 2 checks a second candidate after the first
    one failed, and returns it instead of [None]. *)
Lemma budget_not_cumulative :
  let self := Synth.init 2 in
  let examples := [ {| inputs := [VInt 1; VInt 2]; output := VBool false |} ] in
  programs_checked_by self examples 1
  = [Primitive "add"; Apply "not" [Primitive "add"]] /\
  (1 < Z.of_nat (List.length (programs_checked_by self examples 1))) /\
  synthesize self examples 1 <> None /\
  option_map cost (synthesize self examples 1) = Some 2%nat.
Proof.
  vm_compute. repeat split; try reflexivity. discriminate.
Qed.

(** C1, amended. For every example list, [synthesize] counts the candidates
    of each size separately against the budget: the candidates it may check
    are, for each size from 1 to the maximal size in turn, the first
    [timeout_programs] trees of that size.  It checks them in this order up
    to the first one that passes, which it returns; it returns [None] when
    none of them passes. *)
Theorem budget_per_size (self : ProgramSynthesizer) (examples : list IOExample)
    (timeout_programs : Z) :
  let ops := primitive_ops self in
  let train := fst (split_examples examples) in
  let test := snd (split_examples examples) in
  let candidates :=
    candidates_in_budget ops timeout_programs
      (seq 1 (Z.to_nat (max_program_size self))) in
  synthesize self examples timeout_programs
  = first_some (map (check_sized ops train test) candidates) /\
  programs_checked_by self examples timeout_programs
  = map snd (checked_prefix (check_sized ops train test) candidates).
Proof.
  intros ops train test candidates.
  unfold synthesize, programs_checked_by, synthesize_trace.
  subst train test. destruct (split_examples examples) as [train test].
  cbn [fst snd]. fold ops. rewrite synthesize_sizes_per_size. split; reflexivity.
Qed.

(** *** Evaluation of [Apply] nodes *)

Lemma mapM_compile_run (ops : dict callable) (args : list value) (B : Type)
    (children : list ast) (k : list value -> option B) :
  (compiled_subs <- mapM (compile_ast ops) children ;;
   sub_results <- mapM (fun sub : callable => sub args) compiled_subs ;;
   k sub_results)
  = (sub_results <- mapM (fun c => run_ast ops c args) children ;; k sub_results).
Proof.
  revert k. induction children as [|c children IH]; intros k; [reflexivity|].
  cbn [mapM]. unfold run_ast at 1.
  destruct (compile_ast ops c) as [func|]; cbn [obind]; [|reflexivity].
  specialize (IH (fun rs => r <- func args ;; k (r :: rs))).
  destruct (mapM (compile_ast ops) children) as [subs|]; cbn [obind mapM] in *.
  - destruct (func args) as [r|]; cbn [obind] in *.
    + destruct (mapM (fun sub : callable => sub args) subs); cbn [obind] in *;
        rewrite IH;
        destruct (mapM (fun c0 => run_ast ops c0 args) children); reflexivity.
    + reflexivity.
  - destruct (func args) as [r|]; cbn [obind]; [|reflexivity].
    destruct (mapM (fun c0 => run_ast ops c0 args) children); cbn [obind] in *;
      [exact IH | reflexivity].
Qed.

(** Every [Apply] evaluates all its children, left to right, and then calls
    the operator on the results. *)
Lemma run_apply (ops : dict callable) (op : string) (children : list ast)
    (args : list value) :
  run_ast ops (Apply op children) args
  = (op_func <- lookup op ops ;;
     sub_results <- mapM (fun c => run_ast ops c args) children ;;
     op_func sub_results).
Proof.
  unfold run_ast at 1. cbn [compile_ast].
  destruct (lookup op ops) as [op_func|]; cbn [obind]; [|reflexivity].
  rewrite <- (mapM_compile_run ops args value children op_func).
  destruct (mapM (compile_ast ops) children); reflexivity.
Qed.

(** C4, as stated, fails: with the condition true and a second branch that
    raises ([5 < None]), the whole [if] raises, although the first branch
    evaluates to [5]; the branch that is not selected has been evaluated. *)
Lemma if_evaluates_both_branches :
  let ops := initialize_primitives in
  let args := [VBool true; VInt 5] in
  let else_branch := Apply "lt" [Var 1; Var 2] in
  run_ast ops (Var 0) args = Some (VBool true) /\
  run_ast ops (Var 1) args = Some (VInt 5) /\
  run_ast ops else_branch args = None /\
  run_ast ops (Apply "if" [Var 0; Var 1; else_branch]) args = None /\
  run_ast ops (Apply "if" [Var 0; Var 1; else_branch]) args <> Some (VInt 5).
Proof.
  vm_compute. repeat split; try reflexivity. discriminate.
Qed.

(** C4, amended. Every compiled [Apply], the one of [if] included, evaluates
    all of its children left to right before it calls the operator;
    [Apply('if', [cond, then, else])] evaluates the condition and both
    branches, and then selects one of the two branch values. *)
Theorem apply_evaluates_all_children (ops : dict callable) (op : string)
    (children : list ast) (cond then_branch else_branch : ast) (args : list value) :
  run_ast ops (Apply op children) args
  = (op_func <- lookup op ops ;;
     sub_results <- mapM (fun c => run_ast ops c args) children ;;
     op_func sub_results)
  /\
  run_ast initialize_primitives (Apply "if" [cond; then_branch; else_branch]) args
  = (c <- run_ast initialize_primitives cond args ;;
     then_val <- run_ast initialize_primitives then_branch args ;;
     else_val <- run_ast initialize_primitives else_branch args ;;
     Some (if truthy c then then_val else else_val)).
Proof.
  split; [apply run_apply|].
  rewrite run_apply. cbn [lookup initialize_primitives String.eqb Ascii.eqb Bool.eqb
                          obind mapM].
  destruct (run_ast initialize_primitives cond args); cbn [obind]; [|reflexivity].
  destruct (run_ast initialize_primitives then_branch args); cbn [obind]; [|reflexivity].
  destruct (run_ast initialize_primitives else_branch args); reflexivity.
Qed.

(** ** The genetic engine *)

Import Genetic.

Lemma rbind_run {A B : Type} (m : Rand A) (k : A -> Rand B) (r : rng) :
  rbind m k r = k (fst (m r)) (snd (m r)).
Proof. unfold rbind. now destruct (m r). Qed.

(** Induction on trees with the children of an [Apply] node covered. *)
Lemma ast_nested_ind (P : ast -> Prop) :
  (forall n, P (Primitive n)) ->
  (forall i, P (Var i)) ->
  (forall v, P (Const v)) ->
  (forall op children, Forall P children -> P (Apply op children)) ->
  forall a, P a.
Proof.
  intros HP HV HC HA. fix IH 1. intros [n|i|v|op children].
  - apply HP.
  - apply HV.
  - apply HC.
  - apply HA. induction children as [|c children IHc]; constructor.
    + apply IH.
    + exact IHc.
Qed.

(** *** The arity invariant *)

Lemma random_terminal_wf (r : rng) :
  well_formed (fst (random_terminal r)) = true.
Proof.
  unfold random_terminal. rewrite rbind_run.
  destruct (Qlt_bool _ _); rewrite rbind_run; reflexivity.
Qed.

(** Random initialization builds well-formed trees: every [Apply] node gets
    as many children as [_get_arity] says. *)
Lemma generate_random_ast_wf (max_depth : nat) (m : method) (r : rng) :
  well_formed (fst (generate_random_ast max_depth m r)) = true.
Proof.
  revert r. induction max_depth as [|d IH]; intros r.
  - apply random_terminal_wf.
  - cbn [generate_random_ast]. rewrite rbind_run.
    set (stop := fst (match m with
                      | Grow => x <~ random_random ;; rret (Qlt_bool x (3 # 10))
                      | Full => rret false
                      end r)).
    set (r0 := snd (match m with
                    | Grow => x <~ random_random ;; rret (Qlt_bool x (3 # 10))
                    | Full => rret false
                    end r)).
    clearbody stop r0. destruct stop.
    + apply random_terminal_wf.
    + rewrite rbind_run.
      set (primitive := fst (choice primitives "add" r0)).
      set (r1 := snd (choice primitives "add" r0)).
      clearbody primitive r1.
      rewrite rbind_run. cbn [rret fst well_formed].
      generalize (get_arity primitive) as n. intros n. revert r1.
      induction n as [|n IHn]; intros r1; [reflexivity|].
      rewrite rbind_run. rewrite rbind_run. cbn [rret fst List.length forallb].
      rewrite IH. cbn [andb].
      specialize (IHn (snd (generate_random_ast d m r1))).
      apply andb_true_iff in IHn. destruct IHn as [Hlen Hall].
      apply andb_true_iff. split; [|exact Hall].
      apply Nat.eqb_eq in Hlen. apply Nat.eqb_eq. simpl. now rewrite Hlen.
Qed.

Lemma initial_individuals_wf (size max_depth i n : nat) (r : rng) :
  Forall (fun op => well_formed (op_ast op) = true)
         (fst (initial_individuals size max_depth i n r)).
Proof.
  revert i r. induction n as [|n IH]; intros i r; [constructor|].
  cbn [initial_individuals]. rewrite !rbind_run. cbn [rret fst].
  constructor; [apply generate_random_ast_wf | apply IH].
Qed.

Lemma initialize_population_wf (self : GeneticEvolution) (max_depth : nat) (r : rng) :
  Forall (fun op => well_formed (op_ast op) = true)
         (population (fst (initialize_population self max_depth r))).
Proof.
  unfold initialize_population. rewrite rbind_run. cbn [rret fst set_population population].
  apply initial_individuals_wf.
Qed.

Lemma subtrees_wf (a : ast) :
  well_formed a = true ->
  Forall (fun s => well_formed s = true) (get_all_subtrees a).
Proof.
  induction a as [n|i|v|op children IH] using ast_nested_ind; intros Hwf;
    cbn [get_all_subtrees]; constructor; auto.
  cbn [well_formed] in Hwf. apply andb_true_iff in Hwf. destruct Hwf as [_ Hall].
  induction IH as [|c children Hc _ IHrest]; [constructor|].
  cbn [forallb] in Hall. apply andb_true_iff in Hall. destruct Hall as [Hwc Hrest].
  cbn [flat_map]. apply Forall_app. split; auto.
Qed.

Lemma replace_in_ast_wf (target new_subtree node : ast) :
  well_formed new_subtree = true ->
  well_formed node = true ->
  well_formed (replace_in_ast target new_subtree node) = true.
Proof.
  intros Hnew.
  induction node as [n|i|v|op children IH] using ast_nested_ind; intros Hwf;
    cbn [replace_in_ast]; destruct (ast_eq _ target); auto.
  cbn [well_formed] in *. apply andb_true_iff in Hwf. destruct Hwf as [Hlen Hall].
  apply andb_true_iff. split; [now rewrite length_map|].
  rewrite forallb_forall in *. intros c Hc.
  apply in_map_iff in Hc. destruct Hc as (c0 & <- & Hc0).
  rewrite Forall_forall in IH. apply IH; auto.
Qed.

Lemma replace_subtree_wf (a : ast) (index : nat) (new_subtree : ast) :
  well_formed new_subtree = true ->
  well_formed a = true ->
  well_formed (replace_subtree a index new_subtree) = true.
Proof.
  intros Hnew Hwf. unfold replace_subtree.
  destruct (nth_error _ index); [apply replace_in_ast_wf|]; auto.
Qed.

Lemma nth_subtree_wf (a : ast) (i : nat) :
  well_formed a = true ->
  well_formed (nth i (get_all_subtrees a) a) = true.
Proof.
  intros Hwf. pose proof (subtrees_wf a Hwf) as Hall. rewrite Forall_forall in Hall.
  destruct (nth_in_or_default i (get_all_subtrees a) a) as [Hin | ->]; auto.
Qed.

(** Crossover keeps both children well-formed. *)
Lemma crossover_wf (self : GeneticEvolution) (parent1 parent2 : GeneticOperator)
    (r : rng) :
  well_formed (op_ast parent1) = true ->
  well_formed (op_ast parent2) = true ->
  well_formed (op_ast (fst (fst (crossover self parent1 parent2 r)))) = true /\
  well_formed (op_ast (snd (fst (crossover self parent1 parent2 r)))) = true.
Proof.
  intros H1 H2. unfold crossover. rewrite rbind_run.
  destruct (Qlt_bool _ _); [split; assumption|].
  destruct (get_all_subtrees (op_ast parent1)) eqn:E1; [split; assumption|].
  destruct (get_all_subtrees (op_ast parent2)) eqn:E2; [split; assumption|].
  rewrite <- E1, <- E2, !rbind_run. cbn [rret fst snd new_operator op_ast].
  split; apply replace_subtree_wf; auto using nth_subtree_wf.
Qed.

(** Subtree mutation and hoist mutation keep a tree well-formed. *)
Lemma mutate_ast_wf (kind : mutation_type) (a : ast) (r : rng) :
  kind <> Point ->
  well_formed a = true ->
  well_formed (fst (mutate_ast kind a r)) = true.
Proof.
  intros Hkind Hwf. destruct kind; [contradiction| |]; unfold mutate_ast.
  - destruct (get_all_subtrees a) eqn:E; [exact Hwf|].
    rewrite !rbind_run. cbn [rret fst].
    apply replace_subtree_wf; auto using generate_random_ast_wf.
  - destruct (1 <? _)%nat; [|exact Hwf].
    unfold choice. rewrite rbind_run. cbn [rret fst].
    pose proof (subtrees_wf a Hwf) as Hall. rewrite Forall_forall in Hall.
    destruct (nth_in_or_default (fst (choice_index (List.length (tl (get_all_subtrees a))) r))
                (tl (get_all_subtrees a)) a) as [Hin | ->]; auto.
    apply Hall. destruct (get_all_subtrees a); [contradiction|]. now right.
Qed.

(** Point mutation keeps the children of an [Apply] node and draws the new
    operator among all primitives: the tree stays well-formed exactly when
    the operator drawn has the arity of the old one. *)
Lemma point_mutation_apply (op : string) (children : list ast) (r : rng) :
  well_formed (Apply op children) = true ->
  let new_primitive := fst (choice primitives "add" r) in
  fst (point_mutation (Apply op children) r) = Apply new_primitive children /\
  well_formed (fst (point_mutation (Apply op children) r))
  = (get_arity op =? get_arity new_primitive)%nat.
Proof.
  intros Hwf new_primitive. cbn [point_mutation]. rewrite rbind_run.
  cbn [rret fst]. split; [reflexivity|].
  cbn [well_formed] in *. apply andb_true_iff in Hwf. destruct Hwf as [Hlen Hall].
  rewrite Hall, andb_true_r. apply Nat.eqb_eq in Hlen. now rewrite Hlen.
Qed.

(** C2, the failing case. A point mutation of the well-formed tree
    [add(var 0, var 1)] that draws the operator [not] yields
    [not(var 0, var 1)]: two children under an operator of arity 1. *)
Theorem point_mutation_breaks_arity :
  let self := Genetic.init 4 (1 # 10) (7 # 10) 2 in
  let parent := new_operator (Apply "add" [Var 0; Var 1]) 0 in
  let mutated := fst (mutate self parent (rng_of_list [0; 0; 6]%N)) in
  well_formed (op_ast parent) = true /\
  op_ast mutated = Apply "not" [Var 0; Var 1] /\
  get_arity "not" = 1%nat /\
  well_formed (op_ast mutated) = false.
Proof.
  vm_compute. repeat split; reflexivity.
Qed.

(** *** Crossover and structurally equal subtrees *)

(** C5, the failing case. The first parent is [add(var 0, var 0)] and the
    chosen index is 2, its second child; crossover with the tree [1] (index
    0) replaces the first child as well, which sits at index 1. *)
Theorem crossover_replaces_equal_subtrees :
  let self := Genetic.init 4 (1 # 10) (7 # 10) 2 in
  let parent1 := new_operator (Apply "add" [Var 0; Var 0]) 0 in
  let parent2 := new_operator (Const (VInt 1)) 0 in
  let r := rng_of_list [0; 2; 0]%N in
  let child1 := fst (fst (crossover self parent1 parent2 r)) in
  fst (choice_index 3 (snd (random_random r))) = 2%nat /\
  get_all_subtrees (op_ast parent1) = [Apply "add" [Var 0; Var 0]; Var 0; Var 0] /\
  op_ast child1 = Apply "add" [Const (VInt 1); Const (VInt 1)] /\
  nth_error (get_all_subtrees (op_ast child1)) 1
  <> nth_error (get_all_subtrees (op_ast parent1)) 1.
Proof.
  vm_compute. repeat split; try reflexivity. discriminate.
Qed.

(** *** The best individual ever seen *)

Lemma Qlt_bool_iff (a b : Q) : Qlt_bool a b = true <-> (a < b)%Q.
Proof.
  unfold Qlt_bool. rewrite negb_true_iff. split; intros H.
  - apply Qnot_le_lt. intros Hle. apply Qle_bool_iff in Hle. congruence.
  - destruct (Qle_bool b a) eqn:E; [|reflexivity].
    apply Qle_bool_iff in E. exfalso. now apply (Qlt_not_le a b).
Qed.

Lemma fold_max_In (rest : list GeneticOperator) (first : GeneticOperator) :
  In (fold_left
        (fun best op => if Qlt_bool (fitness best) (fitness op) then op else best)
        rest first)
     (first :: rest).
Proof.
  revert first. induction rest as [|op rest IH]; intros first; [now left|].
  cbn [fold_left]. destruct (Qlt_bool (fitness first) (fitness op)).
  - right. apply IH.
  - destruct (IH first) as [H | H]; [left | right; right]; exact H.
Qed.

Lemma max_by_fitness_In (ops : list GeneticOperator) (best : GeneticOperator) :
  max_by_fitness ops = Some best -> In best ops.
Proof.
  destruct ops as [|first rest]; [discriminate|].
  intros [= <-]. apply fold_max_In.
Qed.

(** [evaluate_fitness] keeps [best_ever] unless the best individual of the
    population just evaluated is strictly fitter. *)
Lemma evaluate_fitness_best_ever (self self1 : GeneticEvolution)
    (fitness_function : ast -> option Q) :
  evaluate_fitness self fitness_function = Some self1 ->
  exists b', best_ever self1 = Some b' /\
    match best_ever self with
    | None => In b' (population self1)
    | Some b => b' = b \/ ((fitness b < fitness b')%Q /\ In b' (population self1))
    end.
Proof.
  unfold evaluate_fitness.
  destruct (max_by_fitness _) as [best_current|] eqn:Emax; [|discriminate].
  intros [= <-]. cbn [best_ever population].
  apply max_by_fitness_In in Emax.
  destruct (best_ever self) as [b|].
  - destruct (Qlt_bool (fitness b) (fitness best_current)) eqn:E.
    + exists best_current. split; [reflexivity|]. right.
      split; [now apply Qlt_bool_iff | exact Emax].
    + exists b. split; [reflexivity | now left].
  - exists best_current. split; [reflexivity | exact Emax].
Qed.

(** A call of [evolve_generation] touches [best_ever] only through
    [evaluate_fitness]. *)
Lemma evolve_generation_best_ever (self : GeneticEvolution)
    (fitness_function : ast -> option Q) (r : rng) :
  let self' := fst (fst (evolve_generation self fitness_function r)) in
  (evaluate_fitness self fitness_function = None /\ self' = self) \/
  (exists self1, evaluate_fitness self fitness_function = Some self1 /\
                 best_ever self' = best_ever self1).
Proof.
  unfold evolve_generation.
  destruct (evaluate_fitness self fitness_function) as [self1|]; [right | left; auto].
  exists self1. split; [reflexivity|].
  destruct (max_by_fitness (population self1)); [|reflexivity].
  rewrite rbind_run. destruct (fst (fill _ _ _ _)); reflexivity.
Qed.

(** C6. Across any sequence of [evolve_generation] calls the fitness of
    [best_ever] never decreases: once [best_ever] is set it stays set, it is
    either the same individual or one of strictly higher fitness, and a
    replacement is an individual of the population evaluated by one of the
    calls. *)
Theorem best_ever_monotone (self self' : GeneticEvolution) (b : GeneticOperator) :
  evolves self self' ->
  best_ever self = Some b ->
  exists b', best_ever self' = Some b' /\
    (fitness b <= fitness b')%Q /\
    (b' = b \/
     ((fitness b < fitness b')%Q /\
      exists s1 fitness_function s2,
        evolves self s1 /\
        evaluate_fitness s1 fitness_function = Some s2 /\
        In b' (population s2))).
Proof.
  intros Hev. revert b.
  induction Hev as [self | self ff r self' o self'' Hstep Hev IH]; intros b Hb.
  - exists b. repeat split; auto. apply Qle_refl.
  - assert (Hfst : fst (fst (evolve_generation self ff r)) = self')
      by now rewrite Hstep.
    assert (Hlift : forall s1, evolves self' s1 -> evolves self s1)
      by (intros s1 H1; exact (evolves_step self ff r self' o s1 Hstep H1)).
    pose proof (evolve_generation_best_ever self ff r) as Hcall.
    cbv zeta in Hcall. rewrite Hfst in Hcall.
    destruct Hcall as [[Hnone Hsame] | (self1 & Heval & Hbest)].
    + rewrite Hsame in IH, Hlift. exact (IH b Hb).
    + destruct (evaluate_fitness_best_ever self self1 ff Heval) as (b1 & Hb1 & Hcase).
      rewrite Hb in Hcase. rewrite <- Hbest in Hb1.
      destruct (IH b1 Hb1) as (b2 & Hb2 & Hle & Hrepl).
      exists b2. split; [exact Hb2|].
      destruct Hcase as [-> | [Hlt Hin]].
      * split; [exact Hle|].
        destruct Hrepl as [-> | (Hlt2 & s1 & f1 & s2 & Hs1 & He & Hin2)]; [now left|].
        right. split; [exact Hlt2|]. exists s1, f1, s2. auto.
      * split; [apply Qle_trans with (fitness b1); auto using Qlt_le_weak|].
        right. destruct Hrepl as [-> | (Hlt2 & s1 & f1 & s2 & Hs1 & He & Hin2)].
        -- split; [exact Hlt|]. exists self, ff, self1.
           repeat split; auto using evolves_refl.
        -- split; [apply Qlt_trans with (fitness b1); assumption|].
           exists s1, f1, s2. auto.
Qed.

(** An engine whose best individual so far has fitness 1, evolved for one
    generation with a fitness function that gives [var i] the fitness [i]:
    the individual [var 2] of the population takes over. *)
Lemma best_ever_monotone_witness :
  let b := set_fitness (new_operator (Var 1) 0) 1 in
  let self :=
    {| population_size := 1; mutation_rate := 1 # 10; crossover_rate := 7 # 10;
       tournament_size := 2;
       population := [new_operator (Var 0) 0; new_operator (Var 2) 0];
       generation := 1; best_ever := Some b; fitness_history := [] |} in
  let fitness_function := fun a : ast =>
    match a with
    | Var i => Some (inject_Z (Z.of_nat i))
    | _ => Some 0%Q
    end in
  let self' := fst (fst (evolve_generation self fitness_function (rng_of_list []))) in
  evolves self self' /\
  best_ever self = Some b /\
  exists b', best_ever self' = Some b' /\
    (fitness b <= fitness b')%Q /\
    (b' = b \/
     ((fitness b < fitness b')%Q /\
      exists s1 ff s2,
        evolves self s1 /\
        evaluate_fitness s1 ff = Some s2 /\
        In b' (population s2))).
Proof.
  intros b self fitness_function self'.
  assert (Hev : evolves self self').
  { apply (evolves_step self fitness_function (rng_of_list []) self'
             (snd (fst (evolve_generation self fitness_function (rng_of_list []))))).
    - reflexivity.
    - apply evolves_refl. }
  split; [exact Hev|]. split; [reflexivity|].
  apply (best_ever_monotone self self' b Hev). reflexivity.
Defined.

(** ** The meta-strategy selector *)

Import Meta.

Lemma lookup_dict_set_same {A : Type} (k : string) (v : A) (d : dict A) :
  lookup k (dict_set k v d) = Some v.
Proof.
  induction d as [|[k' v'] d IH]; cbn [dict_set lookup].
  - now rewrite String.eqb_refl.
  - destruct (String.eqb k k') eqn:E; cbn [lookup].
    + now rewrite String.eqb_refl.
    + now rewrite E.
Qed.

Lemma lookup_dict_set_other {A : Type} (k k0 : string) (v : A) (d : dict A) :
  k0 <> k -> lookup k0 (dict_set k v d) = lookup k0 d.
Proof.
  intros Hne. induction d as [|[k' v'] d IH]; cbn [dict_set lookup].
  - destruct (String.eqb k0 k) eqn:E; [|reflexivity].
    apply String.eqb_eq in E. contradiction.
  - destruct (String.eqb k k') eqn:E; cbn [lookup].
    + apply String.eqb_eq in E. subst k'.
      destruct (String.eqb k0 k) eqn:E0; [|reflexivity].
      apply String.eqb_eq in E0. contradiction.
    + now rewrite IH.
Qed.

(** *** A failed attempt *)

(** C8. Whenever the strategy chosen by [attempt_synthesis] returns [None]
    or raises, the call returns [None]; the strategy's [failure_count] has
    grown by one and its [total_time] by the elapsed time, its other fields
    and the other strategies are as before, one failure entry has been
    appended to the history, and the signature-to-strategy mapping and the
    success records are unchanged. *)
Theorem failed_attempt (self : MetaLearner) (problem_chars : ProblemCharacteristics)
    (examples : list IOExample) (timeout elapsed : Q) (r : rng)
    (strategy_name : string) (strategy : SynthesisStrategy) :
  fst (select_strategy self problem_chars r) = Some strategy_name ->
  lookup strategy_name (strategies self) = Some strategy ->
  (synthesize_func strategy examples timeout = Returns None \/
   exists e, synthesize_func strategy examples timeout = Raises e) ->
  let call := fst (attempt_synthesis self problem_chars examples timeout elapsed r) in
  let self' := fst call in
  snd call = Returned None /\
  lookup strategy_name (strategies self')
  = Some {| name := name strategy;
            synthesize_func := synthesize_func strategy;
            success_count := success_count strategy;
            failure_count := failure_count strategy + 1;
            total_time := total_time strategy + elapsed;
            avg_program_size := avg_program_size strategy |} /\
  (forall other, other <> strategy_name ->
                 lookup other (strategies self') = lookup other (strategies self)) /\
  strategy_mapping self' = strategy_mapping self /\
  success_patterns self' = success_patterns self /\
  exists entry,
    problem_history self' = problem_history self ++ [entry] /\
    p_strategy entry = strategy_name /\
    p_success entry = false /\
    p_time entry = elapsed.
Proof.
  intros Hsel Hlook Hfail call self'. subst self' call.
  unfold attempt_synthesis. rewrite rbind_run, Hsel, Hlook.
  assert (Hrec : forall error,
    let self' := record_failure self problem_chars strategy_name strategy elapsed error in
    lookup strategy_name (strategies self')
    = Some {| name := name strategy;
              synthesize_func := synthesize_func strategy;
              success_count := success_count strategy;
              failure_count := failure_count strategy + 1;
              total_time := total_time strategy + elapsed;
              avg_program_size := avg_program_size strategy |} /\
    (forall other, other <> strategy_name ->
                   lookup other (strategies self') = lookup other (strategies self)) /\
    strategy_mapping self' = strategy_mapping self /\
    success_patterns self' = success_patterns self /\
    exists entry,
      problem_history self' = problem_history self ++ [entry] /\
      p_strategy entry = strategy_name /\
      p_success entry = false /\
      p_time entry = elapsed).
  { intros error. cbn. split; [apply lookup_dict_set_same|].
    split; [intros other Hne; now apply lookup_dict_set_other|].
    split; [reflexivity|]. split; [reflexivity|].
    eexists. split; [reflexivity|]. cbn. auto. }
  destruct Hfail as [Hnone | [e Hraise]].
  - rewrite Hnone. cbn [rret fst snd]. split; [reflexivity | apply Hrec].
  - rewrite Hraise. cbn [rret fst snd]. split; [reflexivity | apply Hrec].
Qed.

(** A selector with one strategy, [enumerative], that finds nothing. *)
Lemma failed_attempt_witness :
  let strategy_fn : synthesize_func_type := fun _ _ => Returns None in
  let self := register_strategy Meta.init "enumerative" strategy_fn in
  let problem_chars :=
    {| num_examples := 1; input_types := ["int"]; output_type := "int";
       example_complexity := 1 |} in
  let call := fst (attempt_synthesis self problem_chars [] 5 (1 # 2) (rng_of_list [])) in
  snd call = Returned None /\
  option_map failure_count (lookup "enumerative" (strategies (fst call))) = Some 1%nat /\
  strategy_mapping (fst call) = strategy_mapping self /\
  success_patterns (fst call) = success_patterns self.
Proof.
  intros strategy_fn self problem_chars call.
  destruct (failed_attempt self problem_chars [] 5 (1 # 2) (rng_of_list [])
              "enumerative"
              {| name := "enumerative"; synthesize_func := strategy_fn;
                 success_count := 0; failure_count := 0; total_time := 0;
                 avg_program_size := 0 |})
    as (Hret & Hstrategy & _ & Hmap & Hpat & _).
  - reflexivity.
  - reflexivity.
  - left. reflexivity.
  - fold call in Hret, Hstrategy, Hmap, Hpat.
    split; [exact Hret|]. split; [|split; assumption].
    rewrite Hstrategy. reflexivity.
Defined.

(** *** The mapping after a success *)

(** [min] with a key returns the first element of minimal key: the elements
    before it have a strictly larger key, those after it a key at least as
    large. *)
Lemma fold_min_first {A : Type} (key : A -> Q) (rest : list A) (first : A) :
  let m := fold_left
             (fun best item => if Qlt_bool (key item) (key best) then item else best)
             rest first in
  exists before after,
    first :: rest = before ++ m :: after /\
    (forall x, In x before -> (key m < key x)%Q) /\
    (forall x, In x after -> (key m <= key x)%Q).
Proof.
  revert first. induction rest as [|x rest IH]; intros first.
  - exists [], []. cbn. repeat split; intros y [].
  - cbn [fold_left]. destruct (Qlt_bool (key x) (key first)) eqn:E.
    + apply Qlt_bool_iff in E.
      destruct (IH x) as (before & after & Heq & Hbefore & Hafter).
      cbv zeta.
      set (m := fold_left _ rest x) in *. clearbody m.
      exists (first :: before), after. rewrite Heq. split; [reflexivity|].
      split; [|exact Hafter].
      intros y [<- | Hy]; [|now apply Hbefore].
      destruct before as [|b before].
      * injection Heq as Hx _. rewrite <- Hx. exact E.
      * injection Heq as <- _.
        apply Qlt_trans with (key x); [apply Hbefore; now left | exact E].
    + assert (Hle : (key first <= key x)%Q).
      { apply Qnot_lt_le. intros Hlt. apply Qlt_bool_iff in Hlt. congruence. }
      destruct (IH first) as (before & after & Heq & Hbefore & Hafter).
      cbv zeta.
      set (m := fold_left _ rest first) in *. clearbody m.
      destruct before as [|b before].
      * injection Heq as Hm Hrest. exists [], (x :: after).
        subst m rest. split; [reflexivity|].
        split; [intros y []|].
        intros y [<- | Hy]; [exact Hle|]. now apply Hafter.
      * injection Heq as <- Hrest. exists (first :: x :: before), after.
        subst rest. split; [reflexivity|]. split; [|exact Hafter].
        intros y [<- | [<- | Hy]].
        -- apply Hbefore. now left.
        -- apply Qlt_le_trans with (key first); [apply Hbefore; now left | exact Hle].
        -- apply Hbefore. now right.
Qed.

Lemma in_list_In (x : string) (l : list string) : in_list x l = true <-> In x l.
Proof.
  unfold in_list. rewrite existsb_exists. split.
  - intros (y & Hy & E). apply String.eqb_eq in E. now subst.
  - intros H. exists x. split; [exact H | apply String.eqb_refl].
Qed.

Lemma first_occurrences_seen (seen1 seen2 l : list string) :
  (forall x, In x seen1 <-> In x seen2) ->
  first_occurrences seen1 l = first_occurrences seen2 l.
Proof.
  revert seen1 seen2. induction l as [|x l IH]; intros seen1 seen2 H; [reflexivity|].
  cbn [first_occurrences].
  assert (E : in_list x seen1 = in_list x seen2).
  { destruct (in_list x seen1) eqn:E1, (in_list x seen2) eqn:E2; auto.
    - apply in_list_In, H, in_list_In in E1. congruence.
    - apply in_list_In, H, in_list_In in E2. congruence. }
  rewrite E. destruct (in_list x seen2).
  - now apply IH.
  - f_equal. apply IH. intros y. cbn. now rewrite H.
Qed.

Lemma first_occurrences_fresh (seen l : list string) (x : string) :
  In x (first_occurrences seen l) -> ~ In x seen.
Proof.
  revert seen. induction l as [|y l IH]; intros seen; [intros []|].
  cbn [first_occurrences]. destruct (in_list y seen) eqn:E.
  - apply IH.
  - intros [<- | H].
    + intros Hin. apply in_list_In in Hin. congruence.
    + intros Hin. apply (IH _ H). now right.
Qed.

Lemma times_of_cons (s : string) (rec : SuccessRecord) (recs : list SuccessRecord) :
  times_of s (rec :: recs)
  = if String.eqb (s_strategy rec) s then s_time rec :: times_of s recs
    else times_of s recs.
Proof.
  unfold times_of. cbn [filter]. now destruct (String.eqb (s_strategy rec) s).
Qed.

Lemma lookup_None_keys {A : Type} (k : string) (d : dict A) :
  lookup k d = None <-> ~ In k (keys d).
Proof.
  induction d as [|[k' v] d IH]; cbn [lookup keys map fst].
  - split; auto.
  - destruct (String.eqb k k') eqn:E.
    + apply String.eqb_eq in E. subst. split; [discriminate|]. intros H. exfalso. apply H. now left.
    + apply String.eqb_neq in E. rewrite IH. unfold keys. split.
      * intros H [Heq | Hin]; [congruence | contradiction].
      * intros H Hin. apply H. now right.
Qed.

Lemma dict_set_fresh {A : Type} (k : string) (v : A) (d : dict A) :
  ~ In k (keys d) -> dict_set k v d = d ++ [(k, v)].
Proof.
  induction d as [|[k' v'] d IH]; intros H; [reflexivity|].
  cbn [dict_set]. destruct (String.eqb k k') eqn:E.
  - apply String.eqb_eq in E. subst. exfalso. apply H. now left.
  - cbn. f_equal. apply IH. intros Hin. apply H. now right.
Qed.

(** Updating the entry of a key that is present, in a dictionary without
    duplicate keys. *)
Lemma map_dict_set_present (k : string) (l : list Q) (t : Q) (d : dict (list Q))
    (g h : string -> list Q -> list Q) :
  NoDup (keys d) ->
  lookup k d = Some l ->
  g k (l ++ [t]) = h k l ->
  (forall s l', s <> k -> g s l' = h s l') ->
  map (fun e => (fst e, g (fst e) (snd e))) (dict_set k (l ++ [t]) d)
  = map (fun e => (fst e, h (fst e) (snd e))) d /\
  keys (dict_set k (l ++ [t]) d) = keys d.
Proof.
  intros Hnd Hlook Hk Hother. induction d as [|[k' v'] d IH]; [discriminate|].
  cbn [lookup] in Hlook. cbn [dict_set]. cbn [keys map fst] in Hnd.
  apply NoDup_cons_iff in Hnd. destruct Hnd as [Hfresh Hnd].
  destruct (String.eqb k k') eqn:E.
  - apply String.eqb_eq in E. subst k'. injection Hlook as ->.
    cbn [map fst snd keys]. rewrite Hk. split; [|reflexivity]. f_equal.
    apply map_ext_in. intros [s l'] Hin. cbn [fst snd].
    rewrite Hother; [reflexivity|]. intros ->. apply Hfresh.
    apply in_map_iff. exists (k, l'). auto.
  - apply String.eqb_neq in E. destruct (IH Hnd Hlook) as [IH1 IH2].
    cbn [map fst snd keys]. fold (keys (dict_set k (l ++ [t]) d)).
    rewrite IH1, IH2, Hother by congruence. split; reflexivity.
Qed.

Lemma NoDup_snoc {A : Type} (l : list A) (x : A) :
  NoDup l -> ~ In x l -> NoDup (l ++ [x]).
Proof.
  induction l as [|y l IH]; intros Hnd Hx; cbn.
  - constructor; [intros [] | constructor].
  - apply NoDup_cons_iff in Hnd. destruct Hnd as [Hy Hnd]. constructor.
    + rewrite in_app_iff. intros [H | [H | []]]; [contradiction|].
      apply Hx. now left.
    + apply IH; [exact Hnd|]. intros H. apply Hx. now right.
Qed.

(** The dictionary [strategy_times]: the strategies in the order of their
    first record, each with its recorded times. *)
Lemma group_times_acc (successes : list SuccessRecord) (acc : dict (list Q)) :
  NoDup (keys acc) ->
  group_times successes acc
  = map (fun e => (fst e, snd e ++ times_of (fst e) successes)) acc
    ++ map (fun s => (s, times_of s successes))
           (first_occurrences (keys acc) (map s_strategy successes)).
Proof.
  revert acc. induction successes as [|rec rest IH]; intros acc Hnd.
  - cbn [group_times map first_occurrences]. rewrite app_nil_r.
    rewrite <- (map_id acc) at 1. apply map_ext. intros [s l]. cbn.
    unfold times_of. cbn. now rewrite app_nil_r.
  - cbn [group_times map first_occurrences].
    destruct (lookup (s_strategy rec) acc) as [l|] eqn:Hlook.
    + assert (Hin : In (s_strategy rec) (keys acc)).
      { destruct (in_dec string_dec (s_strategy rec) (keys acc)) as [H|H]; [exact H|].
        apply lookup_None_keys in H. congruence. }
      destruct (map_dict_set_present (s_strategy rec) l (s_time rec) acc
                  (fun s l' => l' ++ times_of s rest)
                  (fun s l' => l' ++ times_of s (rec :: rest)) Hnd Hlook)
        as [Hmap Hkeys].
      { rewrite times_of_cons, String.eqb_refl, <- app_assoc. reflexivity. }
      { intros s l' Hne. rewrite times_of_cons.
        destruct (String.eqb (s_strategy rec) s) eqn:E; [|reflexivity].
        apply String.eqb_eq in E. congruence. }
      rewrite IH by (rewrite Hkeys; exact Hnd). rewrite Hmap, Hkeys.
      apply in_list_In in Hin. rewrite Hin. f_equal.
      apply map_ext_in. intros s Hs. f_equal. rewrite times_of_cons.
      destruct (String.eqb (s_strategy rec) s) eqn:E; [|reflexivity].
      apply String.eqb_eq in E. subst s.
      apply first_occurrences_fresh in Hs. apply in_list_In in Hin. contradiction.
    + assert (Hfresh : ~ In (s_strategy rec) (keys acc)) by now apply lookup_None_keys.
      rewrite dict_set_fresh by exact Hfresh.
      assert (Hnd' : NoDup (keys (acc ++ [(s_strategy rec, [s_time rec])]))).
      { unfold keys. rewrite map_app. cbn [map fst]. now apply NoDup_snoc. }
      rewrite IH by exact Hnd'.
      destruct (in_list (s_strategy rec) (keys acc)) eqn:E;
        [apply in_list_In in E; contradiction|].
      rewrite map_app. cbn [map fst snd]. rewrite <- app_assoc. cbn [app].
      f_equal.
      * apply map_ext_in. intros [s l'] Hin. cbn [fst snd]. rewrite times_of_cons.
        destruct (String.eqb (s_strategy rec) s) eqn:E'; [|reflexivity].
        apply String.eqb_eq in E'. subst s. exfalso. apply Hfresh.
        apply in_map_iff. exists (s_strategy rec, l'). auto.
      * rewrite times_of_cons, String.eqb_refl. cbn [app]. f_equal.
        rewrite (first_occurrences_seen (keys (acc ++ [(s_strategy rec, [s_time rec])]))
                   (s_strategy rec :: keys acc)).
        -- apply map_ext_in. intros s Hs. f_equal. rewrite times_of_cons.
           destruct (String.eqb (s_strategy rec) s) eqn:E'; [|reflexivity].
           apply String.eqb_eq in E'. subst s.
           apply first_occurrences_fresh in Hs. exfalso. apply Hs. now left.
        -- intros x. unfold keys. rewrite map_app, in_app_iff. cbn. tauto.
Qed.

Lemma group_times_succeeded (successes : list SuccessRecord) :
  group_times successes []
  = map (fun s => (s, times_of s successes)) (succeeded successes).
Proof.
  rewrite group_times_acc by constructor. reflexivity.
Qed.

Lemma succeeded_nonempty (old : list SuccessRecord) (rec : SuccessRecord) :
  exists s rest, succeeded (old ++ [rec]) = s :: rest.
Proof.
  unfold succeeded. destruct (old ++ [rec]) as [|x l] eqn:E.
  - destruct old; discriminate.
  - cbn. eauto.
Qed.

(** The strategy [_update_strategy_mapping] picks from the records of a
    signature. *)
Lemma min_by_mean_group (successes : list SuccessRecord) (s0 : string)
    (rest : list string) :
  succeeded successes = s0 :: rest ->
  exists best before after,
    min_by_mean (group_times successes []) = Some (best, times_of best successes) /\
    succeeded successes = before ++ best :: after /\
    (forall s, In s before -> (mean_time best successes < mean_time s successes)%Q) /\
    (forall s, In s after -> (mean_time best successes <= mean_time s successes)%Q).
Proof.
  intros Hne. rewrite group_times_succeeded, Hne. cbn [map min_by_mean].
  destruct (fold_min_first (fun item : string * list Q => mean (snd item))
              (map (fun s => (s, times_of s successes)) rest)
              (s0, times_of s0 successes))
    as (before' & after' & Heq & Hbefore & Hafter).
  cbv zeta in *.
  set (m := fold_left _ _ _) in *. clearbody m.
  change ((s0, times_of s0 successes)
          :: map (fun s => (s, times_of s successes)) rest)
    with (map (fun s => (s, times_of s successes)) (s0 :: rest)) in Heq.
  apply map_eq_app in Heq. destruct Heq as (before & tail & Hnames & Hb & Htail).
  apply map_eq_cons in Htail.
  destruct Htail as (best & after & -> & Hm & Ha).
  exists best, before, after. subst m before' after'.
  split; [reflexivity|]. split; [exact Hnames|]. split.
  - intros s Hs. apply (Hbefore (s, times_of s successes)).
    apply in_map_iff. exists s. auto.
  - intros s Hs. apply (Hafter (s, times_of s successes)).
    apply in_map_iff. exists s. auto.
Qed.

(** *** The selector states that can be reached *)

Lemma first_occurrences_In (seen l : list string) (x : string) :
  In x (first_occurrences seen l) -> In x l.
Proof.
  revert seen. induction l as [|y l IH]; intros seen; [intros []|].
  cbn [first_occurrences]. destruct (in_list y seen).
  - intros H. right. eauto.
  - intros [<- | H]; [now left | right; eauto].
Qed.

Lemma min_by_mean_single (recs : list SuccessRecord) (rec : SuccessRecord) (n : string) :
  (forall x, In x (recs ++ [rec]) -> s_strategy x = n) ->
  exists times, min_by_mean (group_times (recs ++ [rec]) []) = Some (n, times).
Proof.
  intros Hall. destruct (succeeded_nonempty recs rec) as (s0 & rest & Hne).
  destruct (min_by_mean_group (recs ++ [rec]) s0 rest Hne)
    as (best & before & after & Hmin & Hnames & _).
  assert (Hin : In best (succeeded (recs ++ [rec])))
    by (rewrite Hnames; apply in_app_iff; right; now left).
  apply first_occurrences_In in Hin. apply in_map_iff in Hin.
  destruct Hin as (x & Hx & Hxin). rewrite (Hall x Hxin) in Hx. subst best.
  eauto.
Qed.

Lemma select_strategy_mapped (self : MetaLearner)
    (problem_chars : ProblemCharacteristics) (r : rng) (s : string) :
  lookup (signature problem_chars) (strategy_mapping self) = Some s ->
  fst (select_strategy self problem_chars r) = Some s.
Proof. intros H. unfold select_strategy. now rewrite H. Qed.

Lemma attempt_synthesis_single (self : MetaLearner)
    (problem_chars : ProblemCharacteristics) (examples : list IOExample)
    (timeout elapsed : Q) (r : rng) :
  single_strategy self ->
  let self' :=
    fst (fst (attempt_synthesis self problem_chars examples timeout elapsed r)) in
  single_strategy self' /\
  forall sig s, lookup sig (strategy_mapping self) = Some s ->
                lookup sig (strategy_mapping self') = Some s.
Proof.
  intros Hinv. cbv zeta. unfold attempt_synthesis. rewrite rbind_run.
  destruct (fst (select_strategy self problem_chars r)) as [strategy_name|] eqn:Esel;
    [|now split].
  destruct (lookup strategy_name (strategies self)) as [strategy|]; [|now split].
  destruct (synthesize_func strategy examples timeout) as [[result|]|e];
    cbn [rret fst]; [|now split|now split].
  unfold record_success, update_strategy_mapping.
  cbn [success_patterns strategy_mapping strategies problem_history].
  set (sig0 := signature problem_chars).
  set (old := match lookup sig0 (success_patterns self) with
              | Some l => l
              | None => []
              end).
  set (rec := {| s_strategy := strategy_name; s_time := elapsed;
                 s_program_size := cost result |}).
  rewrite lookup_dict_set_same.
  assert (Hall : forall x, In x (old ++ [rec]) -> s_strategy x = strategy_name).
  { intros x Hx. apply in_app_iff in Hx. destruct Hx as [Hx | [<- | []]]; [|reflexivity].
    subst old. destruct (lookup sig0 (success_patterns self)) as [l|] eqn:El;
      [|contradiction].
    pose proof (Hinv sig0 l x El Hx) as Hmap.
    apply (select_strategy_mapped self problem_chars r) in Hmap. congruence. }
  destruct (min_by_mean_single old rec strategy_name Hall) as (times & ->).
  cbn [success_patterns strategy_mapping fst]. split.
  - intros sig recs x Hrecs Hx. cbn [success_patterns strategy_mapping] in Hrecs |- *.
    destruct (string_dec sig sig0) as [-> | Hne].
    + rewrite lookup_dict_set_same in Hrecs. rewrite lookup_dict_set_same.
      injection Hrecs as <-. now rewrite (Hall x Hx).
    + rewrite lookup_dict_set_other in Hrecs by exact Hne.
      rewrite lookup_dict_set_other by exact Hne. now apply (Hinv sig recs).
  - intros sig s Hs. cbn [success_patterns strategy_mapping].
    destruct (string_dec sig sig0) as [-> | Hne].
    + rewrite lookup_dict_set_same.
      apply (select_strategy_mapped self problem_chars r) in Hs. congruence.
    + now rewrite lookup_dict_set_other by exact Hne.
Qed.

Lemma reachable_single (self : MetaLearner) : reachable self -> single_strategy self.
Proof.
  induction 1 as [|self n f _ IH|self pc ex t el r _ IH].
  - intros sig recs rec H. discriminate.
  - exact IH.
  - now apply attempt_synthesis_single.
Qed.



(** * Further properties *)

(** ** Enumeration *)

Lemma list_sum_cons (x : nat) (l : list nat) :
  list_sum (x :: l) = (x + list_sum l)%nat.
Proof. reflexivity. Qed.

Lemma partitions_sound (k n : nat) (p : list nat) :
  (1 <= n)%nat -> In p (partitions n k) ->
  List.length p = k /\ list_sum p = n /\ Forall (fun s => (1 <= s)%nat) p.
Proof.
  revert n p. induction k as [|k IH]; intros n p Hn Hp; [contradiction|].
  cbn [partitions] in Hp. destruct k as [|k'].
  - destruct Hp as [<- | []]. split; [reflexivity|]. split; [cbn; lia|].
    repeat constructor. lia.
  - apply in_flat_map in Hp. destruct Hp as (i & Hi & Hp).
    apply in_seq in Hi. apply in_map_iff in Hp. destruct Hp as (q & <- & Hq).
    destruct (IH (n - i)%nat q) as (Hlen & Hsum & Hpos); [lia | exact Hq |].
    rewrite list_sum_cons. cbn [List.length]. split; [lia|]. split; [lia|].
    constructor; [lia | exact Hpos].
Qed.

Lemma partitions_complete (k n : nat) (p : list nat) :
  List.length p = k -> list_sum p = n -> Forall (fun s => (1 <= s)%nat) p ->
  (1 <= k)%nat -> In p (partitions n k).
Proof.
  revert n p. induction k as [|k IH]; intros n p Hlen Hsum Hpos Hk; [lia|].
  destruct p as [|i q]; [discriminate|]. cbn [List.length] in Hlen.
  injection Hlen as Hlen. apply Forall_cons_iff in Hpos. destruct Hpos as [Hi Hq].
  rewrite list_sum_cons in Hsum. cbn [partitions]. destruct k as [|k'].
  - destruct q; [|discriminate]. cbn in Hsum. left. f_equal. lia.
  - assert (Hqsum : (1 <= list_sum q)%nat).
    { destruct q as [|j q']; [discriminate|].
      apply Forall_cons_iff in Hq. rewrite list_sum_cons. lia. }
    apply in_flat_map. exists i. split; [apply in_seq; lia|].
    apply in_map. apply IH; auto; lia.
Qed.

Lemma NoDup_flat_map_heads {A : Type} (g : nat -> list (list A)) (l : list nat)
    (h : list A -> nat) :
  NoDup l ->
  (forall i, In i l -> NoDup (g i)) ->
  (forall i x, In i l -> In x (g i) -> h x = i) ->
  NoDup (flat_map g l).
Proof.
  induction l as [|i l IH]; intros Hnd Hg Hh; [constructor|].
  apply NoDup_cons_iff in Hnd. destruct Hnd as [Hi Hnd]. cbn [flat_map].
  assert (Hrest : NoDup (flat_map g l)).
  { apply IH; auto.
    - intros j Hj. apply Hg. now right.
    - intros j x Hj. apply Hh. now right. }
  assert (Hhead : NoDup (g i)) by (apply Hg; now left).
  revert Hhead. generalize (Hh i) as Hhi. intros Hhi.
  assert (Hdisj : forall x, In x (g i) -> ~ In x (flat_map g l)).
  { intros x Hx Hin. apply in_flat_map in Hin. destruct Hin as (j & Hj & Hxj).
    assert (h x = i) by (apply Hhi; [now left | exact Hx]).
    assert (h x = j) by (apply (Hh j); [now right | exact Hxj]).
    apply Hi. congruence. }
  clear Hhi. induction (g i) as [|x xs IHx]; intros Hhead; [exact Hrest|].
  apply NoDup_cons_iff in Hhead. destruct Hhead as [Hx Hxs]. cbn. constructor.
  - rewrite in_app_iff. intros [H | H]; [contradiction|].
    apply (Hdisj x); [now left | exact H].
  - apply IHx; auto. intros y Hy. apply Hdisj. now right.
Qed.

Lemma NoDup_map_injective {A B : Type} (g : A -> B) (l : list A) :
  (forall x y, g x = g y -> x = y) -> NoDup l -> NoDup (map g l).
Proof.
  intros Hinj. induction l as [|x l IH]; intros Hnd; [constructor|].
  apply NoDup_cons_iff in Hnd. destruct Hnd as [Hx Hnd]. cbn. constructor; auto.
  intros Hin. apply in_map_iff in Hin. destruct Hin as (y & Hy & Hin).
  apply Hinj in Hy. now subst.
Qed.

Lemma partitions_NoDup (k n : nat) : NoDup (partitions n k).
Proof.
  revert n. induction k as [|k IH]; intros n; [constructor|].
  cbn [partitions]. destruct k as [|k'].
  - constructor; [intros [] | constructor].
  - apply (NoDup_flat_map_heads _ _ (fun p => hd 0%nat p)).
    + apply seq_NoDup.
    + intros i _. apply NoDup_map_injective; [|apply IH].
      intros x y H. now injection H.
    + intros i p _ Hp. apply in_map_iff in Hp. destruct Hp as (q & <- & _).
      reflexivity.
Qed.

(** X1. For [n >= 1], [_partitions(n, k)] yields exactly the lists of [k]
    positive integers that sum to [n], each of them once. *)
Theorem partitions_spec (n k : nat) (p : list nat) :
  (1 <= n)%nat ->
  (In p (partitions n k) <->
   List.length p = k /\ list_sum p = n /\ Forall (fun s => (1 <= s)%nat) p)
  /\ NoDup (partitions n k).
Proof.
  intros Hn. split; [|apply partitions_NoDup]. split.
  - now apply partitions_sound.
  - intros (Hlen & Hsum & Hpos). apply partitions_complete; auto.
    destruct p as [|i q]; [cbn in Hsum; lia | cbn [List.length] in Hlen; lia].
Qed.

Lemma partitions_spec_witness :
  In [1; 2]%nat (partitions 3 2) /\ NoDup (partitions 3 2).
Proof.
  destruct (partitions_spec 3 2 [1; 2]%nat) as [H Hnd]; [lia|].
  split; [|exact Hnd]. apply H.
  split; [reflexivity|]. split; [reflexivity|]. repeat constructor.
Defined.

Lemma product_map_In {A B : Type} (g : B -> list A) (xs : list A) (ss : list B) :
  In xs (product (map g ss)) <-> Forall2 (fun x s => In x (g s)) xs ss.
Proof.
  revert xs. induction ss as [|s ss IH]; intros xs; cbn [map product].
  - split.
    + intros [<- | []]. constructor.
    + intros H. inversion H. now left.
  - rewrite in_flat_map. split.
    + intros (x & Hx & Hin). apply in_map_iff in Hin. destruct Hin as (ys & <- & Hys).
      constructor; [exact Hx | now apply IH].
    + intros H. inversion H as [|x s' ys ss' Hx Hys]; subst.
      exists x. split; [exact Hx|]. apply in_map. now apply IH.
Qed.

Lemma synth_get_arity_pos (op : string) : (1 <= Synth.get_arity op)%nat.
Proof.
  unfold Synth.get_arity. repeat (destruct (in_list op _); [lia|]). lia.
Qed.

Lemma ast_size_pos (a : ast) : (1 <= Runtime.ast_size a)%nat.
Proof. destruct a; cbn; lia. Qed.

(** The recursive case of the enumeration, with the fuel out of the way. *)
Lemma enumerate_unfold (ops : dict callable) (size : nat) :
  (2 <= size)%nat ->
  enumerate_programs ops size
  = flat_map (fun op_name =>
      flat_map (fun subprogram_sizes =>
        map (Apply op_name)
            (product (map (enumerate_programs ops) subprogram_sizes)))
        (partitions (size - 1) (Synth.get_arity op_name)))
      (keys ops).
Proof.
  intros Hsize. unfold enumerate_programs at 1.
  destruct size as [|size]; [lia|]. cbn [enumerate_fuel].
  destruct (S size =? 1)%nat eqn:E; [apply Nat.eqb_eq in E; lia|].
  apply flat_map_ext. intros op_name. apply flat_map_ext_In. intros sizes Hin.
  f_equal. f_equal. apply map_ext_in. intros s Hs.
  assert (1 <= s <= S size - 1)%nat
    by (apply (partitions_parts (Synth.get_arity op_name) _ sizes); auto; lia).
  unfold enumerate_programs. apply enumerate_fuel_enough. lia.
Qed.

Lemma enumerate_sound (ops : dict callable) (size : nat) (a : ast) :
  (1 <= size)%nat -> In a (enumerate_programs ops size) ->
  enumerable ops a = true /\ Runtime.ast_size a = size.
Proof.
  revert a. induction size as [size IH] using lt_wf_ind. intros a Hsize Hin.
  destruct (Nat.eq_dec size 1) as [-> | Hne].
  - rewrite enumerate_size_one in Hin. apply in_app_iff in Hin.
    destruct Hin as [Hin | Hin].
    + apply in_map_iff in Hin. destruct Hin as (k & <- & Hk).
      split; [now apply in_list_In | reflexivity].
    + cbn in Hin. intuition (subst; auto).
  - rewrite enumerate_unfold in Hin by lia.
    apply in_flat_map in Hin. destruct Hin as (op & Hop & Hin).
    apply in_flat_map in Hin. destruct Hin as (sizes & Hsizes & Hin).
    apply in_map_iff in Hin. destruct Hin as (subs & <- & Hsubs).
    apply product_map_In in Hsubs.
    assert (Hn1 : (1 <= size - 1)%nat) by lia.
    destruct (partitions_sound _ _ _ Hn1 Hsizes) as (Hlen & Hsum & Hpos).
    assert (Hparts : forall s, In s sizes -> (1 <= s < size)%nat).
    { intros s Hs.
      pose proof (partitions_parts _ _ _ s Hn1 Hsizes Hs). lia. }
    assert (Hall : forallb (enumerable ops) subs = true
                   /\ list_sum (map Runtime.ast_size subs) = list_sum sizes
                   /\ List.length subs = List.length sizes).
    { clear Hlen Hsum Hpos Hsizes.
      induction Hsubs as [|sub s subs sizes Hsub Hrest IHrest].
      - repeat split.
      - destruct (Hparts s (or_introl eq_refl)) as [Hs1 Hs2].
        destruct (IH s Hs2 sub Hs1 Hsub) as [He Hsz].
        destruct IHrest as (Ha & Hb & Hc); [intros s' Hs'; apply Hparts; now right|].
        cbn [forallb map List.length]. rewrite !list_sum_cons, He, Ha, Hsz, Hb, Hc.
        repeat split. }
    destruct Hall as (Ha & Hb & Hc). cbn [enumerable Runtime.ast_size].
    apply in_list_In in Hop. rewrite Hop, Ha, Hb, Hc, Hlen, Hsum, Nat.eqb_refl.
    split; [reflexivity | lia].
Qed.

Lemma enumerate_complete (ops : dict callable) (a : ast) :
  enumerable ops a = true -> In a (enumerate_programs ops (Runtime.ast_size a)).
Proof.
  induction a as [n|i|v|op children IH] using ast_nested_ind; cbn [enumerable];
    intros He.
  - cbn [Runtime.ast_size]. rewrite enumerate_size_one. apply in_app_iff. left.
    apply in_map. now apply in_list_In.
  - cbn [Runtime.ast_size]. rewrite enumerate_size_one. apply in_app_iff. right.
    apply Nat.ltb_lt in He. cbn.
    destruct i as [|[|[|i]]]; [tauto | tauto | tauto | lia].
  - discriminate.
  - apply andb_true_iff in He. destruct He as [He Hall].
    apply andb_true_iff in He. destruct He as [Hop Hlen].
    apply Nat.eqb_eq in Hlen. apply in_list_In in Hop.
    pose proof (synth_get_arity_pos op) as Harity.
    set (sizes := map Runtime.ast_size children).
    assert (Hpos : Forall (fun s => (1 <= s)%nat) sizes).
    { apply Forall_forall. intros s Hs. apply in_map_iff in Hs.
      destruct Hs as (c & <- & _). apply ast_size_pos. }
    assert (Hsum : (1 <= list_sum sizes)%nat).
    { destruct children as [|c cs]; [cbn in Hlen; lia|].
      subst sizes. cbn [map]. rewrite list_sum_cons.
      pose proof (ast_size_pos c). lia. }
    cbn [Runtime.ast_size]. fold sizes. rewrite enumerate_unfold by lia.
    apply in_flat_map. exists op. split; [exact Hop|].
    apply in_flat_map. exists sizes. split.
    + replace (S (list_sum sizes) - 1)%nat with (list_sum sizes) by lia.
      apply partitions_complete; auto. subst sizes. now rewrite length_map.
    + apply in_map. apply product_map_In. subst sizes. clear Hlen Hpos Hsum.
      induction IH as [|c cs Hc _ IHcs]; [constructor|].
      cbn [forallb] in Hall. apply andb_true_iff in Hall. destruct Hall as [H1 H2].
      cbn [map]. constructor; auto.
Qed.

(** X2. For [size >= 1], [_enumerate_programs(size)] yields exactly the trees
    of [size] nodes that are built from the registered names and the
    variables 0, 1 and 2 with every operator applied to as many children as
    its arity. *)
Theorem enumerate_programs_spec (ops : dict callable) (size : nat) (a : ast) :
  (1 <= size)%nat ->
  (In a (enumerate_programs ops size) <->
   enumerable ops a = true /\ Runtime.ast_size a = size).
Proof.
  intros Hsize. split.
  - now apply enumerate_sound.
  - intros [He <-]. now apply enumerate_complete.
Qed.

Lemma enumerate_programs_spec_witness :
  In (Apply "add" [Var 0; Primitive "not"])
     (enumerate_programs initialize_primitives 3).
Proof.
  apply (enumerate_programs_spec initialize_primitives 3); [lia|].
  split; reflexivity.
Defined.

(** ** Compilation *)

Lemma lookup_Some_keys {A : Type} (k : string) (d : dict A) :
  (exists v, lookup k d = Some v) <-> In k (keys d).
Proof.
  destruct (lookup k d) as [v|] eqn:E.
  - split; [intros _ | eauto].
    destruct (in_dec string_dec k (keys d)) as [H|H]; [exact H|].
    apply lookup_None_keys in H. congruence.
  - split; [intros [v Hv]; discriminate|].
    intros Hin. apply lookup_None_keys in E. contradiction.
Qed.

Lemma mapM_Some_iff {A B : Type} (g : A -> option B) (xs : list A) :
  (exists ys, mapM g xs = Some ys) <-> Forall (fun x => exists y, g x = Some y) xs.
Proof.
  induction xs as [|x xs IH]; cbn [mapM].
  - split; [constructor | eauto].
  - split.
    + intros [ys H]. destruct (g x) as [y|] eqn:Ex; [|discriminate].
      cbn [obind] in H. destruct (mapM g xs) as [zs|] eqn:Exs; [|discriminate].
      constructor; [eauto|]. apply IH. eauto.
    + intros H. apply Forall_cons_iff in H. destruct H as [[y Hy] Hrest].
      apply IH in Hrest. destruct Hrest as [ys Hys].
      rewrite Hy, Hys. cbn. eauto.
Qed.

Lemma compile_ast_names (ops : dict callable) (a : ast) :
  (exists func, compile_ast ops a = Some func) <-> names_registered ops a = true.
Proof.
  induction a as [n|i|v|op children IH] using ast_nested_ind;
    cbn [compile_ast names_registered].
  - rewrite lookup_Some_keys. symmetry. apply in_list_In.
  - split; eauto.
  - split; eauto.
  - rewrite andb_true_iff, in_list_In, <- lookup_Some_keys, forallb_forall.
    assert (Hsubs : (exists cs, mapM (compile_ast ops) children = Some cs)
                    <-> forall c, In c children -> names_registered ops c = true).
    { rewrite mapM_Some_iff, Forall_forall. rewrite Forall_forall in IH.
      split; intros H c Hc; apply (IH c Hc), H, Hc. }
    split.
    + intros [func H]. destruct (lookup op ops) as [op_func|]; [|discriminate].
      cbn [obind] in H.
      destruct (mapM (compile_ast ops) children) as [cs|] eqn:E; [|discriminate].
      split; [eauto|]. apply Hsubs. eauto.
    + intros [[op_func Hop] Hall]. apply Hsubs in Hall. destruct Hall as [cs Hcs].
      rewrite Hop, Hcs. cbn. eauto.
Qed.

(** X3. [_compile_ast] succeeds exactly on the trees whose primitive and
    operator names are all keys of [primitive_ops]; an arity mismatch or an
    out-of-range variable is no compilation error. *)
Theorem compile_ast_defined (ops : dict callable) (a : ast) :
  (exists func, compile_ast ops a = Some func) <-> names_registered ops a = true.
Proof. apply compile_ast_names. Qed.

Lemma enumerable_names_registered (ops : dict callable) (a : ast) :
  enumerable ops a = true -> names_registered ops a = true.
Proof.
  induction a as [n|i|v|op children IH] using ast_nested_ind;
    cbn [enumerable names_registered]; auto.
  intros H. apply andb_true_iff in H. destruct H as [H Hall].
  apply andb_true_iff in H. destruct H as [Hop _]. rewrite Hop. cbn [andb].
  rewrite forallb_forall in *. rewrite Forall_forall in IH. auto.
Qed.

(** X4. Every candidate [_enumerate_programs] yields compiles: the handler
    around the compilation in [synthesize] is never needed for it. *)
Theorem enumerated_candidates_compile (ops : dict callable) (size : nat) (a : ast) :
  (1 <= size)%nat ->
  In a (enumerate_programs ops size) ->
  exists func, compile_ast ops a = Some func.
Proof.
  intros Hsize Hin. apply compile_ast_names, enumerable_names_registered.
  now apply (enumerate_sound ops size a Hsize).
Qed.

Lemma enumerated_candidates_compile_witness :
  exists func,
    compile_ast initialize_primitives (Apply "not" [Primitive "add"]) = Some func.
Proof.
  apply (enumerated_candidates_compile initialize_primitives 2); [lia|].
  vm_compute. tauto.
Defined.

(** ** What [synthesize] returns *)

Lemma first_some_In {A B : Type} (check : A -> option B) (l : list A) (y : B) :
  first_some (map check l) = Some y ->
  exists before c after,
    l = before ++ c :: after /\ check c = Some y /\
    Forall (fun x => check x = None) before.
Proof.
  induction l as [|x l IH]; cbn [map first_some]; [discriminate|].
  destruct (check x) as [z|] eqn:E.
  - intros [= ->]. exists [], x, l. repeat split; auto.
  - intros H. destruct (IH H) as (before & c & after & -> & Hc & Hb).
    exists (x :: before), c, after. repeat split; auto.
Qed.

Lemma first_some_None {A B : Type} (check : A -> option B) (l : list A) :
  first_some (map check l) = None <-> Forall (fun x => check x = None) l.
Proof.
  induction l as [|x l IH]; cbn [map first_some].
  - split; [constructor | reflexivity].
  - destruct (check x) as [z|] eqn:E.
    + split; [discriminate|]. intros H. apply Forall_cons_iff in H.
      destruct H as [H _]. congruence.
    + rewrite IH. split; [now constructor | intros H; now apply Forall_cons_iff in H].
Qed.

Lemma count_satisfied_bound (func : callable) (train : list IOExample) (acc : nat) :
  (count_satisfied func train acc <= acc + List.length train)%nat.
Proof.
  revert acc. induction train as [|ex train IH]; intros acc; cbn; [lia|].
  destruct (func (inputs ex)) as [r|]; [|lia].
  destruct (py_eq r (output ex)); [specialize (IH (S acc)) | specialize (IH acc)]; lia.
Qed.

Lemma count_satisfied_all (func : callable) (train : list IOExample) (acc : nat) :
  count_satisfied func train acc = (acc + List.length train)%nat <->
  Forall (satisfies func) train.
Proof.
  revert acc. induction train as [|ex train IH]; intros acc.
  - cbn. split; [constructor | lia].
  - cbn [count_satisfied List.length]. unfold satisfies at 1. split.
    + intros H. destruct (func (inputs ex)) as [r|] eqn:E; [|lia].
      destruct (py_eq r (output ex)) eqn:Eq.
      * constructor; [exists r; auto|]. apply (IH (S acc)). lia.
      * pose proof (count_satisfied_bound func train acc). lia.
    + intros H. apply Forall_cons_iff in H. destruct H as [(r & Hr & Heq) Hrest].
      rewrite Hr, Heq. apply (IH (S acc)) in Hrest. lia.
Qed.

Lemma check_generalizes_all (func : callable) (test : list IOExample) :
  check_generalizes func test = true <-> Forall (satisfies func) test.
Proof.
  induction test as [|ex test IH]; cbn [check_generalizes].
  - split; [constructor | reflexivity].
  - split.
    + intros H. destruct (func (inputs ex)) as [r|] eqn:E; [|discriminate].
      destruct (py_eq r (output ex)) eqn:Eq; [|discriminate].
      constructor; [exists r; auto | now apply IH].
    + intros H. apply Forall_cons_iff in H. destruct H as [(r & Hr & Heq) Hrest].
      rewrite Hr, Heq. cbn. now apply IH.
Qed.

(** What a candidate that passes the check looks like. *)
Lemma check_candidate_Some (ops : dict callable) (train test : list IOExample)
    (size : nat) (a : ast) (p : SynthesizedProgram) :
  check_candidate ops train test size a = Some p ->
  compile_ast ops a = Some (function p) /\
  code p = ast_to_code a /\
  cost p = size /\
  examples_satisfied p = List.length train /\
  Forall (satisfies (function p)) train /\
  (generalizes p = true <-> Forall (satisfies (function p)) test).
Proof.
  unfold check_candidate. destruct (compile_ast ops a) as [func|]; [|discriminate].
  destruct (count_satisfied func train 0 =? List.length train)%nat eqn:E; [|discriminate].
  apply Nat.eqb_eq in E. intros [= <-]. cbn.
  repeat split; auto.
  - now apply (count_satisfied_all func train 0).
  - now apply check_generalizes_all.
  - now apply check_generalizes_all.
Qed.

Lemma candidates_in_budget_In (ops : dict callable) (t : Z) (sizes : list nat)
    (size : nat) (a : ast) :
  In (size, a) (candidates_in_budget ops t sizes) <->
  In size sizes /\ In a (firstn (Z.to_nat t) (enumerate_programs ops size)).
Proof.
  unfold candidates_in_budget. rewrite in_flat_map. split.
  - intros (s & Hs & Hin). apply in_map_iff in Hin.
    destruct Hin as (b & [= -> ->] & Hb). auto.
  - intros [Hs Ha]. exists size. split; [exact Hs|]. now apply in_map.
Qed.

Lemma firstn_In {A : Type} (n : nat) (l : list A) (x : A) :
  In x (firstn n l) -> In x l.
Proof.
  intros H. rewrite <- (firstn_skipn n l). apply in_app_iff. now left.
Qed.

(** X5. A program that [synthesize] returns is one of the enumerated trees
    of its size [cost], which is between 1 and the maximal size; its compiled
    function returns the expected output on every training example,
    [examples_satisfied] is the number of training examples, and
    [generalizes] holds exactly when it also returns the expected output on
    every held-out example. *)
Theorem synthesize_sound (self : ProgramSynthesizer) (examples : list IOExample)
    (timeout_programs : Z) (p : SynthesizedProgram) :
  synthesize self examples timeout_programs = Some p ->
  let train := fst (split_examples examples) in
  let test := snd (split_examples examples) in
  exists a,
    (1 <= Z.of_nat (cost p) <= max_program_size self) /\
    In a (enumerate_programs (primitive_ops self) (cost p)) /\
    compile_ast (primitive_ops self) a = Some (function p) /\
    code p = ast_to_code a /\
    examples_satisfied p = List.length train /\
    Forall (satisfies (function p)) train /\
    (generalizes p = true <-> Forall (satisfies (function p)) test).
Proof.
  intros Hsyn train test. unfold synthesize, synthesize_trace in Hsyn.
  subst train test. destruct (split_examples examples) as [train test].
  rewrite synthesize_sizes_per_size in Hsyn. cbn [snd fst] in *.
  apply first_some_In in Hsyn.
  destruct Hsyn as (before & [size a] & after & Hl & Hc & _).
  unfold check_sized in Hc. cbn [fst snd] in Hc.
  destruct (check_candidate_Some _ _ _ _ _ _ Hc) as (H1 & H2 & H3 & H4 & H5 & H6).
  assert (Hin : In (size, a)
                  (candidates_in_budget (primitive_ops self) timeout_programs
                     (seq 1 (Z.to_nat (max_program_size self)))))
    by (rewrite Hl; apply in_app_iff; right; now left).
  apply candidates_in_budget_In in Hin. destruct Hin as [Hsize Ha].
  apply in_seq in Hsize. apply firstn_In in Ha.
  exists a. rewrite H3. repeat split; auto; try apply H6; lia.
Qed.

Lemma synthesize_sound_witness :
  let self := Synth.init 2 in
  let examples := [ {| inputs := [VInt 1; VInt 2]; output := VInt 3 |} ] in
  exists p a,
    synthesize self examples 10 = Some p /\
    In a (enumerate_programs (primitive_ops self) (cost p)) /\
    compile_ast (primitive_ops self) a = Some (function p) /\
    Forall (satisfies (function p)) (fst (split_examples examples)).
Proof.
  intros self examples.
  destruct (synthesize self examples 10) as [p|] eqn:E; [|vm_compute in E; discriminate].
  destruct (synthesize_sound self examples 10 p E) as (a & _ & Ha & Hc & _ & _ & Ht & _).
  exists p, a. auto.
Defined.

Lemma candidates_in_budget_cons (ops : dict callable) (t : Z) (size : nat)
    (sizes : list nat) :
  candidates_in_budget ops t (size :: sizes)
  = map (pair size) (firstn (Z.to_nat t) (enumerate_programs ops size))
    ++ candidates_in_budget ops t sizes.
Proof. reflexivity. Qed.

Lemma candidates_in_budget_empty (ops : dict callable) (t : Z) (sizes : list nat) :
  t <= 0 -> candidates_in_budget ops t sizes = [].
Proof.
  intros Ht. induction sizes as [|size sizes IH]; [reflexivity|].
  rewrite candidates_in_budget_cons, IH.
  replace (Z.to_nat t) with 0%nat by lia. reflexivity.
Qed.

(** X6. With a budget of zero or less, or a maximal size of zero or less,
    [synthesize] checks no candidate and returns [None]. *)
Theorem synthesize_nothing_to_search (self : ProgramSynthesizer)
    (examples : list IOExample) (timeout_programs : Z) :
  timeout_programs <= 0 \/ max_program_size self <= 0 ->
  synthesize self examples timeout_programs = None /\
  programs_checked_by self examples timeout_programs = [].
Proof.
  intros H. unfold synthesize, programs_checked_by, synthesize_trace.
  destruct (split_examples examples) as [train test].
  rewrite synthesize_sizes_per_size. cbn [fst snd].
  assert (E : candidates_in_budget (primitive_ops self) timeout_programs
                (seq 1 (Z.to_nat (max_program_size self))) = []).
  { destruct H as [H | H].
    - now apply candidates_in_budget_empty.
    - replace (Z.to_nat (max_program_size self)) with 0%nat by lia. reflexivity. }
  rewrite E. split; reflexivity.
Qed.

Lemma synthesize_nothing_to_search_witness :
  synthesize (Synth.init 10) [ {| inputs := [VInt 1]; output := VInt 1 |} ] 0 = None /\
  programs_checked_by (Synth.init 10) [ {| inputs := [VInt 1]; output := VInt 1 |} ] 0
  = [].
Proof.
  apply (synthesize_nothing_to_search (Synth.init 10)). left. lia.
Defined.

Lemma first_passing_minimal (ops : dict callable) (train test : list IOExample)
    (t : Z) (len start : nat) (p : SynthesizedProgram) :
  first_some (map (check_sized ops train test)
                  (candidates_in_budget ops t (seq start len))) = Some p ->
  (start <= cost p)%nat /\
  forall size a,
    (start <= size < cost p)%nat ->
    In a (firstn (Z.to_nat t) (enumerate_programs ops size)) ->
    check_candidate ops train test size a = None.
Proof.
  revert start. induction len as [|len IH]; intros start; [discriminate|].
  cbn [seq]. rewrite candidates_in_budget_cons, map_app, first_some_app, map_map.
  change (fun x : ast => check_sized ops train test (start, x))
    with (check_candidate ops train test start).
  destruct (first_some (map (check_candidate ops train test start)
                            (firstn (Z.to_nat t) (enumerate_programs ops start))))
    as [q|] eqn:E.
  - intros [= ->]. apply first_some_In in E.
    destruct E as (_ & c & _ & _ & Hc & _).
    apply check_candidate_Some in Hc. destruct Hc as (_ & _ & Hcost & _).
    rewrite Hcost. split; [lia|]. intros size a Hs. lia.
  - intros H. destruct (IH (S start) H) as [Hle Hmin]. split; [lia|].
    intros size a Hs Ha. destruct (Nat.eq_dec size start) as [-> | Hne].
    + apply first_some_None in E. rewrite Forall_forall in E. now apply E.
    + apply Hmin; [lia | exact Ha].
Qed.

(** X7. The program [synthesize] returns is of minimal size among the
    candidates within the budget: at every smaller size, each of the first
    [timeout_programs] trees of that size fails the check. *)
Theorem synthesize_minimal (self : ProgramSynthesizer) (examples : list IOExample)
    (timeout_programs : Z) (p : SynthesizedProgram) (size : nat) (a : ast) :
  synthesize self examples timeout_programs = Some p ->
  (1 <= size < cost p)%nat ->
  In a (firstn (Z.to_nat timeout_programs)
               (enumerate_programs (primitive_ops self) size)) ->
  check_candidate (primitive_ops self) (fst (split_examples examples))
    (snd (split_examples examples)) size a = None.
Proof.
  intros Hsyn Hsize Ha. unfold synthesize, synthesize_trace in Hsyn.
  destruct (split_examples examples) as [train test].
  rewrite synthesize_sizes_per_size in Hsyn. cbn [fst snd] in *.
  destruct (first_passing_minimal _ _ _ _ _ _ _ Hsyn) as [_ Hmin].
  now apply Hmin.
Qed.

Lemma synthesize_minimal_witness :
  let self := Synth.init 2 in
  let examples := [ {| inputs := [VInt 1; VInt 2]; output := VBool false |} ] in
  check_candidate (primitive_ops self) (fst (split_examples examples))
    (snd (split_examples examples)) 1 (Primitive "add") = None.
Proof.
  intros self examples.
  assert (Hc : option_map cost (synthesize self examples 1) = Some 2%nat)
    by (vm_compute; reflexivity).
  destruct (synthesize self examples 1) as [p|] eqn:E; [|discriminate].
  injection Hc as Hc.
  apply (synthesize_minimal self examples 1 p 1 (Primitive "add") E).
  - rewrite Hc. lia.
  - vm_compute. tauto.
Defined.

(** ** The registry of primitives *)

Lemma keys_dict_set {A : Type} (k k0 : string) (v : A) (d : dict A) :
  In k0 (keys (dict_set k v d)) <-> k0 = k \/ In k0 (keys d).
Proof.
  induction d as [|[k' v'] d IH]; cbn [dict_set keys map fst In].
  - intuition.
  - destruct (String.eqb k k') eqn:E; cbn [keys map fst In].
    + apply String.eqb_eq in E. subst k'. intuition.
    + unfold keys in IH. rewrite IH. intuition.
Qed.

Lemma names_registered_mono (ops ops' : dict callable) (a : ast) :
  (forall k, In k (keys ops) -> In k (keys ops')) ->
  names_registered ops a = true -> names_registered ops' a = true.
Proof.
  intros Hsub.
  induction a as [n|i|v|op children IH] using ast_nested_ind;
    cbn [names_registered]; auto.
  - intros H. apply in_list_In. apply Hsub. now apply in_list_In.
  - intros H. apply andb_true_iff in H. destruct H as [Hop Hall].
    apply andb_true_iff. split.
    + apply in_list_In. apply Hsub. now apply in_list_In.
    + rewrite forallb_forall in *. rewrite Forall_forall in IH. auto.
Qed.

(** X8. After [add_learned_as_primitive(program, name)] the name compiles to
    the function of the program and is enumerated as a leaf; every other
    name keeps its primitive, no name is removed, and every tree that
    compiled before still compiles. *)
Theorem add_learned_usable (self : ProgramSynthesizer) (program : SynthesizedProgram)
    (name : string) :
  let self' := add_learned_as_primitive self program name in
  compile_ast (primitive_ops self') (Primitive name) = Some (function program) /\
  In (Primitive name) (enumerate_programs (primitive_ops self') 1) /\
  (forall k, k <> name ->
             lookup k (primitive_ops self') = lookup k (primitive_ops self)) /\
  (forall k, In k (keys (primitive_ops self)) -> In k (keys (primitive_ops self'))) /\
  (forall a, (exists f, compile_ast (primitive_ops self) a = Some f) ->
             exists f', compile_ast (primitive_ops self') a = Some f').
Proof.
  intros self'. subst self'. cbn [add_learned_as_primitive primitive_ops].
  assert (Hkeys : forall k, In k (keys (primitive_ops self)) ->
                            In k (keys (dict_set name (function program)
                                                 (primitive_ops self))))
    by (intros k Hk; apply keys_dict_set; now right).
  split; [apply lookup_dict_set_same|]. split.
  { rewrite enumerate_size_one. apply in_app_iff. left. apply in_map.
    apply keys_dict_set. now left. }
  split; [intros k Hk; now apply lookup_dict_set_other|].
  split; [exact Hkeys|].
  intros a Ha. apply compile_ast_names.
  apply (names_registered_mono (primitive_ops self)); [exact Hkeys|].
  now apply compile_ast_names.
Qed.

(** X9. The primitive [div] does not divide by zero: with a divisor equal
    to zero ([0], [0.0] or [False]) it returns the integer [0] whatever the
    dividend is, a number or not, and does not raise. *)
Theorem div_by_zero (x y : value) (qy : Q) :
  as_num y = Some qy ->
  (qy == 0)%Q ->
  run_ast initialize_primitives (Apply "div" [Const x; Const y]) [] = Some (VInt 0).
Proof.
  intros Hy Hzero. rewrite run_apply.
  cbn [lookup initialize_primitives String.eqb Ascii.eqb Bool.eqb obind mapM
       run_ast compile_ast lambda2].
  assert (Heq : py_eq y (VInt 0) = true).
  { apply Qeq_bool_iff in Hzero.
    destruct y; cbn in Hy; try discriminate; injection Hy as <-; exact Hzero. }
  now rewrite Heq.
Qed.

Lemma div_by_zero_witness :
  run_ast initialize_primitives
    (Apply "div" [Const (VList [VInt 7]); Const (VBool false)]) []
  = Some (VInt 0).
Proof.
  apply (div_by_zero (VList [VInt 7]) (VBool false) (inject_Z 0)); reflexivity.
Defined.

(** ** Subtrees and tree size *)

Lemma length_flat_map_sum {A B : Type} (g : A -> list B) (l : list A) :
  List.length (flat_map g l) = list_sum (map (fun x => List.length (g x)) l).
Proof.
  induction l as [|x l IH]; [reflexivity|].
  cbn [flat_map map]. now rewrite length_app, list_sum_cons, IH.
Qed.

Lemma subtrees_length (a : ast) :
  List.length (get_all_subtrees a) = Runtime.ast_size a.
Proof.
  induction a as [n|i|v|op children IH] using ast_nested_ind; try reflexivity.
  cbn [get_all_subtrees Runtime.ast_size List.length]. f_equal.
  rewrite length_flat_map_sum. f_equal.
  apply map_ext_in. rewrite Forall_forall in IH. exact IH.
Qed.

Lemma list_sum_In_le (l : list nat) (x : nat) : In x l -> (x <= list_sum l)%nat.
Proof.
  induction l as [|y l IH]; [intros []|].
  rewrite list_sum_cons. intros [-> | H]; [lia|]. specialize (IH H). lia.
Qed.

Lemma subtree_size_le (a s : ast) :
  In s (get_all_subtrees a) -> (Runtime.ast_size s <= Runtime.ast_size a)%nat.
Proof.
  revert s. induction a as [n|i|v|op children IH] using ast_nested_ind; intros s;
    cbn [get_all_subtrees]; try (intros [<- | []]; lia).
  intros [<- | Hin]; [lia|].
  apply in_flat_map in Hin. destruct Hin as (c & Hc & Hs).
  rewrite Forall_forall in IH. specialize (IH c Hc s Hs).
  cbn [Runtime.ast_size].
  assert (Runtime.ast_size c <= list_sum (map Runtime.ast_size children))%nat
    by (apply list_sum_In_le; now apply in_map).
  lia.
Qed.

Lemma proper_subtree_size (a s : ast) :
  In s (tl (get_all_subtrees a)) -> (Runtime.ast_size s < Runtime.ast_size a)%nat.
Proof.
  destruct a as [n|i|v|op children]; cbn [get_all_subtrees tl]; try (intros []).
  intros Hin. apply in_flat_map in Hin. destruct Hin as (c & Hc & Hs).
  apply subtree_size_le in Hs. cbn [Runtime.ast_size].
  assert (Runtime.ast_size c <= list_sum (map Runtime.ast_size children))%nat
    by (apply list_sum_In_le; now apply in_map).
  lia.
Qed.

(** X10. [_get_all_subtrees] lists as many subtrees as the tree has nodes
    ([_ast_size]), the tree itself first, and [_replace_subtree] with an
    index of that number or more returns the tree unchanged. *)
Theorem subtrees_and_size (a : ast) (index : nat) (new_subtree : ast) :
  List.length (get_all_subtrees a) = Runtime.ast_size a /\
  hd_error (get_all_subtrees a) = Some a /\
  ((index < Runtime.ast_size a)%nat \/ replace_subtree a index new_subtree = a).
Proof.
  split; [apply subtrees_length|]. split; [now destruct a|].
  destruct (Nat.lt_ge_cases index (Runtime.ast_size a)) as [H | H]; [now left|].
  right. unfold replace_subtree. rewrite <- subtrees_length in H.
  apply nth_error_None in H. now rewrite H.
Qed.

(** X11. Hoist mutation never makes a tree larger, and it makes every tree
    of more than one node strictly smaller. *)
Theorem hoist_shrinks (a : ast) (r : rng) :
  let hoisted := fst (mutate_ast Hoist a r) in
  (Runtime.ast_size hoisted <= Runtime.ast_size a)%nat /\
  ((Runtime.ast_size a = 1)%nat /\ hoisted = a
   \/ (Runtime.ast_size hoisted < Runtime.ast_size a)%nat).
Proof.
  cbn [mutate_ast]. rewrite subtrees_length.
  destruct (1 <? Runtime.ast_size a)%nat eqn:E.
  - apply Nat.ltb_lt in E. unfold choice. rewrite rbind_run. cbn [rret fst].
    set (i := fst (choice_index _ r)).
    assert (Hlen : (1 <= List.length (tl (get_all_subtrees a)))%nat).
    { pose proof (subtrees_length a) as Hl.
      destruct (get_all_subtrees a) as [|x l]; cbn in *; lia. }
    assert (Hi : (i < List.length (tl (get_all_subtrees a)))%nat).
    { subst i. unfold choice_index. rewrite rbind_run. cbn [rret fst].
      set (len := List.length (tl (get_all_subtrees a))) in *.
      assert (N.of_nat len <> 0%N) by lia.
      pose proof (N.mod_upper_bound (fst (draw r)) (N.of_nat len)). lia. }
    pose proof (proper_subtree_size a _ (nth_In _ a Hi)). split; [lia | now right].
  - apply Nat.ltb_ge in E. pose proof (ast_size_pos a). cbn [rret fst].
    split; [lia|]. left. split; [lia | reflexivity].
Qed.

(** ** Random trees and the initial population *)

Lemma genetic_get_arity_pos (primitive : string) : (1 <= Genetic.get_arity primitive)%nat.
Proof.
  unfold Genetic.get_arity. repeat (destruct (in_list primitive _); [lia|]). lia.
Qed.

Lemma random_terminal_depth (r : rng) : depth (fst (random_terminal r)) = 0%nat.
Proof.
  unfold random_terminal. rewrite rbind_run.
  destruct (Qlt_bool _ _); rewrite rbind_run; reflexivity.
Qed.

(** The children of a random [Apply] node: as many as asked for, each one
    with the property every random tree of the depth below has. *)
Lemma random_children (P : ast -> Prop) (d : nat) (m : method) :
  (forall r, P (fst (generate_random_ast d m r))) ->
  forall n r,
    let children :=
      fst ((fix gen (n : nat) : Rand (list ast) :=
              match n with
              | O => rret []
              | S n' =>
                  c <~ generate_random_ast d m ;;
                  cs <~ gen n' ;;
                  rret (c :: cs)
              end) n r) in
    List.length children = n /\ Forall P children.
Proof.
  intros HP n. induction n as [|n IH]; intros r.
  - split; [reflexivity | constructor].
  - cbv zeta. rewrite rbind_run, rbind_run. cbn [rret fst].
    destruct (IH (snd (generate_random_ast d m r))) as [Hlen Hall].
    split; [cbn [List.length]; now rewrite Hlen | constructor; auto].
Qed.

Lemma max_depth_children (children : list ast) (d : nat) :
  Forall (fun c => depth c <= d)%nat children ->
  (fold_right Nat.max 0 (map depth children) <= d)%nat.
Proof.
  induction 1 as [|c cs Hc _ IH]; cbn; lia.
Qed.

Lemma max_depth_children_exact (children : list ast) (d : nat) :
  children <> [] ->
  Forall (fun c => depth c = d) children ->
  fold_right Nat.max 0%nat (map depth children) = d.
Proof.
  intros Hne Hall. induction Hall as [|c cs Hc Hcs IH]; [contradiction|].
  cbn [map fold_right]. destruct cs as [|c' cs'].
  - cbn. lia.
  - rewrite IH by discriminate. lia.
Qed.

Lemma generate_random_ast_depth (max_depth : nat) (m : method) (r : rng) :
  (depth (fst (generate_random_ast max_depth m r)) <= max_depth)%nat /\
  (m = Full -> depth (fst (generate_random_ast max_depth m r)) = max_depth).
Proof.
  revert r. induction max_depth as [|d IH]; intros r.
  - cbn [generate_random_ast]. rewrite random_terminal_depth. auto.
  - cbn [generate_random_ast]. rewrite rbind_run.
    set (stop := fst (match m with
                      | Grow => x <~ random_random ;; rret (Qlt_bool x (3 # 10))
                      | Full => rret false
                      end r)).
    set (r0 := snd (match m with
                    | Grow => x <~ random_random ;; rret (Qlt_bool x (3 # 10))
                    | Full => rret false
                    end r)).
    assert (Hfull : m = Full -> stop = false) by (intros ->; reflexivity).
    clearbody stop r0. destruct stop.
    + rewrite random_terminal_depth. split; [lia|]. intros Hm.
      specialize (Hfull Hm). discriminate.
    + rewrite rbind_run.
      set (primitive := fst (choice primitives "add" r0)).
      set (r1 := snd (choice primitives "add" r0)).
      clearbody primitive r1.
      rewrite rbind_run. cbn [rret fst depth].
      destruct (random_children
                  (fun c => (depth c <= d)%nat /\ (m = Full -> depth c = d))
                  d m IH (Genetic.get_arity primitive) r1) as [Hlen Hall].
      cbv zeta in Hlen, Hall.
      set (children := fst (_ (Genetic.get_arity primitive) r1)) in *.
      clearbody children. split.
      * apply le_n_S. apply max_depth_children.
        apply Forall_impl with (2 := Hall). tauto.
      * intros Hm. f_equal. apply max_depth_children_exact.
        -- pose proof (genetic_get_arity_pos primitive).
           destruct children; [cbn in Hlen; lia | discriminate].
        -- apply Forall_impl with (2 := Hall). intros c [_ Hc]. now apply Hc.
Qed.

(** X12. A tree [_generate_random_ast] builds is never deeper than
    [max_depth], with the method [full] it has exactly that depth, and
    every [Apply] node in it has the number of children of its arity. *)
Theorem generate_random_ast_shape (max_depth : nat) (m : method) (r : rng) :
  let a := fst (generate_random_ast max_depth m r) in
  (depth a <= max_depth)%nat /\
  (m = Grow \/ depth a = max_depth) /\
  well_formed a = true.
Proof.
  destruct (generate_random_ast_depth max_depth m r) as [Hle Hfull].
  split; [exact Hle|]. split; [|apply generate_random_ast_wf].
  destruct m; [now left | right; now apply Hfull].
Qed.

Lemma initial_individuals_spec (size max_depth i n : nat) (r : rng) :
  let pop := fst (initial_individuals size max_depth i n r) in
  List.length pop = n /\
  forall j op, nth_error pop j = Some op ->
    fitness op = 0%Q /\ age op = 0%nat /\ mutations op = 0%nat /\
    well_formed (op_ast op) = true /\
    (depth (op_ast op) <= max_depth)%nat /\
    ((i + j < size / 2)%nat \/ depth (op_ast op) = max_depth).
Proof.
  revert i r. induction n as [|n IH]; intros i r.
  - split; [reflexivity|]. intros [|j] op H; discriminate.
  - cbv zeta. cbn [initial_individuals]. rewrite !rbind_run.
    set (mth := if (i <? size / 2)%nat then Grow else Full).
    assert (Hmth : (i < size / 2)%nat \/ mth = Full).
    { subst mth. destruct (i <? size / 2)%nat eqn:E; [left | now right].
      now apply Nat.ltb_lt. }
    clearbody mth. cbn [rret fst].
    destruct (IH (S i) (snd (generate_random_ast max_depth mth r))) as [Hlen Hall].
    split; [cbn [List.length]; now rewrite Hlen|].
    intros [|j] op Hop.
    + cbn [nth_error] in Hop. injection Hop as <-.
      cbn [new_operator fitness age mutations op_ast].
      destruct (generate_random_ast_depth max_depth mth r) as [Hle Hfull].
      repeat split; auto using generate_random_ast_wf.
      destruct Hmth as [Hi | Hm]; [left; lia | right; now apply Hfull].
    + cbn [nth_error] in Hop. destruct (Hall j op Hop) as (H1 & H2 & H3 & H4 & H5 & H6).
      repeat split; auto. destruct H6 as [H6 | H6]; [left; lia | now right].
Qed.

(** X13. [initialize_population] makes a population of [population_size]
    fresh individuals (fitness 0, age 0, no mutation) with well-formed trees
    of depth at most [max_depth]; those from index [population_size // 2] on
    have exactly that depth.  It resets nothing else: [best_ever], the
    generation counter and the history are kept. *)
Theorem initialize_population_spec (self : GeneticEvolution) (max_depth : nat)
    (r : rng) :
  let self' := fst (initialize_population self max_depth r) in
  List.length (population self') = population_size self /\
  (forall j op, nth_error (population self') j = Some op ->
     fitness op = 0%Q /\ age op = 0%nat /\ mutations op = 0%nat /\
     well_formed (op_ast op) = true /\
     (depth (op_ast op) <= max_depth)%nat /\
     ((j < population_size self / 2)%nat \/ depth (op_ast op) = max_depth)) /\
  best_ever self' = best_ever self /\
  generation self' = generation self /\
  fitness_history self' = fitness_history self /\
  population_size self' = population_size self.
Proof.
  unfold initialize_population. rewrite rbind_run.
  cbn [rret fst set_population population best_ever generation fitness_history
       population_size].
  destruct (initial_individuals_spec (population_size self) max_depth 0
              (population_size self) r) as [Hlen Hall].
  repeat split; auto; apply (Hall j op H).
Qed.

(** ** Crossover and mutation keep trees well-formed *)

(** X14. Crossover of two parents with well-formed trees gives two children
    with well-formed trees, whatever the crossover points. *)
Theorem crossover_preserves_arity (self : GeneticEvolution)
    (parent1 parent2 : GeneticOperator) (r : rng) :
  well_formed (op_ast parent1) = true ->
  well_formed (op_ast parent2) = true ->
  let children := fst (crossover self parent1 parent2 r) in
  well_formed (op_ast (fst children)) = true /\
  well_formed (op_ast (snd children)) = true.
Proof.
  intros H1 H2 children. subst children.
  unfold crossover. rewrite rbind_run.
  destruct (Qlt_bool _ _); [split; assumption|].
  destruct (get_all_subtrees (op_ast parent1)) eqn:E1; [split; assumption|].
  destruct (get_all_subtrees (op_ast parent2)) eqn:E2; [split; assumption|].
  rewrite <- E1, <- E2, !rbind_run. cbn [rret fst snd new_operator op_ast].
  split; apply replace_subtree_wf; auto using nth_subtree_wf.
Qed.

Lemma crossover_preserves_arity_witness :
  let self := Genetic.init 4 (1 # 10) (7 # 10) 2 in
  let parent1 := new_operator (Apply "add" [Var 0; Var 0]) 0 in
  let parent2 := new_operator (Apply "not" [Const (VInt 1)]) 0 in
  let children := fst (crossover self parent1 parent2 (rng_of_list [0; 2; 1]%N)) in
  well_formed (op_ast (fst children)) = true /\
  well_formed (op_ast (snd children)) = true.
Proof.
  intros self parent1 parent2.
  apply (crossover_preserves_arity self parent1 parent2); reflexivity.
Defined.

(** X15. Subtree mutation and hoist mutation of a well-formed tree give a
    well-formed tree. *)
Theorem subtree_and_hoist_preserve_arity (a : ast) (r : rng) :
  well_formed a = true ->
  well_formed (fst (mutate_ast Subtree a r)) = true /\
  well_formed (fst (mutate_ast Hoist a r)) = true.
Proof.
  intros Hwf. split.
  - cbn [mutate_ast]. destruct (get_all_subtrees a) eqn:E; [exact Hwf|].
    rewrite !rbind_run. cbn [rret fst].
    apply replace_subtree_wf; auto using generate_random_ast_wf.
  - cbn [mutate_ast]. destruct (1 <? _)%nat; [|exact Hwf].
    unfold choice. rewrite rbind_run. cbn [rret fst].
    pose proof (subtrees_wf a Hwf) as Hall. rewrite Forall_forall in Hall.
    destruct (nth_in_or_default
                (fst (choice_index (List.length (tl (get_all_subtrees a))) r))
                (tl (get_all_subtrees a)) a) as [Hin | ->]; auto.
    apply Hall. destruct (get_all_subtrees a); [contradiction|]. now right.
Qed.

Lemma subtree_and_hoist_preserve_arity_witness :
  let a := Apply "if" [Var 0; Apply "not" [Var 1]; Const (VInt 2)] in
  let r := rng_of_list [4; 9; 1; 7; 3]%N in
  well_formed (fst (mutate_ast Subtree a r)) = true /\
  well_formed (fst (mutate_ast Hoist a r)) = true.
Proof.
  intros a r. apply (subtree_and_hoist_preserve_arity a r). reflexivity.
Defined.

(** ** Selection and the generational loop *)

Lemma choice_index_lt (len : nat) (r : rng) :
  (0 < len)%nat -> (fst (choice_index len r) < len)%nat.
Proof.
  intros Hlen. unfold choice_index. rewrite rbind_run. cbn [rret fst].
  assert (N.of_nat len <> 0%N) by lia.
  pose proof (N.mod_upper_bound (fst (draw r)) (N.of_nat len)). lia.
Qed.

Lemma remove_nth_In {A : Type} (i : nat) (l : list A) (x : A) :
  In x (remove_nth i l) -> In x l.
Proof.
  revert i. induction l as [|y l IH]; intros i; [destruct i; intros []|].
  destruct i as [|i]; cbn [remove_nth].
  - intros H. now right.
  - intros [<- | H]; [now left | right; eauto].
Qed.

Lemma remove_nth_length {A : Type} (i : nat) (l : list A) :
  (i < List.length l)%nat -> List.length (remove_nth i l) = (List.length l - 1)%nat.
Proof.
  revert i. induction l as [|y l IH]; intros i Hi; [cbn in Hi; lia|].
  destruct i as [|i]; cbn [remove_nth List.length]; [lia|].
  cbn [List.length] in Hi. rewrite IH by lia. lia.
Qed.

Lemma sample_loop_spec {A : Type} (k : nat) (pool : list A) (r : rng) :
  List.length (fst (sample_loop k pool r)) = Nat.min k (List.length pool) /\
  forall x, In x (fst (sample_loop k pool r)) -> In x pool.
Proof.
  revert pool r. induction k as [|k IH]; intros pool r.
  - split; [reflexivity | intros x []].
  - cbn [sample_loop]. destruct pool as [|y pool'] eqn:Epool.
    + split; [reflexivity | intros x []].
    + rewrite <- Epool. rewrite !rbind_run. cbn [rret fst].
      set (i := fst (choice_index (List.length pool) r)).
      assert (Hi : (i < List.length pool)%nat)
        by (apply choice_index_lt; subst pool; cbn; lia).
      destruct (IH (remove_nth i pool) (snd (choice_index (List.length pool) r)))
        as [Hlen Hin].
      split.
      * cbn [List.length]. rewrite Hlen, remove_nth_length by exact Hi. lia.
      * intros x [<- | Hx].
        -- apply nth_In. exact Hi.
        -- apply (remove_nth_In i). now apply Hin.
Qed.

Lemma selection_None (self : GeneticEvolution) (r : rng) :
  fst (selection self r) = None <-> selection_fails self.
Proof.
  unfold selection, sample, selection_fails. rewrite rbind_run.
  destruct (List.length (population self) <? tournament_size self)%nat eqn:E.
  - apply Nat.ltb_lt in E. cbn. tauto.
  - apply Nat.ltb_ge in E. rewrite rbind_run. cbn [rret fst obind].
    destruct (sample_loop_spec (tournament_size self) (population self) r) as [Hlen _].
    destruct (fst (sample_loop _ _ r)) as [|x l]; cbn [max_by_fitness].
    + cbn in Hlen. split; [intros _; right; lia | reflexivity].
    + cbn in Hlen. split; [discriminate | intros [H | H]; lia].
Qed.

Lemma selection_In (self : GeneticEvolution) (r : rng) (op : GeneticOperator) :
  fst (selection self r) = Some op -> In op (population self).
Proof.
  unfold selection, sample. rewrite rbind_run.
  destruct (List.length (population self) <? tournament_size self)%nat;
    [discriminate|].
  rewrite rbind_run. cbn [rret fst obind]. intros H.
  apply max_by_fitness_In in H.
  now apply (sample_loop_spec (tournament_size self) (population self) r).
Qed.

Lemma fold_max_ge (rest : list GeneticOperator) (first : GeneticOperator) :
  forall op, In op (first :: rest) ->
    (fitness op
     <= fitness (fold_left
                   (fun best op => if Qlt_bool (fitness best) (fitness op) then op else best)
                   rest first))%Q.
Proof.
  revert first. induction rest as [|x rest IH]; intros first op Hop.
  - destruct Hop as [<- | []]. apply Qle_refl.
  - cbn [fold_left]. destruct (Qlt_bool (fitness first) (fitness x)) eqn:E.
    + destruct Hop as [<- | Hop].
      * apply Qle_trans with (fitness x).
        -- apply Qlt_le_weak. now apply Qlt_bool_iff.
        -- apply IH. now left.
      * apply IH. exact Hop.
    + destruct Hop as [<- | [<- | Hop]].
      * apply IH. now left.
      * apply Qle_trans with (fitness first).
        -- apply Qnot_lt_le. intros H. apply Qlt_bool_iff in H. congruence.
        -- apply IH. now left.
      * apply IH. now right.
Qed.

Lemma max_by_fitness_ge (ops : list GeneticOperator) (best op : GeneticOperator) :
  max_by_fitness ops = Some best -> In op ops -> (fitness op <= fitness best)%Q.
Proof.
  destruct ops as [|first rest]; [discriminate|].
  intros [= <-] Hin. now apply fold_max_ge.
Qed.

(** X16. [selection] returns an individual of the population, and it raises
    exactly when the tournament is larger than the population or of size
    zero, whatever the random draws. *)
Theorem selection_spec (self : GeneticEvolution) (r : rng) :
  (fst (selection self r) = None <->
   (List.length (population self) < tournament_size self)%nat
   \/ tournament_size self = 0%nat) /\
  (forall op, fst (selection self r) = Some op -> In op (population self)).
Proof.
  split; [apply selection_None | apply selection_In].
Qed.

Lemma fill_spec (self : GeneticEvolution) (remaining : nat) :
  forall (new_population : list GeneticOperator) (r : rng),
    (remaining = 0%nat -> fst (fill self remaining new_population r) = Some new_population)
    /\
    ((1 <= remaining)%nat -> selection_fails self ->
     fst (fill self remaining new_population r) = None)
    /\
    (~ selection_fails self ->
     exists rest,
       fst (fill self remaining new_population r) = Some (new_population ++ rest) /\
       List.length rest = remaining /\
       Forall (fun child => age child = 0%nat) rest).
Proof.
  induction remaining as [remaining IH] using lt_wf_ind. intros new_population r.
  destruct remaining as [|k].
  - cbn [fill rret fst]. split; [reflexivity|]. split; [lia|].
    intros _. exists []. rewrite app_nil_r. repeat split. constructor.
  - split; [discriminate|]. cbn [fill]. rewrite rbind_run.
    destruct (fst (selection self r)) as [parent1|] eqn:E1.
    + assert (Hok : ~ selection_fails self).
      { intros Hf. apply (selection_None self r) in Hf. congruence. }
      split; [intros _ Hf; contradiction|]. intros _.
      rewrite rbind_run.
      destruct (fst (selection self (snd (selection self r)))) as [parent2|] eqn:E2.
      * rewrite !rbind_run.
        set (r2 := snd (selection self (snd (selection self r)))).
        set (children := fst (crossover self parent1 parent2 r2)).
        set (r3 := snd (crossover self parent1 parent2 r2)).
        set (child1 := fst (mutate self (fst children) r3)).
        set (r4 := snd (mutate self (fst children) r3)).
        set (child2 := fst (mutate self (snd children) r4)).
        set (r5 := snd (mutate self (snd children) r4)).
        destruct k as [|k'].
        -- cbn [rret fst]. exists [set_age child1 0]. repeat split.
           repeat constructor.
        -- destruct (IH k' ltac:(lia)
                       (new_population ++ [set_age child1 0; set_age child2 0]) r5)
             as (_ & _ & Hrest).
           destruct (Hrest Hok) as (rest & Hfill & Hlen & Hage).
           exists (set_age child1 0 :: set_age child2 0 :: rest).
           rewrite Hfill, <- app_assoc. cbn [app List.length].
           repeat split; [lia|]. repeat constructor. exact Hage.
      * exfalso. apply Hok. now apply (selection_None self (snd (selection self r))).
    + assert (Hf : selection_fails self) by now apply (selection_None self r).
      cbn [rret fst]. split; [reflexivity|]. intros Hok. contradiction.
Qed.

Lemma selection_fails_dec (self : GeneticEvolution) :
  selection_fails self \/ ~ selection_fails self.
Proof. unfold selection_fails. lia. Qed.

Lemma evaluate_fitness_None (self : GeneticEvolution) (ff : ast -> option Q) :
  evaluate_fitness self ff = None <-> population self = [].
Proof.
  unfold evaluate_fitness. destruct (population self) as [|x l]; cbn.
  - tauto.
  - split; discriminate.
Qed.

Lemma evaluate_fitness_fields (self self1 : GeneticEvolution) (ff : ast -> option Q) :
  evaluate_fitness self ff = Some self1 ->
  population self1 = map (evaluate_individual ff) (population self) /\
  population_size self1 = population_size self /\
  tournament_size self1 = tournament_size self /\
  generation self1 = generation self /\
  List.length (fitness_history self1) = S (List.length (fitness_history self)).
Proof.
  unfold evaluate_fitness. destruct (max_by_fitness _); [|discriminate].
  intros [= <-]. cbn. rewrite length_app. cbn. repeat split. lia.
Qed.

Lemma evolve_generation_raised_iff (self : GeneticEvolution)
    (fitness_function : ast -> option Q) (r : rng) :
  snd (fst (evolve_generation self fitness_function r)) = Raised <->
  population self = [] \/
  ((2 <= population_size self)%nat /\
   ((List.length (population self) < tournament_size self)%nat
    \/ tournament_size self = 0%nat)).
Proof.
  unfold evolve_generation.
  destruct (evaluate_fitness self fitness_function) as [self1|] eqn:E.
  - assert (Hne : population self <> []).
    { intros H. apply (evaluate_fitness_None self fitness_function) in H. congruence. }
    destruct (evaluate_fitness_fields _ _ _ E) as (Hpop & Hsize & Htour & _ & _).
    assert (Hfails : selection_fails self1 <->
                     (List.length (population self) < tournament_size self)%nat
                     \/ tournament_size self = 0%nat).
    { unfold selection_fails. now rewrite Hpop, length_map, Htour. }
    destruct (max_by_fitness (population self1)) as [best|] eqn:Emax.
    + rewrite rbind_run, Hsize.
      destruct (fill_spec self1 (population_size self - 1) [best] r)
        as (Hzero & Hfail & Hok).
      destruct (Nat.le_gt_cases (population_size self) 1) as [Hle | Hgt].
      * rewrite Hzero by lia. cbn [rret fst snd].
        split; [discriminate|]. intros [H | [H _]]; [contradiction | lia].
      * destruct (selection_fails_dec self1) as [Hf | Hnf].
        -- rewrite Hfail by (auto; lia). cbn [rret fst snd].
           split; [intros _; right; split; [lia | now apply Hfails] | reflexivity].
        -- destruct (Hok Hnf) as (rest & Hfill & _). rewrite Hfill. cbn [rret fst snd].
           split; [discriminate|].
           intros [H | [_ H]]; [contradiction|]. apply Hfails in H. contradiction.
    + exfalso. rewrite Hpop in Emax. destruct (population self); [contradiction|].
      discriminate.
  - apply evaluate_fitness_None in E. cbn [rret fst snd]. tauto.
Qed.

(** X17. [evolve_generation] raises exactly when the population is empty,
    or when [population_size] is at least 2 and no tournament can be held
    (the tournament is larger than the population, or of size zero); the
    random draws play no part in it. *)
Theorem evolve_generation_raises (self : GeneticEvolution)
    (fitness_function : ast -> option Q) (r : rng) :
  snd (fst (evolve_generation self fitness_function r)) = Raised <->
  population self = [] \/
  ((2 <= population_size self)%nat /\
   ((List.length (population self) < tournament_size self)%nat
    \/ tournament_size self = 0%nat)).
Proof. apply evolve_generation_raised_iff. Qed.

Lemma evolve_generation_new_population (self : GeneticEvolution)
    (fitness_function : ast -> option Q) (r : rng) :
  let self' := fst (fst (evolve_generation self fitness_function r)) in
  let evaluated := map (evaluate_individual fitness_function) (population self) in
  snd (fst (evolve_generation self fitness_function r)) = Completed ->
  List.length (population self') = Nat.max 1 (population_size self) /\
  generation self' = S (generation self) /\
  exists elite others,
    population self' = elite :: others /\
    max_by_fitness evaluated = Some elite /\
    In elite evaluated /\
    (forall op, In op evaluated -> (fitness op <= fitness elite)%Q) /\
    Forall (fun child => age child = 0%nat) others.
Proof.
  cbv zeta. unfold evolve_generation.
  destruct (evaluate_fitness self fitness_function) as [self1|] eqn:E;
    [|cbn; discriminate].
  destruct (evaluate_fitness_fields _ _ _ E) as (Hpop & Hsize & Htour & Hgen & _).
  destruct (max_by_fitness (population self1)) as [best|] eqn:Emax;
    [|cbn; discriminate].
  rewrite rbind_run.
  destruct (fill_spec self1 (population_size self1 - 1) [best] r)
    as (_ & Hfail & Hok).
  destruct (selection_fails_dec self1) as [Hf | Hnf].
  - destruct (Nat.le_gt_cases (population_size self1) 1) as [Hle | Hgt].
    + destruct (fill_spec self1 (population_size self1 - 1) [best] r) as (Hzero & _).
      rewrite Hzero by lia. cbn [rret fst snd population generation]. intros _.
      rewrite Hgen, <- Hsize, <- Hpop. split; [cbn [List.length]; lia|].
      split; [reflexivity|].
      exists best, []. repeat split; auto.
      * now apply max_by_fitness_In.
      * intros op Hop. now apply (max_by_fitness_ge (population self1)).
    + rewrite Hfail by (auto; lia). cbn. discriminate.
  - destruct (Hok Hnf) as (rest & Hfill & Hlen & Hage). rewrite Hfill.
    cbn [rret fst snd population generation app]. intros _.
    rewrite Hgen, <- Hsize, <- Hpop. split; [cbn [List.length]; lia|].
    split; [reflexivity|].
    exists best, rest. repeat split; auto.
    + now apply max_by_fitness_In.
    + intros op Hop. now apply (max_by_fitness_ge (population self1)).
Qed.

(** X18. When [evolve_generation] returns, the new population has
    [population_size] individuals (one, when [population_size] is zero), the
    generation counter has grown by one, and the first individual is the
    elite: the first individual of highest fitness of the old population as
    just evaluated, with its fitness kept; all the others have age 0. *)
Theorem evolve_generation_completed (self : GeneticEvolution)
    (fitness_function : ast -> option Q) (r : rng) :
  let self' := fst (fst (evolve_generation self fitness_function r)) in
  let evaluated := map (evaluate_individual fitness_function) (population self) in
  snd (fst (evolve_generation self fitness_function r)) = Completed ->
  List.length (population self') = Nat.max 1 (population_size self) /\
  generation self' = S (generation self) /\
  exists elite others,
    population self' = elite :: others /\
    max_by_fitness evaluated = Some elite /\
    In elite evaluated /\
    (forall op, In op evaluated -> (fitness op <= fitness elite)%Q) /\
    Forall (fun child => age child = 0%nat) others.
Proof. apply evolve_generation_new_population. Qed.

Lemma evolve_generation_completed_witness :
  let self :=
    {| population_size := 1; mutation_rate := 1 # 10; crossover_rate := 7 # 10;
       tournament_size := 2;
       population := [new_operator (Var 0) 0; new_operator (Var 2) 0];
       generation := 1; best_ever := None; fitness_history := [] |} in
  let fitness_function := fun a : ast =>
    match a with
    | Var i => Some (inject_Z (Z.of_nat i))
    | _ => Some 0%Q
    end in
  let self' := fst (fst (evolve_generation self fitness_function (rng_of_list []))) in
  List.length (population self') = 1%nat /\ generation self' = 2%nat.
Proof.
  intros self fitness_function self'.
  destruct (evolve_generation_completed self fitness_function (rng_of_list []))
    as (Hlen & Hgen & _); [reflexivity|].
  split; [exact Hlen | exact Hgen].
Defined.

Lemma evaluate_fitness_best_value (self self1 : GeneticEvolution)
    (ff : ast -> option Q) :
  evaluate_fitness self ff = Some self1 ->
  exists best_current,
    max_by_fitness (population self1) = Some best_current /\
    best_ever self1
    = Some match best_ever self with
           | None => best_current
           | Some b =>
               if Qlt_bool (fitness b) (fitness best_current) then best_current else b
           end.
Proof.
  unfold evaluate_fitness.
  destruct (max_by_fitness (map (evaluate_individual ff) (population self)))
    as [best_current|] eqn:Emax; [|discriminate].
  intros [= <-]. cbn [population best_ever]. exists best_current. auto.
Qed.

(** X19. [evaluate_fitness] gives every individual the value of the fitness
    function on its tree, [0] when the function raises, and leaves its tree
    alone; afterwards no individual of the population is fitter than
    [best_ever].  It raises exactly on an empty population. *)
Theorem evaluate_fitness_spec (self : GeneticEvolution)
    (fitness_function : ast -> option Q) :
  match evaluate_fitness self fitness_function with
  | None => population self = []
  | Some self1 =>
      population self <> [] /\
      population self1 = map (evaluate_individual fitness_function) (population self) /\
      (forall op, In op (population self1) ->
         fitness op = match fitness_function (op_ast op) with
                      | Some f => f
                      | None => 0%Q
                      end) /\
      map op_ast (population self1) = map op_ast (population self) /\
      exists b, best_ever self1 = Some b /\
        forall op, In op (population self1) -> (fitness op <= fitness b)%Q
  end.
Proof.
  destruct (evaluate_fitness self fitness_function) as [self1|] eqn:E;
    [|now apply evaluate_fitness_None in E].
  assert (Hne : population self <> []).
  { intros H. apply (evaluate_fitness_None self fitness_function) in H. congruence. }
  destruct (evaluate_fitness_fields _ _ _ E) as (Hpop & _).
  split; [exact Hne|]. split; [exact Hpop|]. split; [|split].
  - intros op Hop. rewrite Hpop in Hop. apply in_map_iff in Hop.
    destruct Hop as (old & <- & _). reflexivity.
  - rewrite Hpop, map_map. reflexivity.
  - destruct (evaluate_fitness_best_value _ _ _ E) as (best_current & Emax & Hbest).
    pose proof (fun op => max_by_fitness_ge _ _ op Emax) as Hmax.
    rewrite Hbest. destruct (best_ever self) as [b|].
    + destruct (Qlt_bool (fitness b) (fitness best_current)) eqn:Elt.
      * exists best_current. split; [reflexivity|]. intros op Hop. now apply Hmax.
      * exists b. split; [reflexivity|]. intros op Hop.
        apply Qle_trans with (fitness best_current); [now apply Hmax|].
        apply Qnot_lt_le. intros H. apply Qlt_bool_iff in H. congruence.
    + exists best_current. split; [reflexivity|]. intros op Hop. now apply Hmax.
Qed.

(** ** Runs of several generations *)

Lemma evaluate_fitness_consistent (ff : ast -> option Q)
    (self self1 : GeneticEvolution) :
  best_ever_consistent ff self ->
  evaluate_fitness self ff = Some self1 ->
  best_ever_consistent ff self1.
Proof.
  intros HJ E b Hb.
  destruct (evaluate_fitness_best_value _ _ _ E) as (best_current & Emax & Hbest).
  destruct (evaluate_fitness_fields _ _ _ E) as (Hpop & _).
  assert (Hcur : fitness best_current
                 = match ff (op_ast best_current) with Some f => f | None => 0%Q end).
  { apply max_by_fitness_In in Emax. rewrite Hpop in Emax.
    apply in_map_iff in Emax. destruct Emax as (old & <- & _). reflexivity. }
  rewrite Hbest in Hb. injection Hb as <-.
  destruct (best_ever self) as [b0|] eqn:E0; [|exact Hcur].
  destruct (Qlt_bool (fitness b0) (fitness best_current)); [exact Hcur|].
  now apply HJ.
Qed.

Lemma evolve_generation_fields (self : GeneticEvolution) (ff : ast -> option Q)
    (r : rng) :
  let self' := fst (fst (evolve_generation self ff r)) in
  population_size self' = population_size self /\
  tournament_size self' = tournament_size self.
Proof.
  cbv zeta. unfold evolve_generation.
  destruct (evaluate_fitness self ff) as [self1|] eqn:E; [|split; reflexivity].
  destruct (evaluate_fitness_fields _ _ _ E) as (_ & Hsize & Htour & _).
  destruct (max_by_fitness (population self1)); [|now split].
  rewrite rbind_run. destruct (fst (fill _ _ _ _)); now split.
Qed.

Lemma evolve_generation_consistent (ff : ast -> option Q) (self : GeneticEvolution)
    (r : rng) :
  best_ever_consistent ff self ->
  best_ever_consistent ff (fst (fst (evolve_generation self ff r))).
Proof.
  intros HJ. pose proof (evolve_generation_best_ever self ff r) as H.
  cbv zeta in H. destruct H as [[_ ->] | (self1 & E & Hbest)]; [exact HJ|].
  intros b Hb. rewrite Hbest in Hb.
  now apply (evaluate_fitness_consistent ff self self1 HJ E).
Qed.

Lemma evolve_generation_sets_best (ff : ast -> option Q) (self : GeneticEvolution)
    (r : rng) :
  snd (fst (evolve_generation self ff r)) = Completed ->
  best_ever (fst (fst (evolve_generation self ff r))) <> None.
Proof.
  intros Hc. pose proof (evolve_generation_best_ever self ff r) as H.
  cbv zeta in H. destruct H as [[E _] | (self1 & E & Hbest)].
  - unfold evolve_generation in Hc. rewrite E in Hc. discriminate.
  - rewrite Hbest. destruct (evaluate_fitness_best_value _ _ _ E) as (bc & _ & ->).
    discriminate.
Qed.

Lemma evolve_generation_keeps_best (ff : ast -> option Q) (self : GeneticEvolution)
    (r : rng) :
  best_ever self <> None ->
  best_ever (fst (fst (evolve_generation self ff r))) <> None.
Proof.
  intros Hb. pose proof (evolve_generation_best_ever self ff r) as H.
  cbv zeta in H. destruct H as [[_ ->] | (self1 & E & Hbest)]; [exact Hb|].
  rewrite Hbest. destruct (evaluate_fitness_best_value _ _ _ E) as (bc & _ & ->).
  discriminate.
Qed.

Lemma run_evolution_consistent (ff : ast -> option Q) (generations : nat) :
  forall (self : GeneticEvolution) (r : rng),
    best_ever_consistent ff self ->
    best_ever_consistent ff (fst (fst (run_evolution self ff generations r))).
Proof.
  induction generations as [|g IH]; intros self r HJ; [exact HJ|].
  cbn [run_evolution]. rewrite rbind_run.
  pose proof (evolve_generation_consistent ff self r HJ) as HJ'.
  destruct (snd (fst (evolve_generation self ff r))); [|exact HJ'].
  now apply IH.
Qed.

Lemma run_evolution_best (ff : ast -> option Q) (generations : nat) :
  forall (self : GeneticEvolution) (r : rng),
    snd (fst (run_evolution self ff generations r)) = Completed ->
    (1 <= generations)%nat \/ best_ever self <> None ->
    best_ever (fst (fst (run_evolution self ff generations r))) <> None.
Proof.
  induction generations as [|g IH]; intros self r Hc Hb.
  - destruct Hb as [Hb | Hb]; [lia | exact Hb].
  - cbn [run_evolution] in *. rewrite rbind_run in *.
    destruct (snd (fst (evolve_generation self ff r))) eqn:E.
    + apply IH; [exact Hc|]. right. now apply evolve_generation_sets_best.
    + cbn [rret fst] in Hc. rewrite E in Hc. discriminate Hc.
Qed.

Lemma can_evolve_iff (self : GeneticEvolution) (ff : ast -> option Q) (r : rng) :
  snd (fst (evolve_generation self ff r)) = Completed <-> can_evolve self.
Proof.
  pose proof (evolve_generation_raised_iff self ff r) as H. unfold can_evolve.
  destruct (snd (fst (evolve_generation self ff r))).
  - split; [intros _ | reflexivity].
    split.
    + intros Hp. assert (Hx : Completed = Raised) by (apply H; now left).
      discriminate Hx.
    + destruct (Nat.le_gt_cases (population_size self) 1) as [Hle | Hgt]; [now left|].
      right. destruct (Nat.le_gt_cases (tournament_size self)
                         (List.length (population self))) as [H1 | H1].
      * split; [exact H1|].
        destruct (tournament_size self) eqn:Et; [|lia].
        assert (Hx : Completed = Raised)
          by (apply H; right; split; [lia | now right]).
        discriminate Hx.
      * assert (Hx : Completed = Raised)
          by (apply H; right; split; [lia | now left]).
        discriminate Hx.
  - split; [discriminate|]. intros [Hne Hcase].
    assert (HR : Raised = Raised) by reflexivity. apply H in HR.
    destruct HR as [HR | [H2 HR]]; [contradiction|].
    destruct Hcase as [Hc | [Hc1 Hc2]]; lia.
Qed.

Lemma can_evolve_step (self : GeneticEvolution) (ff : ast -> option Q) (r : rng) :
  List.length (population self) = population_size self ->
  can_evolve self ->
  let self' := fst (fst (evolve_generation self ff r)) in
  List.length (population self') = population_size self' /\ can_evolve self'.
Proof.
  intros Hlen Hcan. cbv zeta.
  assert (Hc : snd (fst (evolve_generation self ff r)) = Completed)
    by now apply can_evolve_iff.
  destruct (evolve_generation_new_population self ff r Hc)
    as (Hlen' & _ & elite & others & Hpop & _).
  destruct (evolve_generation_fields self ff r) as [Hsize Htour].
  cbv zeta in *. unfold can_evolve in *. rewrite Hsize, Htour, Hlen'.
  destruct Hcan as [Hne Hcase]. rewrite Hlen in Hcase.
  assert (1 <= population_size self)%nat.
  { destruct (population self); [contradiction|]. cbn in Hlen. lia. }
  split; [lia|]. split; [rewrite Hpop; discriminate|].
  destruct Hcase as [Hc1 | Hc2]; [now left | right; lia].
Qed.

Lemma run_evolution_completes (ff : ast -> option Q) (generations : nat) :
  forall (self : GeneticEvolution) (r : rng),
    List.length (population self) = population_size self ->
    can_evolve self ->
    snd (fst (run_evolution self ff generations r)) = Completed.
Proof.
  induction generations as [|g IH]; intros self r Hlen Hcan; [reflexivity|].
  cbn [run_evolution]. rewrite rbind_run.
  assert (Hc : snd (fst (evolve_generation self ff r)) = Completed)
    by now apply can_evolve_iff.
  rewrite Hc. destruct (can_evolve_step self ff r Hlen Hcan) as [Hlen' Hcan'].
  now apply IH.
Qed.

Lemma run_evolution_raised_iff (self : GeneticEvolution)
    (fitness_function : ast -> option Q) (generations : nat) (r : rng) :
  List.length (population self) = population_size self ->
  (1 <= generations)%nat ->
  let run := fst (run_evolution self fitness_function generations r) in
  (snd run = Raised <->
   population_size self = 0%nat \/
   ((2 <= population_size self)%nat /\
    ((population_size self < tournament_size self)%nat
     \/ tournament_size self = 0%nat))) /\
  (snd run = Raised \/ best_ever (fst run) <> None).
Proof.
  intros Hlen Hgen run. subst run.
  destruct generations as [|g]; [lia|].
  assert (Hfirst : snd (fst (evolve_generation self fitness_function r)) = Raised <->
                   population_size self = 0%nat \/
                   ((2 <= population_size self)%nat /\
                    ((population_size self < tournament_size self)%nat
                     \/ tournament_size self = 0%nat))).
  { rewrite evolve_generation_raised_iff, Hlen.
    split; (intros [H | H]; [left | now right]).
    - rewrite <- Hlen, H. reflexivity.
    - apply length_zero_iff_nil. lia. }
  split.
  - cbn [run_evolution]. rewrite rbind_run.
    destruct (snd (fst (evolve_generation self fitness_function r))) eqn:E.
    + assert (Hcan : can_evolve self) by now apply (can_evolve_iff self fitness_function r).
      destruct (can_evolve_step self fitness_function r Hlen Hcan) as [Hlen' Hcan'].
      rewrite (run_evolution_completes fitness_function g _ _ Hlen' Hcan').
      rewrite <- Hfirst. split; discriminate.
    + cbn [rret fst]. rewrite E. exact Hfirst.
  - destruct (snd (fst (run_evolution self fitness_function (S g) r))) eqn:E;
      [right | now left].
    apply run_evolution_best; [exact E | left; lia].
Qed.

Lemma evolve_generation_counters (self : GeneticEvolution) (ff : ast -> option Q)
    (r : rng) :
  let step := fst (evolve_generation self ff r) in
  match snd step with
  | Completed =>
      generation (fst step) = S (generation self) /\
      List.length (fitness_history (fst step))
      = S (List.length (fitness_history self))
  | Raised => generation (fst step) = generation self
  end.
Proof.
  cbv zeta. unfold evolve_generation.
  destruct (evaluate_fitness self ff) as [self1|] eqn:E; [|reflexivity].
  destruct (evaluate_fitness_fields _ _ _ E) as (_ & _ & _ & Hgen & Hhist).
  destruct (max_by_fitness (population self1)); [|exact Hgen].
  rewrite rbind_run. destruct (fst (fill _ _ _ _)); cbn [rret fst snd].
  - cbn [generation fitness_history]. now rewrite Hgen, Hhist.
  - exact Hgen.
Qed.

Lemma run_evolution_counters (ff : ast -> option Q) (generations : nat) :
  forall (self : GeneticEvolution) (r : rng),
    List.length (population self) = population_size self ->
    can_evolve self ->
    let final := fst (fst (run_evolution self ff generations r)) in
    generation final = (generation self + generations)%nat /\
    List.length (fitness_history final)
    = (List.length (fitness_history self) + generations)%nat /\
    List.length (population final) = population_size self.
Proof.
  induction generations as [|g IH]; intros self r Hlen Hcan; cbv zeta.
  - cbn [run_evolution rret fst]. repeat split; auto.
  - cbn [run_evolution]. rewrite rbind_run.
    assert (Hc : snd (fst (evolve_generation self ff r)) = Completed)
      by now apply can_evolve_iff.
    pose proof (evolve_generation_counters self ff r) as Hcount.
    cbv zeta in Hcount. rewrite Hc in *. destruct Hcount as [Hgen Hhist].
    destruct (can_evolve_step self ff r Hlen Hcan) as [Hlen' Hcan'].
    destruct (evolve_generation_fields self ff r) as [Hsize _].
    cbv zeta in *.
    destruct (IH _ (snd (evolve_generation self ff r)) Hlen' Hcan')
      as (IHgen & IHhist & IHpop).
    rewrite IHgen, IHhist, IHpop, Hgen, Hhist, Hsize. repeat split; lia.
Qed.

(** X20. For an engine whose population has [population_size] individuals,
    [run_evolution] over at least one generation raises exactly when
    [population_size] is zero, or when [population_size] is at least 2 and
    the tournament is larger than the population or of size zero; it then
    raises in the first generation, and the generation counter is unchanged.
    Otherwise every generation is run: the generation counter has grown by
    [generations], [fitness_history] has one more entry for each of them,
    the population still has [population_size] individuals, and [best_ever]
    is set. *)
Theorem run_evolution_raises (self : GeneticEvolution)
    (fitness_function : ast -> option Q) (generations : nat) (r : rng) :
  List.length (population self) = population_size self ->
  (1 <= generations)%nat ->
  let run := fst (run_evolution self fitness_function generations r) in
  (snd run = Raised <->
   population_size self = 0%nat \/
   ((2 <= population_size self)%nat /\
    ((population_size self < tournament_size self)%nat
     \/ tournament_size self = 0%nat))) /\
  (snd run = Raised -> generation (fst run) = generation self) /\
  (snd run = Completed ->
   generation (fst run) = (generation self + generations)%nat /\
   List.length (fitness_history (fst run))
   = (List.length (fitness_history self) + generations)%nat /\
   List.length (population (fst run)) = population_size self /\
   best_ever (fst run) <> None).
Proof.
  intros Hlen Hgen run.
  split; [apply (run_evolution_raised_iff self fitness_function generations r Hlen Hgen)|].
  subst run. destruct generations as [|g]; [lia|].
  pose proof (evolve_generation_counters self fitness_function r) as Hcount.
  cbv zeta in Hcount.
  destruct (snd (fst (evolve_generation self fitness_function r))) eqn:E.
  - assert (Hcan : can_evolve self) by now apply (can_evolve_iff self fitness_function r).
    pose proof (run_evolution_completes fitness_function (S g) self r Hlen Hcan) as Hc.
    split.
    + intros Hr. rewrite Hc in Hr. discriminate Hr.
    + intros _.
      destruct (run_evolution_counters fitness_function (S g) self r Hlen Hcan)
        as (H1 & H2 & H3).
      split; [exact H1|]. split; [exact H2|]. split; [exact H3|].
      apply run_evolution_best; [exact Hc | left; lia].
  - assert (Hrun : fst (run_evolution self fitness_function (S g) r)
                   = fst (evolve_generation self fitness_function r)).
    { cbn [run_evolution]. rewrite rbind_run, E. reflexivity. }
    rewrite Hrun, E. split; [intros _; exact Hcount | discriminate].
Qed.

(** Three generations of an engine of one individual. *)
Lemma run_evolution_raises_witness :
  let self :=
    {| population_size := 1; mutation_rate := 1 # 10; crossover_rate := 7 # 10;
       tournament_size := 5;
       population := [new_operator (Var 0) 0];
       generation := 0; best_ever := None; fitness_history := [] |} in
  let run := fst (run_evolution self (fun _ => Some 1%Q) 3 (rng_of_list [])) in
  snd run = Completed /\ generation (fst run) = 3%nat /\
  List.length (fitness_history (fst run)) = 3%nat.
Proof.
  intros self run.
  destruct (run_evolution_raises self (fun _ => Some 1%Q) 3 (rng_of_list []))
    as (_ & _ & H); [reflexivity | lia |].
  assert (Hc : snd run = Completed) by reflexivity.
  destruct (H Hc) as (H1 & H2 & _). auto.
Defined.

(** ** Genetic synthesis ([agi_runtime.py]) *)

Lemma count_matches_bound (func : callable) (examples : list IOExample) :
  (Runtime.count_matches func examples <= List.length examples)%nat.
Proof.
  induction examples as [|ex rest IH]; cbn [Runtime.count_matches List.length]; [lia|].
  destruct (func (inputs ex)) as [v|]; [destruct (py_eq v (output ex))|]; lia.
Qed.

Lemma count_matches_all (func : callable) (examples : list IOExample) :
  Runtime.count_matches func examples = List.length examples <->
  Forall (satisfies func) examples.
Proof.
  induction examples as [|ex rest IH]; cbn [Runtime.count_matches List.length].
  - split; [constructor | reflexivity].
  - pose proof (count_matches_bound func rest) as Hb. unfold satisfies at 1. split.
    + intros H. destruct (func (inputs ex)) as [v|] eqn:E; [|lia].
      destruct (py_eq v (output ex)) eqn:Eq; [|lia].
      constructor; [exists v; auto | apply IH; lia].
    + intros H. apply Forall_cons_iff in H. destruct H as [(v & Hv & Heq) Hrest].
      rewrite Hv, Heq. apply IH in Hrest. lia.
Qed.

(** X21. The fitness [fitness_func] gives a tree is at most the number of
    examples; it is [0] for a tree that does not compile, and for a tree that
    compiles it is the number of examples exactly when the compiled function
    returns the expected output on every example. *)
Theorem fitness_func_spec (ops : dict callable) (examples : list IOExample) (a : ast) :
  (Runtime.fitness_func ops examples a <= List.length examples)%nat /\
  match compile_ast ops a with
  | None => Runtime.fitness_func ops examples a = 0%nat
  | Some func =>
      Runtime.fitness_func ops examples a = List.length examples <->
      Forall (satisfies func) examples
  end.
Proof.
  unfold Runtime.fitness_func. destruct (compile_ast ops a) as [func|].
  - split; [apply count_matches_bound | apply count_matches_all].
  - split; [lia | reflexivity].
Qed.

Lemma py_int_inject_Z (z : Z) : Runtime.py_int (inject_Z z) = z.
Proof. unfold Runtime.py_int. cbn. apply Z.quot_1_r. Qed.

Lemma Qlt_bool_inject_Z (n : nat) :
  Qlt_bool 0 (inject_Z (Z.of_nat n)) = (0 <? n)%nat.
Proof.
  destruct (0 <? n)%nat eqn:E.
  - apply Qlt_bool_iff. apply Nat.ltb_lt in E. change 0%Q with (inject_Z 0).
    rewrite <- Zlt_Qlt. lia.
  - apply Nat.ltb_ge in E. destruct (Qlt_bool 0 (inject_Z (Z.of_nat n))) eqn:E'; auto.
    apply Qlt_bool_iff in E'. change 0%Q with (inject_Z 0) in E'.
    rewrite <- Zlt_Qlt in E'. lia.
Qed.

Lemma Qeq_bool_inject_Z (n m : nat) :
  Qeq_bool (inject_Z (Z.of_nat n)) (inject_Z (Z.of_nat m)) = (n =? m)%nat.
Proof.
  destruct (n =? m)%nat eqn:E.
  - apply Nat.eqb_eq in E. subst. apply Qeq_bool_iff. reflexivity.
  - apply Nat.eqb_neq in E.
    destruct (Qeq_bool (inject_Z (Z.of_nat n)) (inject_Z (Z.of_nat m))) eqn:E'; auto.
    apply Qeq_bool_iff in E'.
    apply (proj1 (inject_Z_injective (Z.of_nat n) (Z.of_nat m))) in E'. lia.
Qed.

(** The conversion of a best individual whose recorded fitness is the value
    of [fitness_func] on its tree. *)
Lemma to_program_consistent (ops : dict callable) (examples : list IOExample)
    (best : GeneticOperator) :
  fitness best
  = inject_Z (Z.of_nat (Runtime.fitness_func ops examples (op_ast best))) ->
  (Runtime.to_program ops examples best = Runtime.Result None) \/
  (exists func,
     compile_ast ops (op_ast best) = Some func /\
     (1 <= Runtime.count_matches func examples)%nat /\
     Runtime.to_program ops examples best
     = Runtime.Result
         (Some {| code := ast_to_code (op_ast best);
                  function := func;
                  cost := Runtime.ast_size (op_ast best);
                  examples_satisfied := Runtime.count_matches func examples;
                  generalizes :=
                    (Runtime.count_matches func examples =? List.length examples)%nat |})).
Proof.
  intros Hfit. unfold Runtime.to_program. rewrite Hfit, Qlt_bool_inject_Z.
  destruct (0 <? _)%nat eqn:E; [|now left]. right.
  apply Nat.ltb_lt in E. unfold Runtime.fitness_func in *.
  destruct (compile_ast ops (op_ast best)) as [func|]; cbn beta iota in E; [|lia].
  exists func. split; [reflexivity|]. split; [lia|].
  rewrite py_int_inject_Z, Nat2Z.id, Qeq_bool_inject_Z. reflexivity.
Qed.

Lemma genetic_synthesize_cases (ops : dict callable) (genetic : GeneticEvolution)
    (examples : list IOExample) (generations : nat) (r : rng) :
  best_ever genetic = None ->
  let g0 := fst (initialize_population genetic 4 r) in
  let run := fst (run_evolution g0 (Runtime.fitness_function ops examples) generations
                    (snd (initialize_population genetic 4 r))) in
  let outcome := snd (fst (Runtime.genetic_synthesize ops genetic examples generations r)) in
  (snd run = Raised /\ outcome = Runtime.Raise) \/
  (snd run = Completed /\ best_ever (fst run) = None /\ outcome = Runtime.Raise) \/
  (snd run = Completed /\
   exists best,
     best_ever (fst run) = Some best /\
     outcome = Runtime.to_program ops examples best /\
     fitness best
     = inject_Z (Z.of_nat (Runtime.fitness_func ops examples (op_ast best)))).
Proof.
  intros Hfresh g0 run outcome. subst outcome.
  unfold Runtime.genetic_synthesize. rewrite !rbind_run. fold g0. fold run.
  destruct (snd run) eqn:Erun; [|left; auto]. right.
  destruct (best_ever (fst run)) as [best|] eqn:Ebest; [right | left; auto].
  split; [reflexivity|]. exists best. repeat split.
  assert (HJ : best_ever_consistent (Runtime.fitness_function ops examples) g0).
  { intros b Hb. subst g0. unfold initialize_population in Hb.
    rewrite rbind_run in Hb. cbn [rret fst set_population best_ever] in Hb.
    congruence. }
  apply (run_evolution_consistent _ generations g0
           (snd (initialize_population genetic 4 r))) in HJ.
  apply (HJ best Ebest).
Qed.

Lemma genetic_synthesize_engine (ops : dict callable) (genetic : GeneticEvolution)
    (examples : list IOExample) (generations : nat) (r : rng) :
  fst (fst (Runtime.genetic_synthesize ops genetic examples generations r))
  = fst (fst (run_evolution (fst (initialize_population genetic 4 r))
                (Runtime.fitness_function ops examples) generations
                (snd (initialize_population genetic 4 r)))).
Proof.
  unfold Runtime.genetic_synthesize. rewrite !rbind_run.
  destruct (snd (fst (run_evolution _ _ _ _))); [|reflexivity].
  destruct (best_ever _); reflexivity.
Qed.

(** X22. On a genetic engine without a best individual yet, a program that
    [_genetic_synthesize] returns is the compiled tree of the best
    individual of the run, the [best_ever] the engine holds after the call:
    its code is the text of that tree, its cost the node count of the tree,
    [examples_satisfied] is the fitness of the individual, which is the
    number of examples on which the program returns the expected output and
    is at least 1, and [generalizes] holds exactly when it does so on every
    example. *)
Theorem genetic_synthesize_sound (ops : dict callable) (genetic : GeneticEvolution)
    (examples : list IOExample) (generations : nat) (r : rng)
    (p : SynthesizedProgram) :
  best_ever genetic = None ->
  let call := fst (Runtime.genetic_synthesize ops genetic examples generations r) in
  snd call = Runtime.Result (Some p) ->
  exists best,
    best_ever (fst call) = Some best /\
    compile_ast ops (op_ast best) = Some (function p) /\
    code p = ast_to_code (op_ast best) /\
    cost p = Runtime.ast_size (op_ast best) /\
    fitness best = inject_Z (Z.of_nat (examples_satisfied p)) /\
    examples_satisfied p = Runtime.count_matches (function p) examples /\
    (1 <= examples_satisfied p <= List.length examples)%nat /\
    (generalizes p = true <-> Forall (satisfies (function p)) examples).
Proof.
  intros Hfresh call Hres. subst call.
  rewrite genetic_synthesize_engine.
  destruct (genetic_synthesize_cases ops genetic examples generations r Hfresh)
    as [[_ H] | [(_ & _ & H) | (_ & best & Hbest & H & Hfit)]];
    cbv zeta in H; rewrite H in Hres; try discriminate.
  destruct (to_program_consistent ops examples best Hfit)
    as [Hnone | (func & Hc & Hpos & Hprog)]; rewrite ?Hnone, ?Hprog in Hres;
    [discriminate|].
  injection Hres as <-. exists best. cbn [code function cost examples_satisfied generalizes].
  pose proof (count_matches_bound func examples).
  split; [exact Hbest|]. split; [exact Hc|]. split; [reflexivity|].
  split; [reflexivity|]. split.
  { rewrite Hfit. unfold Runtime.fitness_func. now rewrite Hc. }
  split; [reflexivity|]. split; [lia|]. split.
  - intros Hg. apply Nat.eqb_eq in Hg. now apply count_matches_all.
  - intros Hall. apply Nat.eqb_eq. now apply count_matches_all.
Qed.

Lemma genetic_synthesize_sound_witness :
  let genetic := Genetic.init 2 (1 # 10) (7 # 10) 1 in
  let examples := [ {| inputs := [VInt 1]; output := VInt 1 |} ] in
  let call :=
    fst (Runtime.genetic_synthesize initialize_primitives genetic examples 1
           (rng_of_list [])) in
  exists p best,
    snd call = Runtime.Result (Some p) /\
    best_ever (fst call) = Some best /\
    compile_ast initialize_primitives (op_ast best) = Some (function p) /\
    cost p = Runtime.ast_size (op_ast best) /\
    (generalizes p = true <-> Forall (satisfies (function p)) examples).
Proof.
  intros genetic examples call.
  destruct (snd call) as [[p|]|] eqn:E; try (vm_compute in E; discriminate).
  destruct (genetic_synthesize_sound initialize_primitives genetic examples 1
              (rng_of_list []) p eq_refl E)
    as (best & Hbest & Hc & _ & Hcost & _ & _ & _ & Hg).
  exists p, best. auto.
Defined.

Lemma initialize_population_fields (self : GeneticEvolution) (max_depth : nat)
    (r : rng) :
  let self' := fst (initialize_population self max_depth r) in
  List.length (population self') = population_size self' /\
  population_size self' = population_size self /\
  tournament_size self' = tournament_size self /\
  best_ever self' = best_ever self.
Proof.
  cbv zeta. unfold initialize_population. rewrite rbind_run.
  cbn [rret fst set_population population population_size tournament_size best_ever].
  destruct (initial_individuals_spec (population_size self) max_depth 0
              (population_size self) r) as [Hlen _].
  auto.
Qed.

(** X23. On a genetic engine without a best individual yet,
    [_genetic_synthesize] raises exactly when no generation is asked for,
    when [population_size] is zero, or when [population_size] is at least 2
    and the tournament is larger than the population or of size zero; in
    particular the final compilation of the best tree never raises. *)
Theorem genetic_synthesize_raises (ops : dict callable) (genetic : GeneticEvolution)
    (examples : list IOExample) (generations : nat) (r : rng) :
  best_ever genetic = None ->
  (snd (fst (Runtime.genetic_synthesize ops genetic examples generations r))
   = Runtime.Raise
   <->
   generations = 0%nat \/
   population_size genetic = 0%nat \/
   ((2 <= population_size genetic)%nat /\
    ((population_size genetic < tournament_size genetic)%nat
     \/ tournament_size genetic = 0%nat))).
Proof.
  intros Hfresh.
  destruct (initialize_population_fields genetic 4 r) as (Hlen & Hsize & Htour & Hbest).
  cbv zeta in *.
  set (g0 := fst (initialize_population genetic 4 r)) in *.
  set (r0 := snd (initialize_population genetic 4 r)).
  set (ff := Runtime.fitness_function ops examples).
  assert (Hzero : generations = 0%nat ->
                  fst (run_evolution g0 ff generations r0) = (g0, Completed))
    by (intros ->; reflexivity).
  assert (Hpos : (1 <= generations)%nat ->
    (snd (fst (run_evolution g0 ff generations r0)) = Raised <->
     population_size genetic = 0%nat \/
     ((2 <= population_size genetic)%nat /\
      ((population_size genetic < tournament_size genetic)%nat
       \/ tournament_size genetic = 0%nat))) /\
    (snd (fst (run_evolution g0 ff generations r0)) = Raised
     \/ best_ever (fst (fst (run_evolution g0 ff generations r0))) <> None)).
  { intros Hg. rewrite <- Hsize, <- Htour.
    apply (run_evolution_raised_iff g0 ff generations r0 Hlen Hg). }
  destruct (genetic_synthesize_cases ops genetic examples generations r Hfresh)
    as [[Hrun ->] | [(Hrun & Hnone & ->) | (Hrun & best & Hsome & -> & Hfit)]];
    fold g0 r0 ff in Hrun; try fold g0 r0 ff in Hnone; try fold g0 r0 ff in Hsome.
  - split; [intros _ | reflexivity].
    destruct generations as [|g]; [now left|]. right.
    apply (Hpos ltac:(lia)). exact Hrun.
  - split; [intros _ | reflexivity].
    destruct generations as [|g]; [now left|].
    destruct (Hpos ltac:(lia)) as [_ [H | H]]; [congruence | contradiction].
  - destruct (to_program_consistent ops examples best Hfit)
      as [-> | (func & _ & _ & ->)].
    + split; [discriminate|]. intros [-> | H].
      * rewrite Hzero in Hsome by reflexivity. cbn [fst] in Hsome. congruence.
      * destruct generations as [|g].
        -- rewrite Hzero in Hsome by reflexivity. cbn [fst] in Hsome. congruence.
        -- apply (Hpos ltac:(lia)) in H. congruence.
    + split; [discriminate|]. intros [-> | H].
      * rewrite Hzero in Hsome by reflexivity. cbn [fst] in Hsome. congruence.
      * destruct generations as [|g].
        -- rewrite Hzero in Hsome by reflexivity. cbn [fst] in Hsome. congruence.
        -- apply (Hpos ltac:(lia)) in H. congruence.
Qed.

Lemma genetic_synthesize_raises_witness :
  snd (fst (Runtime.genetic_synthesize initialize_primitives
              (Genetic.init 50 (1 # 10) (7 # 10) 5)
              [ {| inputs := [VInt 1]; output := VInt 1 |} ] 0 (rng_of_list [])))
  = Runtime.Raise.
Proof.
  apply (genetic_synthesize_raises initialize_primitives
           (Genetic.init 50 (1 # 10) (7 # 10) 5)); [reflexivity | now left].
Defined.

(** ** Strategy selection and bookkeeping *)

(** X24. [select_strategy] returns the strategy the signature is mapped to;
    without a mapping it returns [enumerative] when that is registered and
    otherwise some registered strategy.  It raises exactly when the
    signature has no mapping and no strategy is registered. *)
Theorem select_strategy_spec (self : MetaLearner)
    (problem_chars : ProblemCharacteristics) (r : rng) :
  match fst (select_strategy self problem_chars r) with
  | None =>
      lookup (signature problem_chars) (strategy_mapping self) = None /\
      strategies self = []
  | Some s =>
      lookup (signature problem_chars) (strategy_mapping self) = Some s \/
      (lookup (signature problem_chars) (strategy_mapping self) = None /\
       In s (keys (strategies self)) /\
       (In "enumerative" (keys (strategies self)) -> s = "enumerative"))
  end.
Proof.
  unfold select_strategy.
  destruct (lookup (signature problem_chars) (strategy_mapping self)) as [s|];
    [now left|].
  destruct (in_list "enumerative" (keys (strategies self))) eqn:E.
  - cbn [rret fst]. right. apply in_list_In in E. auto.
  - destruct (strategies self) as [|[k v] rest] eqn:Es; [cbn; auto|].
    cbn [keys map fst] in *. fold (keys rest) in *.
    unfold choice. rewrite !rbind_run. cbn [rret fst]. right.
    split; [reflexivity|]. split.
    + apply nth_In. apply choice_index_lt. cbn. lia.
    + intros Hin. apply in_list_In in Hin. congruence.
Qed.

(** X25. An [attempt_synthesis] that returns has run the selected strategy
    once: that strategy's [success_count] (for a result) or [failure_count]
    (for [None]) has grown by one and its [total_time] by the elapsed time,
    every other strategy is untouched, and one entry has been appended to the
    history.  A call that raises leaves the selector as it was. *)
Theorem attempt_synthesis_accounting (self : MetaLearner)
    (problem_chars : ProblemCharacteristics) (examples : list IOExample)
    (timeout elapsed : Q) (r : rng) :
  let call := fst (attempt_synthesis self problem_chars examples timeout elapsed r) in
  let self' := fst call in
  match snd call with
  | Propagated => self' = self
  | Returned result =>
      exists strategy_name strategy strategy',
        fst (select_strategy self problem_chars r) = Some strategy_name /\
        lookup strategy_name (strategies self) = Some strategy /\
        lookup strategy_name (strategies self') = Some strategy' /\
        success_count strategy'
        = (success_count strategy + match result with Some _ => 1 | None => 0 end)%nat /\
        failure_count strategy'
        = (failure_count strategy + match result with Some _ => 0 | None => 1 end)%nat /\
        total_time strategy' = (total_time strategy + elapsed)%Q /\
        (forall other, other <> strategy_name ->
           lookup other (strategies self') = lookup other (strategies self)) /\
        List.length (problem_history self') = S (List.length (problem_history self))
  end.
Proof.
  cbv zeta. unfold attempt_synthesis. rewrite rbind_run.
  destruct (fst (select_strategy self problem_chars r)) as [strategy_name|] eqn:Esel;
    [|reflexivity].
  destruct (lookup strategy_name (strategies self)) as [strategy|] eqn:Elook;
    [|reflexivity].
  assert (Hfail : forall error,
    let self' := record_failure self problem_chars strategy_name strategy elapsed error in
    exists strategy_name0 strategy0 strategy',
      Some strategy_name = Some strategy_name0 /\
      lookup strategy_name0 (strategies self) = Some strategy0 /\
      lookup strategy_name0 (strategies self') = Some strategy' /\
      success_count strategy' = (success_count strategy0 + 0)%nat /\
      failure_count strategy' = (failure_count strategy0 + 1)%nat /\
      total_time strategy' = (total_time strategy0 + elapsed)%Q /\
      (forall other, other <> strategy_name0 ->
         lookup other (strategies self') = lookup other (strategies self)) /\
      List.length (problem_history self') = S (List.length (problem_history self))).
  { intros error. cbn. eexists strategy_name, strategy, _.
    split; [reflexivity|]. split; [exact Elook|].
    split; [apply lookup_dict_set_same|]. cbn.
    repeat split; auto.
    - intros other Hne. now apply lookup_dict_set_other.
    - rewrite length_app. cbn. lia. }
  destruct (synthesize_func strategy examples timeout) as [[result|]|e];
    cbn [rret fst snd]; [|apply Hfail|apply Hfail].
  eexists strategy_name, strategy, _. split; [reflexivity|]. split; [exact Elook|].
  unfold record_success, update_strategy_mapping.
  cbn [success_patterns strategy_mapping strategies problem_history].
  rewrite lookup_dict_set_same.
  destruct (min_by_mean _);
    cbn [strategies problem_history];
    (split; [apply lookup_dict_set_same|]); cbn;
    (repeat split; auto;
     [intros other Hne; now apply lookup_dict_set_other
     | rewrite length_app; cbn; lia]).
Qed.

(** X27. [success_rate] is the share of successes among the attempts of a
    strategy, a number between 0 and 1; both [success_rate] and [avg_time]
    are 0 for a strategy that was never tried (no division by zero). *)
Theorem success_rate_bounds (s : SynthesisStrategy) :
  (0 <= success_rate s <= 1)%Q /\
  ((success_count s + failure_count s = 0)%nat /\ success_rate s = 0%Q /\ avg_time s = 0%Q
   \/ (0 < success_count s + failure_count s)%nat /\
      (success_rate s * inject_Z (Z.of_nat (success_count s + failure_count s))
       == inject_Z (Z.of_nat (success_count s)))%Q).
Proof.
  unfold success_rate, avg_time.
  destruct (0 <? success_count s + failure_count s)%nat eqn:E.
  - apply Nat.ltb_lt in E.
    assert (Hpos : (0 < inject_Z (Z.of_nat (success_count s + failure_count s)))%Q).
    { change 0%Q with (inject_Z 0). rewrite <- Zlt_Qlt. lia. }
    split; [split|].
    + apply Qle_shift_div_l; [exact Hpos|]. rewrite Qmult_0_l.
      change 0%Q with (inject_Z 0). rewrite <- Zle_Qle. lia.
    + apply Qle_shift_div_r; [exact Hpos|]. rewrite Qmult_1_l.
      rewrite <- Zle_Qle. lia.
    + right. split; [exact E|]. rewrite Qmult_comm. apply Qmult_div_r.
      intros H. rewrite H in Hpos. now apply Qlt_irrefl in Hpos.
  - apply Nat.ltb_ge in E. split; [split; discriminate|].
    left. split; [lia|]. split; reflexivity.
Qed.

(** ** The mapping never changes *)

(** X28. In a selector that has only been used through [register_strategy]
    and [attempt_synthesis], a signature collects success records of one
    strategy only, the one it is mapped to; and once a signature is mapped
    to a strategy, no later attempt changes that mapping. *)
Theorem mapping_never_changes (self : MetaLearner)
    (problem_chars : ProblemCharacteristics) (examples : list IOExample)
    (timeout elapsed : Q) (r : rng) (sig s : string) :
  reachable self ->
  lookup sig (strategy_mapping self) = Some s ->
  single_strategy self /\
  lookup sig (strategy_mapping
                (fst (fst (attempt_synthesis self problem_chars examples timeout
                             elapsed r))))
  = Some s.
Proof.
  intros Hreach Hs. pose proof (reachable_single self Hreach) as Hinv.
  split; [exact Hinv|].
  now apply (attempt_synthesis_single self problem_chars examples timeout elapsed r Hinv).
Qed.

Lemma mapping_never_changes_witness :
  let program :=
    {| code := "arg0"; function := fun _ => Some VNone; cost := 1;
       examples_satisfied := 1; generalizes := true |} in
  let self0 :=
    register_strategy
      (register_strategy Meta.init "enumerative" (fun _ _ => Returns (Some program)))
      "genetic" (fun _ _ => Returns (Some program)) in
  let problem_chars :=
    {| num_examples := 1; input_types := ["int"]; output_type := "int";
       example_complexity := 1 |} in
  let self1 :=
    fst (fst (attempt_synthesis self0 problem_chars [] 5 (1 # 2) (rng_of_list []))) in
  lookup "1_1_int"
    (strategy_mapping
       (fst (fst (attempt_synthesis self1 problem_chars [] 5 (1 # 4) (rng_of_list [])))))
  = Some "enumerative".
Proof.
  intros program self0 problem_chars self1.
  apply (mapping_never_changes self1 problem_chars [] 5 (1 # 4) (rng_of_list [])
           "1_1_int" "enumerative").
  - apply reach_attempt. apply reach_register. apply reach_register. apply reach_init.
  - reflexivity.
Defined.

(** ** Point mutation *)

Lemma randint_range (a b : nat) (r : rng) :
  (a <= b)%nat -> (a <= fst (randint a b r) <= b)%nat.
Proof.
  intros Hab. unfold randint. rewrite rbind_run. cbn [rret fst].
  assert (N.of_nat (b - a + 1) <> 0%N) by lia.
  pose proof (N.mod_upper_bound (fst (draw r)) (N.of_nat (b - a + 1)) H) as Hm.
  set (m := (fst (draw r) mod N.of_nat (b - a + 1))%N) in *. clearbody m. lia.
Qed.

Lemma choice_In {A : Type} (xs : list A) (default : A) (r : rng) :
  xs <> [] -> In (fst (choice xs default r)) xs.
Proof.
  intros Hne. unfold choice. rewrite rbind_run. cbn [rret fst].
  apply nth_In. apply choice_index_lt. destruct xs; [contradiction | cbn; lia].
Qed.

(** X29. [_point_mutation] changes the root node only: a variable becomes a
    variable 0, 1 or 2, a constant one of the five literals, and an [Apply]
    node keeps its children under an operator drawn from the primitives of
    the engine; the size and the depth of the tree are unchanged. *)
Theorem point_mutation_shape (a : ast) (r : rng) :
  let mutated := fst (point_mutation a r) in
  Runtime.ast_size mutated = Runtime.ast_size a /\
  depth mutated = depth a /\
  match a with
  | Var _ => exists i, mutated = Var i /\ (i <= 2)%nat
  | Const _ => exists c, mutated = Const c /\ In c constants
  | Apply _ children =>
      exists op, mutated = Apply op children /\ In op primitives
  | Primitive _ => mutated = a
  end.
Proof.
  destruct a as [n|i|v|op children]; cbn [point_mutation].
  - cbn. auto.
  - rewrite rbind_run. cbn [rret fst]. split; [reflexivity|]. split; [reflexivity|].
    eexists. split; [reflexivity|]. apply (randint_range 0 2 r). lia.
  - rewrite rbind_run. cbn [rret fst]. split; [reflexivity|]. split; [reflexivity|].
    eexists. split; [reflexivity|]. apply choice_In. discriminate.
  - rewrite rbind_run. cbn [rret fst]. split; [reflexivity|]. split; [reflexivity|].
    eexists. split; [reflexivity|]. apply choice_In. discriminate.
Qed.
